(** * Event-log to property-graph upload (src/app.py)

    A shallow embedding of the upload script: the event log it reads, the
    parameter records it builds, the batched upsert stages, the Cypher
    statements it sends, and the store those statements act on. *)

From Stdlib Require Import ZArith Lia.
From stdpp Require Import base option list sorting gmap strings.

Set Warnings "-clear-no-such-hyp".

(** ** The event log

    [json_data['ocel:events']] is a list of JSON objects.  A field the script
    reads with [event[k]] is an [option]: [None] is an absent key, and reading
    it raises [KeyError].  A timestamp is represented by the instant its
    ISO-8601 text denotes, in seconds. *)

Record Obj := {
  obj_id : option string;      (* obj["id"] *)
  obj_type : option string     (* obj["type"] *)
}.

Record Event := {
  ocel_id : option string;                       (* event['ocel:id'] *)
  ocel_timestamp : option Z;                     (* event['ocel:timestamp'] *)
  ocel_activity : option string;                 (* event['ocel:activity'] *)
  ocel_attributes : option (gmap string string); (* event['ocel:attributes'] *)
  ocel_objects : option (list Obj)               (* event.get('ocel:objects', []) *)
}.

(** ** Python exceptions and the error monad of record construction *)

Inductive PyError :=
  | KeyError (key : string)
  | DriverError.

Definition Raises (A : Type) : Type := PyError + A.

#[global] Instance Raises_ret : MRet Raises := λ A x, inr x.
#[global] Instance Raises_bind : MBind Raises := λ A B f m,
  match m with
  | inl e => inl e
  | inr x => f x
  end.

(** [d[k]] on a dictionary field. *)
Definition getitem {A} (k : string) (field : option A) : Raises A :=
  match field with
  | Some x => inr x
  | None => inl (KeyError k)
  end.

(** ** Statement parameters and the five upsert statements *)

Inductive Params :=
  | EventParams (id : string) (timestamp : Z) (activity : string)
  | CaseParams (id case_id : string)
  | ActivityParams (id activity : string) (timestamp : Z)
  | ResourceParams (id resource : string)
  | ObjectParams (id obj_id obj_type : string).

Inductive Query :=
  | event_query
  | case_query
  | activity_query
  | resource_query
  | object_query.

#[global] Instance Params_eq_dec : EqDecision Params.
Proof. solve_decision. Defined.
#[global] Instance Query_eq_dec : EqDecision Query.
Proof. solve_decision. Defined.

(** ** The graph store

    Nodes are identified by the key their [MERGE] pattern matches on; node and
    relationship lists are kept in creation order.  Cypher leaves the order
    in which a [MATCH] returns its rows open; [match_rows] lists them in
    creation order, and [ordered] admits every arrangement of them that the
    ORDER BY clause allows. *)

Definition EventNode : Type := string * (Z * string).

Definition node_id (e : EventNode) : string := e.1.
Definition timestamp (e : EventNode) : Z := e.2.1.
Definition activity_name (e : EventNode) : string := e.2.2.

Record Graph := {
  Event_nodes : list EventNode;                  (* (:Event {ocel_id, timestamp, activity_name}) *)
  Case_nodes : list string;                      (* (:Case {case_id}) *)
  Activity_nodes : list (string * Z);            (* (:Activity {name, timestamp}) *)
  Resource_nodes : list string;                  (* (:Resource {name}) *)
  Object_nodes : list (string * string);         (* (:Object {id, type}) *)
  CONTAINS_EVENT : list (string * string);       (* (c:Case)-->(e:Event) as (case_id, ocel_id) *)
  OF_TYPE : list (string * (string * Z));        (* (e:Event)-->(a:Activity) *)
  PERFORMED_BY : list (string * string);         (* (e:Event)-->(r:Resource) *)
  INVOLVES : list (string * (string * string));  (* (e:Event)-->(o:Object) *)
  NEXT_EVENT : list ((string * string) * Z)      (* (e1)-[{time_difference}]->(e2) *)
}.

Definition empty_graph : Graph :=
  {| Event_nodes := []; Case_nodes := []; Activity_nodes := [];
     Resource_nodes := []; Object_nodes := []; CONTAINS_EVENT := [];
     OF_TYPE := []; PERFORMED_BY := []; INVOLVES := []; NEXT_EVENT := [] |}.

(** [MERGE] of a node or relationship without further properties: match it
    or create it. *)
Definition merge `{EqDecision A} (x : A) (l : list A) : list A :=
  if decide (x ∈ l) then l else l ++ [x].

(** [MERGE] on a key followed by [SET] of the remaining properties. *)
Definition set_props `{EqDecision K} {V} (k : K) (v : V) (kv : K * V) : K * V :=
  if decide (kv.1 = k) then (k, v) else kv.

Definition merge_set `{EqDecision K} {V} (k : K) (v : V) (l : list (K * V)) : list (K * V) :=
  if decide (k ∈ l.*1) then set_props k v <$> l else l ++ [(k, v)].

(** [MATCH (e:Event {ocel_id: $id})] finds a row. *)
Definition match_event (id : string) (g : Graph) : bool :=
  bool_decide (id ∈ (Event_nodes g).*1).

Definition with_Event_nodes (f : list EventNode → list EventNode) (g : Graph) : Graph :=
  {| Event_nodes := f (Event_nodes g); Case_nodes := Case_nodes g;
     Activity_nodes := Activity_nodes g; Resource_nodes := Resource_nodes g;
     Object_nodes := Object_nodes g; CONTAINS_EVENT := CONTAINS_EVENT g;
     OF_TYPE := OF_TYPE g; PERFORMED_BY := PERFORMED_BY g;
     INVOLVES := INVOLVES g; NEXT_EVENT := NEXT_EVENT g |}.

Definition with_Case (c : string) (id : string) (g : Graph) : Graph :=
  {| Event_nodes := Event_nodes g; Case_nodes := merge c (Case_nodes g);
     Activity_nodes := Activity_nodes g; Resource_nodes := Resource_nodes g;
     Object_nodes := Object_nodes g; CONTAINS_EVENT := merge (c, id) (CONTAINS_EVENT g);
     OF_TYPE := OF_TYPE g; PERFORMED_BY := PERFORMED_BY g;
     INVOLVES := INVOLVES g; NEXT_EVENT := NEXT_EVENT g |}.

Definition with_Activity (a : string * Z) (id : string) (g : Graph) : Graph :=
  {| Event_nodes := Event_nodes g; Case_nodes := Case_nodes g;
     Activity_nodes := merge a (Activity_nodes g); Resource_nodes := Resource_nodes g;
     Object_nodes := Object_nodes g; CONTAINS_EVENT := CONTAINS_EVENT g;
     OF_TYPE := merge (id, a) (OF_TYPE g); PERFORMED_BY := PERFORMED_BY g;
     INVOLVES := INVOLVES g; NEXT_EVENT := NEXT_EVENT g |}.

Definition with_Resource (r : string) (id : string) (g : Graph) : Graph :=
  {| Event_nodes := Event_nodes g; Case_nodes := Case_nodes g;
     Activity_nodes := Activity_nodes g; Resource_nodes := merge r (Resource_nodes g);
     Object_nodes := Object_nodes g; CONTAINS_EVENT := CONTAINS_EVENT g;
     OF_TYPE := OF_TYPE g; PERFORMED_BY := merge (id, r) (PERFORMED_BY g);
     INVOLVES := INVOLVES g; NEXT_EVENT := NEXT_EVENT g |}.

Definition with_Object (o : string * string) (id : string) (g : Graph) : Graph :=
  {| Event_nodes := Event_nodes g; Case_nodes := Case_nodes g;
     Activity_nodes := Activity_nodes g; Resource_nodes := Resource_nodes g;
     Object_nodes := merge o (Object_nodes g); CONTAINS_EVENT := CONTAINS_EVENT g;
     OF_TYPE := OF_TYPE g; PERFORMED_BY := PERFORMED_BY g;
     INVOLVES := merge (id, o) (INVOLVES g); NEXT_EVENT := NEXT_EVENT g |}.

Definition with_NEXT_EVENT (f : list ((string * string) * Z) → list ((string * string) * Z))
    (g : Graph) : Graph :=
  {| Event_nodes := Event_nodes g; Case_nodes := Case_nodes g;
     Activity_nodes := Activity_nodes g; Resource_nodes := Resource_nodes g;
     Object_nodes := Object_nodes g; CONTAINS_EVENT := CONTAINS_EVENT g;
     OF_TYPE := OF_TYPE g; PERFORMED_BY := PERFORMED_BY g;
     INVOLVES := INVOLVES g; NEXT_EVENT := f (NEXT_EVENT g) |}.

(** [tx.run(query, parameters=record)] for the five upsert statements.

    - event_query:    MERGE (e:Event {ocel_id: $id}) SET e.timestamp, e.activity_name
    - case_query:     MATCH (e:Event {ocel_id: $id}) MERGE (c:Case ..) MERGE (c)-[:CONTAINS_EVENT]->(e)
    - activity_query: MATCH (e) MERGE (a:Activity {name, timestamp}) MERGE (e)-[:OF_TYPE]->(a)
    - resource_query: MATCH (e) MERGE (r:Resource {name}) MERGE (e)-[:PERFORMED_BY]->(r)
    - object_query:   MATCH (e) MERGE (o:Object {id, type}) MERGE (e)-[:INVOLVES]->(o)

    A [MATCH] without a row ends the statement with no effect. *)
Definition tx_run (query : Query) (record : Params) (g : Graph) : Graph :=
  match query, record with
  | event_query, EventParams id ts act =>
      with_Event_nodes (merge_set id (ts, act)) g
  | case_query, CaseParams id c =>
      if match_event id g then with_Case c id g else g
  | activity_query, ActivityParams id act ts =>
      if match_event id g then with_Activity (act, ts) id g else g
  | resource_query, ResourceParams id r =>
      if match_event id g then with_Resource r id g else g
  | object_query, ObjectParams id oid oty =>
      if match_event id g then with_Object (oid, oty) id g else g
  | _, _ => g
  end.

(** ** Step 7: the sequence statement, clause by clause *)

Definition Row : Type := EventNode * string.

(** MATCH (e1:Event)-[:CONTAINS_EVENT]-(c:Case)  WITH e1, c
    One row for every relationship whose ends are an Event and a Case node.
    The rows are listed in creation order here; the store may return them
    in any other order ([ordered] below takes every one of them). *)
Definition match_edge (g : Graph) (edge : string * string) : list Row :=
  e1 ← filter (λ e, node_id e = edge.2) (Event_nodes g);
  if decide (edge.1 ∈ Case_nodes g) then [(e1, edge.1)] else [].

Definition match_rows (g : Graph) : list Row :=
  CONTAINS_EVENT g ≫= match_edge g.

(** ORDER BY c.case_id, e1.timestamp *)
Definition row_le (r1 r2 : Row) : Prop :=
  r1.2 ≠ r2.2 ∧ String.le r1.2 r2.2 ∨ r1.2 = r2.2 ∧ (timestamp r1.1 ≤ timestamp r2.1)%Z.

#[global] Instance row_le_dec : RelDecision row_le.
Proof. intros r1 r2. unfold row_le. apply _. Defined.

(** One arrangement that ORDER BY may give.  Rows that agree on both keys
    are left where the sorting function puts them; the statement does not
    say where, see [ordered]. *)
Definition order_by (rows : list Row) : list Row := merge_sort row_le rows.

(** WITH c, collect(e1) AS events *)
Definition collect (rows : list Row) : list (string * list EventNode) :=
  (λ c, (c, (filter (λ r, r.2 = c) rows).*1)) <$> remove_dups (rows.*2).

(** UNWIND range(0, size(events)-2) AS i  WITH events[i] AS e1, events[i+1] AS e2, c *)
Definition unwind (events : list EventNode) : list (EventNode * EventNode) :=
  i ← seq 0 (length events - 1);
  match events !! i, events !! S i with
  | Some e1, Some e2 => [(e1, e2)]
  | _, _ => []
  end.

(** WHERE e1.timestamp < e2.timestamp AND e1 <> e2 *)
Definition where_ (p : EventNode * EventNode) : Prop :=
  (timestamp p.1 < timestamp p.2)%Z ∧ node_id p.1 ≠ node_id p.2.

#[global] Instance where_dec p : Decision (where_ p).
Proof. unfold where_. apply _. Defined.

(** duration.inSeconds(e1.timestamp, e2.timestamp) *)
Definition inSeconds (t1 t2 : Z) : Z := (t2 - t1)%Z.

(** The rows that reach MERGE, for one case and for all of them. *)
Definition case_pairs (events : list EventNode) : list (EventNode * EventNode) :=
  filter where_ (unwind events).

Definition sequence_rows (rows : list Row) : list (EventNode * EventNode * string) :=
  '(c, events) ← collect (order_by rows);
  (λ p, (p.1, p.2, c)) <$> case_pairs events.

(** MERGE (e1)-[r:NEXT_EVENT]->(e2)  SET r.time_difference = duration.inSeconds(..) *)
Definition merge_next_event (g : Graph) (r : EventNode * EventNode * string) : Graph :=
  let e1 := r.1.1 in
  let e2 := r.1.2 in
  with_NEXT_EVENT
    (merge_set (node_id e1, node_id e2) (inSeconds (timestamp e1) (timestamp e2))) g.

Definition sequence_query (g : Graph) : Graph :=
  foldl merge_next_event g (sequence_rows (match_rows g)).

(** *** The statement with the order of tied rows left open

    The statement names two sort keys, [c.case_id] and [e1.timestamp], and
    no further one, and it does not fix the order in which MATCH returns the
    rows.  What ORDER BY hands on is therefore some arrangement of the
    matched rows that is sorted by the two keys; rows that agree on both may
    come in either order.  [order_by] is one such arrangement and
    [sequence_query] the result it leads to. *)
Definition ordered (rows sorted : list Row) : Prop :=
  sorted ≡ₚ rows ∧ StronglySorted row_le sorted.

(** The clauses after ORDER BY, from collect to WHERE. *)
Definition rows_after_order_by (sorted : list Row) : list (EventNode * EventNode * string) :=
  '(c, events) ← collect sorted;
  (λ p, (p.1, p.2, c)) <$> case_pairs events.

Definition sequence_query_with (sorted : list Row) (g : Graph) : Graph :=
  foldl merge_next_event g (rows_after_order_by sorted).

(** [g'] is a store the statement may leave when it is run on [g]. *)
Definition sequence_result (g g' : Graph) : Prop :=
  ∃ sorted, ordered (match_rows g) sorted ∧ g' = sequence_query_with sorted g.

(** ** The script's world: store, driver and the operations it performed *)

Inductive Op :=
  | SessionOpen (driver_was_open : bool)  (* driver.session().__enter__ *)
  | SessionClose                          (* session.__exit__ *)
  | Run (statement : string)              (* session.run(query) in step 1 *)
  | WriteTransaction (query : Query) (batch : list Params)
  | RunSequence                           (* session.run(sequence_query) *)
  | DriverClose.                          (* driver.__exit__ *)

Record World := {
  store : Graph;
  driver_open : bool;
  trace : list Op
}.

Definition record_op (op : Op) (w : World) : World :=
  {| store := store w; driver_open := driver_open w; trace := trace w ++ [op] |}.

Definition on_store (f : Graph → Graph) (w : World) : World :=
  {| store := f (store w); driver_open := driver_open w; trace := trace w |}.

Definition close_driver (w : World) : World :=
  {| store := store w; driver_open := false; trace := trace w ++ [DriverClose] |}.

(** A Python statement: it changes the world and either completes or raises;
    what was written before an exception stays written. *)
Definition Py (A : Type) : Type := World → World * Raises A.

#[global] Instance Py_ret : MRet Py := λ A x w, (w, inr x).
#[global] Instance Py_bind : MBind Py := λ A B f m w,
  match m w with
  | (w', inl e) => (w', inl e)
  | (w', inr x) => f x w'
  end.

Definition raise_or {A} (r : Raises A) : Py A := λ w, (w, r).
Definition effect (f : World → World) : Py unit := λ w, (f w, inr ()).

(** for x in xs: body(x) *)
Fixpoint for_each {A} (body : A → Py unit) (xs : list A) : Py unit :=
  match xs with
  | [] => mret ()
  | x :: xs => body x ;; for_each body xs
  end.

Section script.

(** config["batch_size"] *)
Variable BATCH_SIZE : Z.
(** datetime.utcnow() as read while the event at a given position of the
    log is handled. *)
Variable utcnow : nat → Z.
(** The neo4j driver is not part of the repository: whether
    [driver.session()] raises on a driver that was closed is its choice. *)
Variable closed_driver_raises : bool.

(** with driver.session() as session: body *)
Definition with_session {A} (body : Py A) : Py A := λ w,
  if negb (driver_open w) && closed_driver_raises then (w, inl DriverError)
  else
    let '(w', r) := body (record_op (SessionOpen (driver_open w)) w) in
    (record_op SessionClose w', r).

(** session.write_transaction(lambda tx: [tx.run(query, parameters=record) for record in batch]) *)
Definition write_transaction (query : Query) (batch : list Params) : Py unit :=
  effect (λ w,
    record_op (WriteTransaction query batch)
      (on_store (λ g, foldl (λ g record, tx_run query record g) g batch) w)).

Definition execute_batch (query : Query) (batch : list Params) : Py unit :=
  match batch with
  | [] => mret ()
  | _ :: _ => with_session (write_transaction query batch)
  end.

(** The parameter records each stage appends for one event. *)

Definition event_records (event : Event) : Raises (list Params) :=
  id ← getitem "ocel:id" (ocel_id event);
  ts ← getitem "ocel:timestamp" (ocel_timestamp event);
  act ← getitem "ocel:activity" (ocel_activity event);
  mret [EventParams id ts act].

Definition case_records (event : Event) : Raises (list Params) :=
  attributes ← getitem "ocel:attributes" (ocel_attributes event);
  match attributes !! "case_id" with
  | Some c =>
      id ← getitem "ocel:id" (ocel_id event);
      mret [CaseParams id c]
  | None => mret []
  end.

Definition activity_records (now : Z) (event : Event) : Raises (list Params) :=
  id ← getitem "ocel:id" (ocel_id event);
  act ← getitem "ocel:activity" (ocel_activity event);
  mret [ActivityParams id act (default now (ocel_timestamp event))].

Definition resource_records (event : Event) : Raises (list Params) :=
  attributes ← getitem "ocel:attributes" (ocel_attributes event);
  match attributes !! "resource" with
  | Some r =>
      id ← getitem "ocel:id" (ocel_id event);
      mret [ResourceParams id r]
  | None => mret []
  end.

Fixpoint object_records_of (event : Event) (objs : list Obj) : Raises (list Params) :=
  match objs with
  | [] => mret []
  | obj :: objs =>
      id ← getitem "ocel:id" (ocel_id event);
      oid ← getitem "id" (obj_id obj);
      oty ← getitem "type" (obj_type obj);
      rest ← object_records_of event objs;
      mret (ObjectParams id oid oty :: rest)
  end.

Definition object_records (event : Event) : Raises (list Params) :=
  object_records_of event (default [] (ocel_objects event)).

Definition stage_records (query : Query) (i : nat) (event : Event) : Raises (list Params) :=
  match query with
  | event_query => event_records event
  | case_query => case_records event
  | activity_query => activity_records (utcnow i) event
  | resource_query => resource_records event
  | object_query => object_records event
  end.

(** The loop shared by steps 2 to 6:
      batch = []
      for event in json_data['ocel:events']:
          <append this event's records>
          if len(batch) >= BATCH_SIZE:
              execute_batch(driver, query, batch); batch = []
      execute_batch(driver, query, batch) *)
Fixpoint upload (query : Query) (i : nat) (events : list Event) (batch : list Params)
    : Py unit :=
  match events with
  | [] => execute_batch query batch
  | event :: events =>
      new ← raise_or (stage_records query i event);
      if decide (BATCH_SIZE ≤ Z.of_nat (length (batch ++ new)))%Z
      then execute_batch query (batch ++ new) ;; upload query (S i) events []
      else upload query (S i) events (batch ++ new)
  end.

Definition stage (query : Query) (events : list Event) : Py unit :=
  upload query 0 events [].

Definition constraint_queries : list string :=
  [ "DROP CONSTRAINT event_id_unique IF EXISTS;";
    "DROP CONSTRAINT case_unique IF EXISTS;";
    "DROP INDEX activity_name IF EXISTS;";
    "CREATE CONSTRAINT event_id_unique IF NOT EXISTS FOR (n:Event) REQUIRE n.ocel_id IS UNIQUE;";
    "CREATE CONSTRAINT case_unique IF NOT EXISTS FOR (n:Case) REQUIRE n.case_id IS UNIQUE;";
    "CREATE INDEX activity_name IF NOT EXISTS FOR (n:Activity) ON (n.name);" ].

(** Steps 1 to 6, the body of [with GraphDatabase.driver(URI, auth=AUTH) as driver:]. *)
Definition upsert_stages (events : list Event) : Py unit :=
  for_each (λ query, with_session (effect (record_op (Run query)))) constraint_queries ;;
  stage event_query events ;;
  stage case_query events ;;
  stage activity_query events ;;
  stage resource_query events ;;
  stage object_query events.

(** with GraphDatabase.driver(..) as driver: body -- the driver is closed
    when the block is left, normally or by an exception. *)
Definition with_driver (body : Py unit) : Py unit := λ w,
  let '(w', r) := body w in (close_driver w', r).

(** Step 7, at the top level of the script, after the [with] block. *)
Definition sequence_stage : Py unit :=
  with_session (effect (λ w, record_op RunSequence (on_store sequence_query w))).

Definition main (events : list Event) : Py unit :=
  with_driver (upsert_stages events) ;;
  sequence_stage.

(** One execution of the script against a store. *)
Definition run (events : list Event) (g : Graph) : World * Raises unit :=
  main events {| store := g; driver_open := true; trace := [] |}.

End script.

(** ** Views used by the statements below *)

(** What a sequence of performed operations does to the store. *)
Definition replay_op (g : Graph) (op : Op) : Graph :=
  match op with
  | WriteTransaction query batch => foldl (λ g record, tx_run query record g) g batch
  | RunSequence => sequence_query g
  | _ => g
  end.

Definition replay (tr : list Op) (g : Graph) : Graph := foldl replay_op g tr.

Definition extend (w : World) (tr : list Op) : World :=
  {| store := replay tr (store w); driver_open := driver_open w; trace := trace w ++ tr |}.

(** On an open driver, [m] performs the operations [tr] and ends with [r],
    whatever the store holds. *)
Definition acts_as {A} (m : Py A) (tr : list Op) (r : Raises A) : Prop :=
  ∀ w, driver_open w = true → m w = (extend w tr, r).

Definition initial (g : Graph) : World :=
  {| store := g; driver_open := true; trace := [] |}.

(** The stores an execution of the script may leave when it starts on [g]:
    steps 1 to 6 are determined by the log; step 7, when the script gets
    there and the driver hands out a session, leaves any result of the
    sequence statement. *)
Definition run_result (BATCH_SIZE : Z) (utcnow : nat → Z) (closed_driver_raises : bool)
    (events : list Event) (g g' : Graph) : Prop :=
  let upserts :=
    with_driver (upsert_stages BATCH_SIZE utcnow closed_driver_raises events) (initial g) in
  match upserts.2 with
  | inl _ => g' = store upserts.1
  | inr _ =>
      if closed_driver_raises then g' = store upserts.1
      else sequence_result (store upserts.1) g'
  end.

(** The invariant behind the constraint [event_id_unique]. *)
Definition event_id_unique (g : Graph) : Prop := NoDup (Event_nodes g).*1.

Definition node_count (g : Graph) : nat :=
  length (Event_nodes g) + length (Case_nodes g) + length (Activity_nodes g)
  + length (Resource_nodes g) + length (Object_nodes g).

Definition edge_count (g : Graph) : nat :=
  length (CONTAINS_EVENT g) + length (OF_TYPE g) + length (PERFORMED_BY g)
  + length (INVOLVES g) + length (NEXT_EVENT g).

(** The operations of one [execute_batch] call on an open driver. *)
Definition flush_ops (query : Query) (batch : list Params) : list Op :=
  match batch with
  | [] => []
  | _ :: _ => [SessionOpen true; WriteTransaction query batch; SessionClose]
  end.

(** The run of one stage loop as a derivation: from position [i] of the log,
    with [batch] pending, the loop performs [tr] and ends with [r]. *)
Inductive uploads (BATCH_SIZE : Z) (utcnow : nat → Z) (query : Query) :
    nat → list Event → list Params → list Op → Raises unit → Prop :=
  | uploads_done i batch :
      uploads BATCH_SIZE utcnow query i [] batch (flush_ops query batch) (inr ())
  | uploads_raise i event events batch e :
      stage_records utcnow query i event = inl e →
      uploads BATCH_SIZE utcnow query i (event :: events) batch [] (inl e)
  | uploads_flush i event events batch new tr r :
      stage_records utcnow query i event = inr new →
      (BATCH_SIZE ≤ Z.of_nat (length (batch ++ new)))%Z →
      uploads BATCH_SIZE utcnow query (S i) events [] tr r →
      uploads BATCH_SIZE utcnow query i (event :: events) batch
        (flush_ops query (batch ++ new) ++ tr) r
  | uploads_keep i event events batch new tr r :
      stage_records utcnow query i event = inr new →
      ¬ (BATCH_SIZE ≤ Z.of_nat (length (batch ++ new)))%Z →
      uploads BATCH_SIZE utcnow query (S i) events (batch ++ new) tr r →
      uploads BATCH_SIZE utcnow query i (event :: events) batch tr r.

(** Stages run one after the other until one raises. *)
Inductive stages_run (BATCH_SIZE : Z) (utcnow : nat → Z) (events : list Event) :
    list Query → list Op → Raises unit → Prop :=
  | stages_run_nil : stages_run BATCH_SIZE utcnow events [] [] (inr ())
  | stages_run_raise query queries tr e :
      uploads BATCH_SIZE utcnow query 0 events [] tr (inl e) →
      stages_run BATCH_SIZE utcnow events (query :: queries) tr (inl e)
  | stages_run_next query queries tr tr' r :
      uploads BATCH_SIZE utcnow query 0 events [] tr (inr ()) →
      stages_run BATCH_SIZE utcnow events queries tr' r →
      stages_run BATCH_SIZE utcnow events (query :: queries) (tr ++ tr') r.

(** The operations of step 1. *)
Definition schema_ops : list Op :=
  constraint_queries ≫= λ query, [SessionOpen true; Run query; SessionClose].

(** An operation a stage loop for [query] may perform. *)
Definition stage_op (query : Query) (op : Op) : Prop :=
  match op with
  | SessionOpen open => open = true
  | SessionClose => True
  | WriteTransaction query' batch => query' = query ∧ batch ≠ []
  | _ => False
  end.

(** An operation steps 1 to 6 may perform. *)
Definition upsert_op (op : Op) : Prop :=
  match op with
  | SessionOpen open => open = true
  | SessionClose | Run _ => True
  | WriteTransaction _ batch => batch ≠ []
  | _ => False
  end.

#[global] Instance Op_eq_dec : EqDecision Op.
Proof. solve_decision. Defined.

(** The bound a written batch obeys: [BATCH_SIZE] when an event adds at most
    one record, and up to [k - 1] more in the Object stage, where one event
    adds up to [k] records before the length is looked at. *)
Definition batch_bound (BATCH_SIZE : Z) (k : nat) (op : Op) : Prop :=
  match op with
  | WriteTransaction query batch =>
      batch ≠ [] ∧
      (Z.of_nat (length batch) ≤
         BATCH_SIZE - 1 + Z.of_nat (if decide (query = object_query) then k else 1))%Z
  | _ => True
  end.

(** ** Sample event logs *)

Definition event_without_timestamp : Event :=
  {| ocel_id := Some "e1"; ocel_timestamp := None; ocel_activity := Some "A";
     ocel_attributes := Some ∅; ocel_objects := None |}.

Definition event_with_three_objects : Event :=
  {| ocel_id := Some "e1"; ocel_timestamp := Some 10%Z; ocel_activity := Some "A";
     ocel_attributes := Some ∅;
     ocel_objects := Some
       [ {| obj_id := Some "o1"; obj_type := Some "order" |};
         {| obj_id := Some "o2"; obj_type := Some "item" |};
         {| obj_id := Some "o3"; obj_type := Some "item" |} ] |}.

(** The relationship a row of the sequence statement merges: its end
    points and the [time_difference] it sets. *)
Definition edge_of (r : EventNode * EventNode * string) : (string * string) * Z :=
  ((node_id r.1.1, node_id r.1.2), inSeconds (timestamp r.1.1) (timestamp r.1.2)).

Definition sample_event (id : string) (ts : Z) (c : string) : Event :=
  {| ocel_id := Some id; ocel_timestamp := Some ts; ocel_activity := Some "A";
     ocel_attributes := Some {[ "case_id" := c ]}; ocel_objects := None |}.

Definition log_three_events : list Event :=
  [sample_event "e1" 10 "c1"; sample_event "e2" 20 "c1"; sample_event "e3" 35 "c1"].

(** The store after steps 1 to 6 on an empty store, with a batch size of 2. *)
Definition uploaded (events : list Event) : Graph :=
  store (with_driver (upsert_stages 2 (λ _, 0%Z) false events) (initial empty_graph)).1.

(** Within case [c], the NEXT_EVENT relationships of [g] form chains: an
    event of the case has at most one successor and at most one predecessor
    among the events of the case. *)
Definition case_chain (g : Graph) (c : string) : Prop :=
  ∀ k k' d d',
    (k, d) ∈ NEXT_EVENT g → (k', d') ∈ NEXT_EVENT g →
    (c, k.1) ∈ CONTAINS_EVENT g → (c, k.2) ∈ CONTAINS_EVENT g →
    (c, k'.1) ∈ CONTAINS_EVENT g → (c, k'.2) ∈ CONTAINS_EVENT g →
    (k.1 = k'.1 → k.2 = k'.2) ∧ (k.2 = k'.2 → k.1 = k'.1).

(** Two input events carry the identifier "a" and two the identifier "x":
    the Event nodes "a" and "x" end up in both cases. *)
Definition log_shared_events : list Event :=
  [sample_event "a" 1 "c1"; sample_event "b" 2 "c1"; sample_event "x" 3 "c1";
   sample_event "a" 1 "c2"; sample_event "x" 3 "c2"].

(** ** The ordering as the specification words it

    Section 4.6 of the specification: events sorted by timestamp ascending,
    ties broken by the event identifier.  The statement in the source orders
    by [c.case_id, e1.timestamp] only ([row_le]). *)
Definition row_le_spec (r1 r2 : Row) : Prop :=
  r1.2 ≠ r2.2 ∧ String.le r1.2 r2.2
  ∨ r1.2 = r2.2 ∧
    ((timestamp r1.1 < timestamp r2.1)%Z
     ∨ timestamp r1.1 = timestamp r2.1 ∧ String.le (node_id r1.1) (node_id r2.1)).

#[global] Instance row_le_spec_dec : RelDecision row_le_spec.
Proof. intros r1 r2. unfold row_le_spec. apply _. Defined.

Definition order_by_spec (rows : list Row) : list Row := merge_sort row_le_spec rows.

Definition sequence_rows_spec (rows : list Row) : list (EventNode * EventNode * string) :=
  '(c, events) ← collect (order_by_spec rows);
  (λ p, (p.1, p.2, c)) <$> case_pairs events.

(** No two rows of one case carry the same timestamp. *)
Definition no_ties (rows : list Row) : Prop :=
  ∀ r1 r2, r1 ∈ rows → r2 ∈ rows →
    r1.2 = r2.2 → timestamp r1.1 = timestamp r2.1 → r1 = r2.

(** Three events of one case, "a" and "b" at the same instant. *)
Definition log_tie_ba : list Event :=
  [sample_event "b" 1 "c1"; sample_event "a" 1 "c1"; sample_event "x" 2 "c1"].

(** Its rows, with the tied events in either order. *)
Definition rows_tie_ab : list Row :=
  [(("a", (1%Z, "A")), "c1"); (("b", (1%Z, "A")), "c1"); (("x", (2%Z, "A")), "c1")].

Definition rows_tie_ba : list Row :=
  [(("b", (1%Z, "A")), "c1"); (("a", (1%Z, "A")), "c1"); (("x", (2%Z, "A")), "c1")].

(** A list of MERGE ... SET updates, applied to a list and to one entry. *)
Definition merge_sets `{EqDecision K} {V} (us l : list (K * V)) : list (K * V) :=
  foldl (λ l u, merge_set u.1 u.2 l) l us.

Definition set_all `{EqDecision K} {V} (us : list (K * V)) (kv : K * V) : K * V :=
  foldl (λ kv u, set_props u.1 u.2 kv) kv us.

(** ** Views of the store used for idempotence *)

(** The parameter records of all write transactions of a trace, in order. *)
Definition writes (tr : list Op) : list (Query * Params) :=
  tr ≫= λ op,
    match op with
    | WriteTransaction query batch => pair query <$> batch
    | _ => []
    end.

Definition apply_writes (ops : list (Query * Params)) (g : Graph) : Graph :=
  foldl (λ g o, tx_run o.1 o.2 g) g ops.

(** [g'] has the Event nodes of [g] and at least its other nodes and its
    relationships other than NEXT_EVENT. *)
Definition grows (g g' : Graph) : Prop :=
  Event_nodes g' = Event_nodes g ∧
  Case_nodes g ⊆ Case_nodes g' ∧ Activity_nodes g ⊆ Activity_nodes g' ∧
  Resource_nodes g ⊆ Resource_nodes g' ∧ Object_nodes g ⊆ Object_nodes g' ∧
  CONTAINS_EVENT g ⊆ CONTAINS_EVENT g' ∧ OF_TYPE g ⊆ OF_TYPE g' ∧
  PERFORMED_BY g ⊆ PERFORMED_BY g' ∧ INVOLVES g ⊆ INVOLVES g'.

(** What the statement of a Case, Activity, Resource or Object record would
    merge is in the store already. *)
Definition settled (g : Graph) (o : Query * Params) : Prop :=
  match o with
  | (case_query, CaseParams id c) =>
      match_event id g = true → c ∈ Case_nodes g ∧ (c, id) ∈ CONTAINS_EVENT g
  | (activity_query, ActivityParams id act ts) =>
      match_event id g = true → (act, ts) ∈ Activity_nodes g ∧ (id, (act, ts)) ∈ OF_TYPE g
  | (resource_query, ResourceParams id r) =>
      match_event id g = true → r ∈ Resource_nodes g ∧ (id, r) ∈ PERFORMED_BY g
  | (object_query, ObjectParams id oid oty) =>
      match_event id g = true → (oid, oty) ∈ Object_nodes g ∧ (id, (oid, oty)) ∈ INVOLVES g
  | _ => True
  end.

(** The Event node an [event_query] record sets. *)
Definition event_update (o : Query * Params) : option EventNode :=
  match o with
  | (event_query, EventParams id ts act) => Some (id, (ts, act))
  | _ => None
  end.

(** ** Views used for completeness *)

(** All records a stage builds for the log, when no event raises. *)
Fixpoint all_records (utcnow : nat → Z) (query : Query) (i : nat) (events : list Event)
    : Raises (list Params) :=
  match events with
  | [] => mret []
  | event :: events =>
      new ← stage_records utcnow query i event;
      rest ← all_records utcnow query (S i) events;
      mret (new ++ rest)
  end.

(** The Event node and the OF_TYPE relationship an input event stands for. *)
Definition event_node_of (event : Event) : option EventNode :=
  id ← ocel_id event; ts ← ocel_timestamp event; act ← ocel_activity event;
  Some (id, (ts, act)).

Definition of_type_of (event : Event) : option (string * (string * Z)) :=
  id ← ocel_id event; ts ← ocel_timestamp event; act ← ocel_activity event;
  Some (id, (act, ts)).

(** The OF_TYPE relationship an [activity_query] record merges. *)
Definition of_type_update (o : Query * Params) : option (string * (string * Z)) :=
  match o with
  | (activity_query, ActivityParams id act ts) => Some (id, (act, ts))
  | _ => None
  end.

(** Two input events with the same identifier. *)
Definition log_repeated_id : list Event :=
  [sample_event "e1" 10 "c1"; sample_event "e1" 20 "c1"].

(** ** Views used for the further properties *)

(** The groups of records written, one per write transaction. *)
Definition batches (tr : list Op) : list (list Params) :=
  tr ≫= λ op,
    match op with
    | WriteTransaction _ batch => [batch]
    | _ => []
    end.

(** What a session is opened for. *)
Definition session_body (op : Op) : Prop :=
  match op with
  | Run _ | WriteTransaction _ _ | RunSequence => True
  | _ => False
  end.

(** Every session holds one statement or one write transaction and is closed
    before the next operation. *)
Inductive bracketed : list Op → Prop :=
  | bracketed_nil : bracketed []
  | bracketed_session open op tr :
      session_body op → bracketed tr →
      bracketed (SessionOpen open :: op :: SessionClose :: tr)
  | bracketed_driver tr : bracketed tr → bracketed (DriverClose :: tr).

(** No two nodes with the same key, no relationship twice. *)
Definition unique_keys (g : Graph) : Prop :=
  NoDup (Event_nodes g).*1 ∧ NoDup (Case_nodes g) ∧ NoDup (Activity_nodes g) ∧
  NoDup (Resource_nodes g) ∧ NoDup (Object_nodes g) ∧ NoDup (CONTAINS_EVENT g) ∧
  NoDup (OF_TYPE g) ∧ NoDup (PERFORMED_BY g) ∧ NoDup (INVOLVES g) ∧
  NoDup (NEXT_EVENT g).*1.

(** Both ends of every relationship are nodes of the store. *)
Definition no_dangling (g : Graph) : Prop :=
  (∀ c id, (c, id) ∈ CONTAINS_EVENT g → c ∈ Case_nodes g ∧ id ∈ (Event_nodes g).*1) ∧
  (∀ id a, (id, a) ∈ OF_TYPE g → id ∈ (Event_nodes g).*1 ∧ a ∈ Activity_nodes g) ∧
  (∀ id r, (id, r) ∈ PERFORMED_BY g → id ∈ (Event_nodes g).*1 ∧ r ∈ Resource_nodes g) ∧
  (∀ id o, (id, o) ∈ INVOLVES g → id ∈ (Event_nodes g).*1 ∧ o ∈ Object_nodes g) ∧
  (∀ id1 id2 d, ((id1, id2), d) ∈ NEXT_EVENT g →
     id1 ∈ (Event_nodes g).*1 ∧ id2 ∈ (Event_nodes g).*1).

(** [g'] still has every node and every relationship of [g]. *)
Definition kept (g g' : Graph) : Prop :=
  (Event_nodes g).*1 ⊆ (Event_nodes g').*1 ∧
  Case_nodes g ⊆ Case_nodes g' ∧ Activity_nodes g ⊆ Activity_nodes g' ∧
  Resource_nodes g ⊆ Resource_nodes g' ∧ Object_nodes g ⊆ Object_nodes g' ∧
  CONTAINS_EVENT g ⊆ CONTAINS_EVENT g' ∧ OF_TYPE g ⊆ OF_TYPE g' ∧
  PERFORMED_BY g ⊆ PERFORMED_BY g' ∧ INVOLVES g ⊆ INVOLVES g' ∧
  (NEXT_EVENT g).*1 ⊆ (NEXT_EVENT g').*1.

(** An event that has every key the stages read. *)
Definition complete_object (obj : Obj) : Prop :=
  is_Some (obj_id obj) ∧ is_Some (obj_type obj).

Definition complete_event (event : Event) : Prop :=
  is_Some (ocel_id event) ∧ is_Some (ocel_timestamp event) ∧
  is_Some (ocel_activity event) ∧ is_Some (ocel_attributes event) ∧
  Forall complete_object (default [] (ocel_objects event)).

(** A node or relationship merged by the Case, Activity, Resource or Object
    statement. *)
Inductive Item :=
  | CaseNode (c : string)
  | ContainsEvent (c id : string)
  | ActivityNode (a : string * Z)
  | OfType (id : string) (a : string * Z)
  | ResourceNode (r : string)
  | PerformedBy (id r : string)
  | ObjectNode (o : string * string)
  | Involves (id : string) (o : string * string).

Definition has_item (g : Graph) (x : Item) : Prop :=
  match x with
  | CaseNode c => c ∈ Case_nodes g
  | ContainsEvent c id => (c, id) ∈ CONTAINS_EVENT g
  | ActivityNode a => a ∈ Activity_nodes g
  | OfType id a => (id, a) ∈ OF_TYPE g
  | ResourceNode r => r ∈ Resource_nodes g
  | PerformedBy id r => (id, r) ∈ PERFORMED_BY g
  | ObjectNode o => o ∈ Object_nodes g
  | Involves id o => (id, o) ∈ INVOLVES g
  end.

(** What the statement of a record merges once its [MATCH] has found the
    Event node. *)
Definition items_of (o : Query * Params) : list Item :=
  match o with
  | (case_query, CaseParams id c) => [CaseNode c; ContainsEvent c id]
  | (activity_query, ActivityParams id act ts) =>
      [ActivityNode (act, ts); OfType id (act, ts)]
  | (resource_query, ResourceParams id r) => [ResourceNode r; PerformedBy id r]
  | (object_query, ObjectParams id oid oty) =>
      [ObjectNode (oid, oty); Involves id (oid, oty)]
  | _ => []
  end.

(** The [$id] parameter of a record. *)
Definition params_id (record : Params) : string :=
  match record with
  | EventParams id _ _ | CaseParams id _ | ActivityParams id _ _
  | ResourceParams id _ | ObjectParams id _ _ => id
  end.

(** What an event of the log says about a node or relationship. *)
Definition log_item (event : Event) (x : Item) : Prop :=
  match x with
  | CaseNode c =>
      ∃ attrs, ocel_attributes event = Some attrs ∧ attrs !! "case_id" = Some c
  | ContainsEvent c id =>
      ocel_id event = Some id ∧
      ∃ attrs, ocel_attributes event = Some attrs ∧ attrs !! "case_id" = Some c
  | ActivityNode a =>
      ocel_activity event = Some a.1 ∧ ocel_timestamp event = Some a.2
  | OfType id a =>
      ocel_id event = Some id ∧
      ocel_activity event = Some a.1 ∧ ocel_timestamp event = Some a.2
  | ResourceNode r =>
      ∃ attrs, ocel_attributes event = Some attrs ∧ attrs !! "resource" = Some r
  | PerformedBy id r =>
      ocel_id event = Some id ∧
      ∃ attrs, ocel_attributes event = Some attrs ∧ attrs !! "resource" = Some r
  | ObjectNode o =>
      ∃ obj, obj ∈ default [] (ocel_objects event) ∧
        obj_id obj = Some o.1 ∧ obj_type obj = Some o.2
  | Involves id o =>
      ocel_id event = Some id ∧
      ∃ obj, obj ∈ default [] (ocel_objects event) ∧
        obj_id obj = Some o.1 ∧ obj_type obj = Some o.2
  end.

(** * Properties *)

(** ** The statement monad *)

Lemma replay_app tr1 tr2 g : replay (tr1 ++ tr2) g = replay tr2 (replay tr1 g).
Proof. apply foldl_app. Qed.

Lemma extend_nil w : extend w [] = w.
Proof. destruct w. unfold extend. simpl. by rewrite app_nil_r. Qed.

Lemma extend_app w tr1 tr2 : extend (extend w tr1) tr2 = extend w (tr1 ++ tr2).
Proof. unfold extend. simpl. by rewrite replay_app, app_assoc. Qed.

Lemma acts_as_ret {A} (x : A) : acts_as (mret x) [] (inr x).
Proof. intros w _. unfold mret, Py_ret. by rewrite extend_nil. Qed.

Lemma acts_as_raise_or {A} (r : Raises A) : acts_as (raise_or r) [] r.
Proof. intros w _. unfold raise_or. by rewrite extend_nil. Qed.

Lemma acts_as_bind_raise {A B} (m : Py A) (k : A → Py B) tr e :
  acts_as m tr (inl e) → acts_as (m ≫= k) tr (inl e).
Proof. intros Hm w Hw. unfold mbind, Py_bind. by rewrite (Hm w Hw). Qed.

Lemma acts_as_bind {A B} (m : Py A) (k : A → Py B) tr x tr' r :
  acts_as m tr (inr x) → acts_as (k x) tr' r → acts_as (m ≫= k) (tr ++ tr') r.
Proof.
  intros Hm Hk w Hw. unfold mbind, Py_bind. rewrite (Hm w Hw).
  rewrite Hk by done. by rewrite extend_app.
Qed.

Section script_facts.

Variable BATCH_SIZE : Z.
Variable utcnow : nat → Z.
Variable closed_driver_raises : bool.

Lemma acts_as_with_session {A} (body : Py A) tr r :
  acts_as body tr r →
  acts_as (with_session closed_driver_raises body)
    (SessionOpen true :: tr ++ [SessionClose]) r.
Proof.
  intros Hb w Hw. unfold with_session. rewrite Hw. simpl.
  rewrite Hb by done. unfold extend, record_op, replay. simpl.
  rewrite foldl_app. simpl. by rewrite <-!app_assoc.
Qed.

Lemma acts_as_execute_batch query batch :
  acts_as (execute_batch closed_driver_raises query batch)
    (match batch with
     | [] => []
     | _ => [SessionOpen true; WriteTransaction query batch; SessionClose]
     end) (inr ()).
Proof.
  destruct batch as [|p batch]; [apply acts_as_ret|].
  apply (acts_as_with_session _ [WriteTransaction query (p :: batch)]).
  intros w Hw. unfold write_transaction, effect, extend. by destruct w.
Qed.

Lemma uploads_total query events : ∀ i batch,
  ∃ tr r, uploads BATCH_SIZE utcnow query i events batch tr r.
Proof.
  induction events as [|event events IH]; intros i batch.
  { eexists _, _. constructor. }
  destruct (stage_records utcnow query i event) as [e|new] eqn:Hrec.
  { eexists _, _. by apply uploads_raise. }
  destruct (decide (BATCH_SIZE ≤ Z.of_nat (length (batch ++ new)))%Z) as [Hle|Hlt].
  - destruct (IH (S i) []) as (tr & r & Hup).
    eexists _, _. by eapply uploads_flush.
  - destruct (IH (S i) (batch ++ new)) as (tr & r & Hup).
    eexists _, _. by eapply uploads_keep.
Qed.

Lemma uploads_acts_as query i events batch tr r :
  uploads BATCH_SIZE utcnow query i events batch tr r →
  acts_as (upload BATCH_SIZE utcnow closed_driver_raises query i events batch) tr r.
Proof.
  induction 1 as [i batch|i event events batch e Hrec
                 |i event events batch new tr r Hrec Hle _ IH
                 |i event events batch new tr r Hrec Hlt _ IH]; simpl.
  - apply acts_as_execute_batch.
  - rewrite Hrec. apply acts_as_bind_raise, acts_as_raise_or.
  - rewrite Hrec. change tr with ([] ++ tr) in IH.
    apply (acts_as_bind _ _ [] new); [apply acts_as_raise_or|].
    rewrite decide_True by done.
    eapply acts_as_bind; [apply acts_as_execute_batch|done].
  - rewrite Hrec. change tr with ([] ++ tr).
    apply (acts_as_bind _ _ [] new); [apply acts_as_raise_or|].
    by rewrite decide_False by done.
Qed.

Lemma stages_run_total events queries :
  ∃ tr r, stages_run BATCH_SIZE utcnow events queries tr r.
Proof.
  induction queries as [|query queries (tr' & r' & IH)].
  { eexists _, _. constructor. }
  destruct (uploads_total query events 0 []) as (tr & [e|[]] & Hup).
  - eexists _, _. by apply stages_run_raise.
  - eexists _, _. by eapply stages_run_next.
Qed.

Lemma acts_as_schema :
  acts_as
    (for_each (λ query, with_session closed_driver_raises (effect (record_op (Run query))))
       constraint_queries)
    schema_ops (inr ()).
Proof.
  unfold schema_ops. induction constraint_queries as [|query queries IH]; simpl.
  { apply acts_as_ret. }
  apply (acts_as_bind _ _ [SessionOpen true; Run query; SessionClose] ()); [|done].
  apply (acts_as_with_session _ [Run query]).
  intros w Hw. unfold effect, extend, record_op. by destruct w.
Qed.

Lemma upsert_stages_acts_as events tr r :
  stages_run BATCH_SIZE utcnow events
    [event_query; case_query; activity_query; resource_query; object_query] tr r →
  acts_as (upsert_stages BATCH_SIZE utcnow closed_driver_raises events) (schema_ops ++ tr) r.
Proof.
  intros Hrun. unfold upsert_stages, stage.
  eapply acts_as_bind; [apply acts_as_schema|].
  repeat match goal with
  | H : stages_run _ _ _ (_ :: _) _ _ |- _ => inv H
  | H : stages_run _ _ _ [] _ _ |- _ => inv H
  end;
  repeat match goal with
  | H : uploads _ _ _ _ _ _ _ _ |- _ => apply uploads_acts_as in H
  end;
  repeat match goal with
  | H : acts_as ?m ?tr (inl ?e) |- acts_as (?m ≫= _) ?tr (inl ?e) =>
      apply acts_as_bind_raise, H
  | H : acts_as ?m ?tr (inr _) |- acts_as (?m ≫= _) (?tr ++ _) _ =>
      eapply acts_as_bind; [exact H|]
  | H : acts_as ?m ?tr ?r |- acts_as ?m ?tr ?r => exact H
  | |- acts_as _ (_ ++ []) _ => rewrite app_nil_r
  end.
Qed.

Lemma uploads_stage_op query i events batch tr r :
  uploads BATCH_SIZE utcnow query i events batch tr r → Forall (stage_op query) tr.
Proof.
  assert (∀ b, Forall (stage_op query) (flush_ops query b)) as Hflush.
  { intros [|p b]; simpl; [constructor|]. repeat constructor; done. }
  induction 1; try apply Forall_app; auto.
Qed.

Lemma stage_op_upsert_op query op : stage_op query op → upsert_op op.
Proof. destruct op; simpl; intuition. Qed.

Lemma stages_run_upsert_op events queries tr r :
  stages_run BATCH_SIZE utcnow events queries tr r → Forall upsert_op tr.
Proof.
  induction 1 as [|query queries tr e Hup|query queries tr tr' r Hup _ IH].
  - constructor.
  - eapply Forall_impl; [by eapply uploads_stage_op|apply stage_op_upsert_op].
  - apply Forall_app. split; [|done].
    eapply Forall_impl; [by eapply uploads_stage_op|apply stage_op_upsert_op].
Qed.

Lemma schema_upsert_op : Forall upsert_op schema_ops.
Proof. repeat constructor. Qed.

Lemma run_unfold events g tr r :
  stages_run BATCH_SIZE utcnow events
    [event_query; case_query; activity_query; resource_query; object_query] tr r →
  run BATCH_SIZE utcnow closed_driver_raises events g =
    let w := close_driver (extend (initial g) (schema_ops ++ tr)) in
    match r with
    | inl e => (w, inl e)
    | inr _ =>
        if closed_driver_raises then (w, inl DriverError)
        else (extend w [SessionOpen false; RunSequence; SessionClose], inr ())
    end.
Proof.
  intros Hrun%upsert_stages_acts_as. unfold run, main, with_driver.
  unfold mbind at 1, Py_bind. rewrite Hrun by done.
  destruct r as [e|[]]; [done|].
  unfold sequence_stage, with_session.
  cbn [close_driver driver_open negb andb].
  destruct closed_driver_raises; [done|].
  unfold effect, extend, record_op, on_store, close_driver, initial, replay.
  cbn [store driver_open trace]. rewrite <-!app_assoc. reflexivity.
Qed.

End script_facts.

(** ** Record construction *)

Lemma event_records_inr event new :
  event_records event = inr new →
  ∃ id ts act, ocel_id event = Some id ∧ ocel_timestamp event = Some ts ∧
    ocel_activity event = Some act ∧ new = [EventParams id ts act].
Proof.
  unfold event_records. destruct event as [[id|] [ts|] [act|] ??]; simpl; intros [=<-]; eauto 8.
Qed.

Lemma event_records_inl event e :
  event_records event = inl e → ∃ k, e = KeyError k.
Proof.
  unfold event_records. destruct event as [[id|] [ts|] [act|] ??]; simpl; intros [=<-]; eauto.
Qed.

(** ** What the event stage leaves alone *)

Lemma with_Event_nodes_id g : with_Event_nodes (λ l, l) g = g.
Proof. by destruct g. Qed.

Lemma tx_run_event_frame record g :
  ∃ f, tx_run event_query record g = with_Event_nodes f g.
Proof.
  destruct record; simpl; eauto; by exists (λ l, l); rewrite with_Event_nodes_id.
Qed.

Lemma replay_event_stage tr : ∀ g,
  Forall (stage_op event_query) tr → ∃ f, replay tr g = with_Event_nodes f g.
Proof.
  induction tr as [|op tr IH]; intros g Htr.
  { exists (λ l, l). by rewrite with_Event_nodes_id. }
  apply Forall_cons in Htr as [Hop Htr].
  assert (∃ f, replay_op g op = with_Event_nodes f g) as [f Hf].
  { destruct op as [| | |query batch| |]; simpl in *;
      try (exists (λ l, l); by rewrite with_Event_nodes_id); [|done..].
    destruct Hop as [-> _]. clear. revert g.
    induction batch as [|record batch IH]; intros g; cbn [foldl].
    { exists (λ l, l). by rewrite with_Event_nodes_id. }
    destruct (tx_run_event_frame record g) as [f ->].
    destruct (IH (with_Event_nodes f g)) as [f' ->]. by exists (f' ∘ f). }
  unfold replay in *. simpl. rewrite Hf.
  destruct (IH (with_Event_nodes f g) Htr) as [f' ->]. by exists (f' ∘ f).
Qed.

Lemma replay_schema_ops g : replay schema_ops g = g.
Proof. reflexivity. Qed.

Section event_stage_facts.

Variable BATCH_SIZE : Z.
Variable utcnow : nat → Z.

Lemma uploads_event_missing_timestamp i events batch tr r j event :
  uploads BATCH_SIZE utcnow event_query i events batch tr r →
  events !! j = Some event → ocel_timestamp event = None →
  ∃ k, r = inl (KeyError k).
Proof.
  intros Hup. revert j.
  induction Hup as [i batch|i ev events batch e Hrec
                   |i ev events batch new tr r Hrec Hle _ IH
                   |i ev events batch new tr r Hrec Hlt _ IH]; intros j Hj Hts.
  - done.
  - apply event_records_inl in Hrec as [k ->]. by exists k.
  - destruct j as [|j]; [|by eapply IH].
    apply event_records_inr in Hrec as (?&?&?&?&?&?). simplify_eq/=; congruence.
  - destruct j as [|j]; [|by eapply IH].
    apply event_records_inr in Hrec as (?&?&?&?&?&?). simplify_eq/=; congruence.
Qed.

End event_stage_facts.

(** ** Batch sizes *)

Lemma object_records_of_length event objs new :
  object_records_of event objs = inr new → length new = length objs.
Proof.
  revert new. induction objs as [|obj objs IH]; intros new; simpl.
  { by intros [=<-]. }
  destruct (getitem "ocel:id" (ocel_id event)); [done|]. simpl.
  destruct (getitem "id" (obj_id obj)); [done|]. simpl.
  destruct (getitem "type" (obj_type obj)); [done|]. simpl.
  destruct (object_records_of event objs) as [|rest]; [done|]. simpl.
  intros [=<-]. simpl. f_equal. by apply IH.
Qed.

Lemma stage_records_length utcnow query i event new k :
  length (default [] (ocel_objects event)) ≤ k →
  stage_records utcnow query i event = inr new →
  length new ≤ (if decide (query = object_query) then k else 1).
Proof.
  intros Hk. destruct query; simpl.
  - intros (?&?&?&?&?&?&->)%event_records_inr. done.
  - unfold case_records. destruct (ocel_attributes event) as [attrs|]; [|done]. simpl.
    destruct (attrs !! "case_id"); [|by intros [=<-]; simpl; lia].
    destruct (ocel_id event); [|done]. by intros [=<-].
  - unfold activity_records. destruct (ocel_id event); [|done].
    destruct (ocel_activity event); [|done]. by intros [=<-].
  - unfold resource_records. destruct (ocel_attributes event) as [attrs|]; [|done]. simpl.
    destruct (attrs !! "resource"); [|by intros [=<-]; simpl; lia].
    destruct (ocel_id event); [|done]. by intros [=<-].
  - unfold object_records. intros ->%object_records_of_length. done.
Qed.

Lemma uploads_batch_bound BATCH_SIZE utcnow query i events batch tr r k :
  (1 ≤ BATCH_SIZE)%Z →
  Forall (λ event, length (default [] (ocel_objects event)) ≤ k) events →
  uploads BATCH_SIZE utcnow query i events batch tr r →
  (Z.of_nat (length batch) < BATCH_SIZE)%Z →
  Forall (batch_bound BATCH_SIZE k) tr.
Proof.
  intros HB Hk Hup. revert Hk.
  assert (∀ b, b ≠ [] →
    (Z.of_nat (length b) ≤
       BATCH_SIZE - 1 + Z.of_nat (if decide (query = object_query) then k else 1))%Z →
    Forall (batch_bound BATCH_SIZE k) (flush_ops query b)) as Hflush.
  { intros [|p b] ??; [done|]. repeat constructor; done. }
  induction Hup as [i batch|i ev events batch e Hrec
                   |i ev events batch new tr r Hrec Hle _ IH
                   |i ev events batch new tr r Hrec Hlt _ IH]; intros Hk Hlen.
  - destruct batch as [|p batch]; [constructor|]. apply Hflush; [done|lia].
  - constructor.
  - apply Forall_cons in Hk as [Hev Hk].
    pose proof (stage_records_length _ _ _ _ _ _ Hev Hrec) as Hnew.
    apply Forall_app. split; [|apply IH; [done|simpl; lia]].
    apply Hflush.
    + intros Hnil. rewrite Hnil in Hle. simpl in Hle. lia.
    + rewrite length_app. lia.
  - apply Forall_cons in Hk as [Hev Hk]. apply IH; [done|lia].
Qed.

Lemma stages_run_batch_bound BATCH_SIZE utcnow events queries tr r k :
  (1 ≤ BATCH_SIZE)%Z →
  Forall (λ event, length (default [] (ocel_objects event)) ≤ k) events →
  stages_run BATCH_SIZE utcnow events queries tr r →
  Forall (batch_bound BATCH_SIZE k) tr.
Proof.
  intros HB Hk.
  induction 1 as [|query queries tr e Hup|query queries tr tr' r Hup _ IH].
  - constructor.
  - eapply uploads_batch_bound; [done..|simpl; lia].
  - apply Forall_app. split; [|done].
    eapply uploads_batch_bound; [done..|simpl; lia].
Qed.

(** ** Events a stage skips *)

Section skipped_events.

Variable BATCH_SIZE : Z.
Variable utcnow : nat → Z.
Variable closed_driver_raises : bool.





End skipped_events.

(** ** MERGE on lists *)

Section merge_facts.

Context `{EqDecision A}.

Lemma elem_of_merge (x y : A) l : y ∈ merge x l ↔ y = x ∨ y ∈ l.
Proof.
  unfold merge. case_decide.
  - naive_solver.
  - rewrite elem_of_app, list_elem_of_singleton. naive_solver.
Qed.

Lemma merge_present (x : A) l : x ∈ l → merge x l = l.
Proof. intros. unfold merge. by rewrite decide_True. Qed.

Lemma merge_absent (x : A) l : x ∉ l → merge x l = l ++ [x].
Proof. intros. unfold merge. by rewrite decide_False. Qed.

Lemma NoDup_merge (x : A) l : NoDup l → NoDup (merge x l).
Proof.
  intros Hl. unfold merge. case_decide; [done|].
  apply NoDup_app. split_and!; [done| |apply NoDup_singleton].
  intros y Hy ->%list_elem_of_singleton. done.
Qed.

End merge_facts.

Section merge_set_facts.

Context `{EqDecision K} {V : Type}.
Implicit Types (k : K) (v : V) (l us : list (K * V)).

Lemma merge_set_keys k v l : (merge_set k v l).*1 = merge k (l.*1).
Proof.
  unfold merge_set, merge. case_decide; [|by rewrite fmap_app].
  rewrite <-list_fmap_compose. apply list_fmap_ext. intros _ kv _. simpl.
  unfold set_props. by case_decide.
Qed.

Lemma elem_of_merge_set k v l k' v' :
  (k', v') ∈ merge_set k v l ↔ k' = k ∧ v' = v ∨ k' ≠ k ∧ (k', v') ∈ l.
Proof.
  unfold merge_set. case_decide as Hk.
  - rewrite list_elem_of_fmap. split.
    + intros ([k0 v0] & Heq & Hin). unfold set_props in Heq. simpl in Heq.
      case_decide; simplify_eq; auto.
    + intros [[-> ->]|[Hne Hin]].
      * apply list_elem_of_fmap in Hk as ([k0 v0] & -> & Hin).
        exists (k0, v0). split; [|done]. unfold set_props. by rewrite decide_True.
      * exists (k', v'). split; [|done]. unfold set_props. by rewrite decide_False.
  - rewrite elem_of_app, list_elem_of_singleton. split.
    + intros [Hin|[= -> ->]]; [|by left]. right. split; [|done].
      intros ->. apply Hk. apply list_elem_of_fmap. by exists (k, v').
    + intros [[-> ->]|[_ Hin]]; auto.
Qed.

(** The updates of a statement, applied one row after the other. *)
Lemma elem_of_foldl_merge_set us : ∀ l k v,
  (k, v) ∈ foldl (λ l u, merge_set u.1 u.2 l) l us →
  (k, v) ∈ us ∨ (k, v) ∈ l ∧ k ∉ us.*1.
Proof.
  induction us as [|[k0 v0] us IH]; intros l k v; simpl.
  { intros Hin. right. split; [done|]. apply not_elem_of_nil. }
  intros [Hin|[Hin Hk]]%IH.
  { left. by right. }
  apply elem_of_merge_set in Hin as [[-> ->]|[Hne Hin]].
  - left. by left.
  - right. split; [done|]. rewrite not_elem_of_cons. done.
Qed.

Lemma elem_of_foldl_merge_set_2 us : ∀ l k v,
  (∀ u u', u ∈ us → u' ∈ us → u.1 = u'.1 → u.2 = u'.2) →
  (k, v) ∈ us ∨ (k, v) ∈ l ∧ k ∉ us.*1 →
  (k, v) ∈ foldl (λ l u, merge_set u.1 u.2 l) l us.
Proof.
  induction us as [|[k0 v0] us IH]; intros l k v Hfun; simpl.
  { intros [[]%elem_of_nil|[Hin _]]. done. }
  assert (∀ u u', u ∈ us → u' ∈ us → u.1 = u'.1 → u.2 = u'.2) as Hfun'.
  { intros u u' Hu Hu'. apply Hfun; by right. }
  intros Hin. apply IH; [done|].
  destruct (decide (k ∈ us.*1)) as [Hk|Hk].
  - left. apply list_elem_of_fmap in Hk as ([k1 v1] & -> & Hk1). simpl in *.
    destruct Hin as [Hin|[_ Hin]].
    + assert (v = v1) as -> by (apply (Hfun (k1, v) (k1, v1)); done || by right).
      done.
    + destruct Hin. right. apply list_elem_of_fmap. by exists (k1, v1).
  - right. split; [|done]. apply elem_of_merge_set.
    destruct Hin as [[[= -> ->]|Hin]%elem_of_cons|[Hin Hne]].
    + by left.
    + destruct Hk. apply list_elem_of_fmap. by exists (k, v).
    + rewrite not_elem_of_cons in Hne. right. naive_solver.
Qed.

End merge_set_facts.

(** ** ORDER BY *)

#[global] Instance row_le_total : Total row_le.
Proof.
  intros r1 r2. unfold row_le.
  destruct (decide (r1.2 = r2.2)) as [Heq|Hne].
  - destruct (Z.le_ge_cases (timestamp r1.1) (timestamp r2.1)); [left|right]; right; split;
      (done || lia).
  - destruct (total String.le r1.2 r2.2); [left|right]; left; split; (done || congruence).
Qed.

#[global] Instance row_le_trans : Transitive row_le.
Proof.
  intros r1 r2 r3. unfold row_le.
  intros [[Hne1 Hle1]|[Heq1 Hts1]] [[Hne2 Hle2]|[Heq2 Hts2]].
  - left. split; [|by etrans].
    intros Heq. rewrite Heq in Hle1. apply Hne2. by apply (anti_symm String.le).
  - left. by rewrite <-Heq2.
  - left. by rewrite Heq1.
  - right. split; [congruence|lia].
Qed.

Lemma order_by_sorted rows : StronglySorted row_le (order_by rows).
Proof. apply StronglySorted_merge_sort; apply _. Qed.

Lemma order_by_Permutation rows : order_by rows ≡ₚ rows.
Proof. apply merge_sort_Permutation. Qed.

Lemma case_events_sorted c rows :
  StronglySorted row_le rows →
  StronglySorted (λ e1 e2, (timestamp e1 ≤ timestamp e2)%Z) (filter (λ r, r.2 = c) rows).*1.
Proof.
  induction 1 as [|r rows _ IH Hr]; [constructor|].
  rewrite filter_cons. case_decide as Hc; [|done].
  rewrite fmap_cons. constructor; [done|].
  apply Forall_fmap, Forall_forall. intros r' [Hc' Hin]%list_elem_of_filter.
  rewrite Forall_forall in Hr. destruct (Hr r' Hin) as [[Hne _]|[_ Hle]]; [|done].
  destruct Hne. congruence.
Qed.

(** ** The clauses of the sequence statement *)

Lemma elem_of_match_edge g edge e c :
  (e, c) ∈ match_edge g edge ↔
  edge = (c, node_id e) ∧ e ∈ Event_nodes g ∧ c ∈ Case_nodes g.
Proof.
  unfold match_edge. rewrite list_elem_of_bind. destruct edge as [c' id]. simpl. split.
  - intros (e' & Hin & [Hid He']%list_elem_of_filter).
    case_decide; [|by apply elem_of_nil in Hin].
    apply list_elem_of_singleton in Hin. simplify_eq. done.
  - intros ([= -> ->] & He & Hc). exists e. split; [|by apply list_elem_of_filter].
    rewrite decide_True by done. by apply list_elem_of_singleton.
Qed.

Lemma elem_of_match_rows g e c :
  (e, c) ∈ match_rows g ↔
  (c, node_id e) ∈ CONTAINS_EVENT g ∧ e ∈ Event_nodes g ∧ c ∈ Case_nodes g.
Proof.
  unfold match_rows. rewrite list_elem_of_bind.
  setoid_rewrite elem_of_match_edge. naive_solver.
Qed.

Lemma NoDup_match_rows g :
  event_id_unique g → NoDup (CONTAINS_EVENT g) → NoDup (match_rows g).
Proof.
  intros Hg Hedges. apply NoDup_bind; [| |done].
  - intros edge1 edge2 [e c] _ _ [-> _]%elem_of_match_edge [-> _]%elem_of_match_edge. done.
  - intros edge _. unfold match_edge. apply NoDup_bind.
    + intros e1 e2 [e c] _ _ H1 H2. case_decide; [|by apply elem_of_nil in H1].
      apply list_elem_of_singleton in H1, H2. congruence.
    + intros e _. case_decide; [apply NoDup_singleton|apply NoDup_nil_2].
    + apply NoDup_filter. by eapply NoDup_fmap_1.
Qed.

Lemma elem_of_collect rows c events :
  (c, events) ∈ collect rows ↔
  c ∈ rows.*2 ∧ events = (filter (λ r, r.2 = c) rows).*1.
Proof.
  unfold collect. rewrite list_elem_of_fmap. setoid_rewrite elem_of_remove_dups.
  naive_solver.
Qed.

Lemma elem_of_unwind events e1 e2 :
  (e1, e2) ∈ unwind events ↔ ∃ i, events !! i = Some e1 ∧ events !! S i = Some e2.
Proof.
  unfold unwind. rewrite list_elem_of_bind. split.
  - intros (i & Hin & _). exists i.
    destruct (events !! i), (events !! S i);
      try (by apply elem_of_nil in Hin).
    by apply list_elem_of_singleton in Hin as [= -> ->].
  - intros (i & H1 & H2). exists i. rewrite H1, H2. split; [by apply list_elem_of_singleton|].
    apply elem_of_seq. apply lookup_lt_Some in H2. lia.
Qed.

Lemma elem_of_case_pairs events e1 e2 :
  (e1, e2) ∈ case_pairs events ↔
  ((timestamp e1 < timestamp e2)%Z ∧ node_id e1 ≠ node_id e2) ∧
  ∃ i, events !! i = Some e1 ∧ events !! S i = Some e2.
Proof. unfold case_pairs. by rewrite list_elem_of_filter, elem_of_unwind. Qed.

Lemma elem_of_sequence_rows rows e1 e2 c :
  (e1, e2, c) ∈ sequence_rows rows ↔
  c ∈ rows.*2 ∧ (e1, e2) ∈ case_pairs (filter (λ r, r.2 = c) (order_by rows)).*1.
Proof.
  unfold sequence_rows. rewrite list_elem_of_bind.
  assert (∀ c', c' ∈ (order_by rows).*2 ↔ c' ∈ rows.*2) as Hperm.
  { intros c'. by rewrite order_by_Permutation. }
  split.
  - intros ([c' events] & Hin & [Hc ->]%elem_of_collect).
    apply list_elem_of_fmap in Hin as ([e1' e2'] & [= -> -> ->] & Hin).
    by rewrite <-Hperm.
  - intros [Hc Hin]. eexists (c, _). split; [|apply elem_of_collect; by rewrite Hperm].
    apply list_elem_of_fmap. by exists (e1, e2).
Qed.

Lemma sequence_query_next_event g :
  sequence_query g =
  with_NEXT_EVENT
    (λ l, foldl (λ l u, merge_set u.1 u.2 l) l (edge_of <$> sequence_rows (match_rows g))) g.
Proof.
  unfold sequence_query. generalize (sequence_rows (match_rows g)). intros rows.
  revert g. induction rows as [|r rows IH]; intros g; [by destruct g|].
  simpl. by rewrite IH.
Qed.

(** ** Rows, events and the store *)

Lemma NoDup_fst_functional {K V} (l : list (K * V)) kv kv' :
  NoDup l.*1 → kv ∈ l → kv' ∈ l → kv.1 = kv'.1 → kv = kv'.
Proof.
  induction l as [|x l IH]; simpl; intros Hnd Hin Hin' Heq.
  { by apply elem_of_nil in Hin. }
  apply NoDup_cons in Hnd as [Hx Hnd].
  apply elem_of_cons in Hin as [->|Hin]; apply elem_of_cons in Hin' as [->|Hin']; auto.
  - destruct Hx. rewrite Heq. by apply list_elem_of_fmap_2.
  - destruct Hx. rewrite <-Heq. by apply list_elem_of_fmap_2.
Qed.

Lemma event_id_unique_eq g e e' :
  event_id_unique g → e ∈ Event_nodes g → e' ∈ Event_nodes g →
  node_id e = node_id e' → e = e'.
Proof. intros. by eapply NoDup_fst_functional. Qed.

Lemma case_event_in_store g c e :
  e ∈ (filter (λ r, r.2 = c) (order_by (match_rows g))).*1 →
  (c, node_id e) ∈ CONTAINS_EVENT g ∧ e ∈ Event_nodes g ∧ c ∈ Case_nodes g.
Proof.
  intros ([e' c'] & -> & [Hc Hin]%list_elem_of_filter)%list_elem_of_fmap.
  rewrite order_by_Permutation in Hin. simpl in *. subst c'.
  by apply elem_of_match_rows.
Qed.

Lemma sequence_row_in_store g e1 e2 c :
  (e1, e2, c) ∈ sequence_rows (match_rows g) →
  ((timestamp e1 < timestamp e2)%Z ∧ node_id e1 ≠ node_id e2) ∧
  ((c, node_id e1) ∈ CONTAINS_EVENT g ∧ e1 ∈ Event_nodes g ∧ c ∈ Case_nodes g) ∧
  ((c, node_id e2) ∈ CONTAINS_EVENT g ∧ e2 ∈ Event_nodes g ∧ c ∈ Case_nodes g).
Proof.
  intros [_ [Hwhere (i & H1 & H2)]%elem_of_case_pairs]%elem_of_sequence_rows.
  split; [done|].
  split; apply case_event_in_store; by eapply list_elem_of_lookup_2.
Qed.

Lemma edges_functional g u u' :
  event_id_unique g →
  u ∈ edge_of <$> sequence_rows (match_rows g) →
  u' ∈ edge_of <$> sequence_rows (match_rows g) →
  u.1 = u'.1 → u.2 = u'.2.
Proof.
  intros Hg ([[a1 a2] c] & -> & Ha)%list_elem_of_fmap
            ([[b1 b2] c'] & -> & Hb)%list_elem_of_fmap.
  apply sequence_row_in_store in Ha as (_ & (_ & Ha1 & _) & (_ & Ha2 & _)).
  apply sequence_row_in_store in Hb as (_ & (_ & Hb1 & _) & (_ & Hb2 & _)).
  unfold edge_of. simpl. intros [= H1 H2].
  by rewrite (event_id_unique_eq g a1 b1), (event_id_unique_eq g a2 b2).
Qed.

Lemma NEXT_EVENT_sequence_query g k d :
  (k, d) ∈ NEXT_EVENT (sequence_query g) →
  (∃ e1 e2 c, (e1, e2, c) ∈ sequence_rows (match_rows g) ∧ (k, d) = edge_of (e1, e2, c))
  ∨ (k, d) ∈ NEXT_EVENT g ∧ k ∉ (edge_of <$> sequence_rows (match_rows g)).*1.
Proof.
  rewrite sequence_query_next_event. simpl.
  intros [Hin|Hin]%elem_of_foldl_merge_set; [left|by right].
  apply list_elem_of_fmap in Hin as ([[e1 e2] c] & Heq & Hin). eauto.
Qed.

Lemma NEXT_EVENT_sequence_query_2 g e1 e2 c :
  event_id_unique g →
  (e1, e2, c) ∈ sequence_rows (match_rows g) →
  edge_of (e1, e2, c) ∈ NEXT_EVENT (sequence_query g).
Proof.
  intros Hg Hin. rewrite sequence_query_next_event. simpl.
  destruct (edge_of (e1, e2, c)) as [k d] eqn:Hedge.
  apply elem_of_foldl_merge_set_2; [intros ??; by apply edges_functional|].
  left. rewrite <-Hedge. by apply list_elem_of_fmap_2.
Qed.

(** ** Chains *)

Lemma case_events_NoDup g c :
  event_id_unique g → NoDup (CONTAINS_EVENT g) →
  NoDup (node_id <$> (filter (λ r, r.2 = c) (order_by (match_rows g))).*1).
Proof.
  intros Hg Hedges. rewrite <-list_fmap_compose.
  apply NoDup_fmap_2_strong.
  - intros [e1 c1] [e2 c2] [Hc1 Hin1]%list_elem_of_filter [Hc2 Hin2]%list_elem_of_filter Hid.
    simpl in *. subst c1 c2. f_equal.
    rewrite order_by_Permutation in Hin1, Hin2.
    apply elem_of_match_rows in Hin1 as (_ & ? & _), Hin2 as (_ & ? & _).
    by apply (event_id_unique_eq g).
  - apply NoDup_filter. rewrite order_by_Permutation. by apply NoDup_match_rows.
Qed.

Lemma case_pairs_chain events e1 e2 e1' e2' :
  NoDup (node_id <$> events) →
  (e1, e2) ∈ case_pairs events → (e1', e2') ∈ case_pairs events →
  (node_id e1 = node_id e1' → e2 = e2') ∧ (node_id e2 = node_id e2' → e1 = e1').
Proof.
  intros Hnd [_ (i & H1 & H2)]%elem_of_case_pairs [_ (j & H1' & H2')]%elem_of_case_pairs.
  split; intros Hid.
  - assert (i = j) as ->; [|congruence].
    apply (NoDup_lookup _ _ _ (node_id e1) Hnd); rewrite list_lookup_fmap.
    + by rewrite H1.
    + by rewrite H1', Hid.
  - assert (S i = S j) as [= ->]; [|congruence].
    apply (NoDup_lookup _ _ _ (node_id e2) Hnd); rewrite list_lookup_fmap.
    + by rewrite H2.
    + by rewrite H2', Hid.
Qed.

(** ** Ties *)

#[global] Instance row_le_spec_total : Total row_le_spec.
Proof.
  intros r1 r2. unfold row_le_spec.
  destruct (decide (r1.2 = r2.2)) as [Heq|Hne].
  - destruct (Z.lt_trichotomy (timestamp r1.1) (timestamp r2.1)) as [?|[Hts|?]].
    + left. right. auto.
    + destruct (total String.le (node_id r1.1) (node_id r2.1)); [left|right]; right; auto.
    + right. right. auto.
  - destruct (total String.le r1.2 r2.2); [left|right]; left; split; (done || congruence).
Qed.

#[global] Instance row_le_spec_trans : Transitive row_le_spec.
Proof.
  intros r1 r2 r3. unfold row_le_spec.
  intros [[Hne1 Hle1]|[Heq1 Hts1]] [[Hne2 Hle2]|[Heq2 Hts2]].
  - left. split; [|by etrans].
    intros Heq. rewrite Heq in Hle1. apply Hne2. by apply (anti_symm String.le).
  - left. by rewrite <-Heq2.
  - left. by rewrite Heq1.
  - right. split; [congruence|].
    destruct Hts1 as [?|[? ?]], Hts2 as [?|[? ?]]; try (left; lia).
    right. split; [lia|by etrans].
Qed.

Lemma row_le_spec_row_le r1 r2 : row_le_spec r1 r2 → row_le r1 r2.
Proof. unfold row_le_spec, row_le. intros [?|[? [?|[? ?]]]]; [by left|right..]; split; (done || lia). Qed.

Lemma order_by_spec_sorted rows : StronglySorted row_le (order_by_spec rows).
Proof.
  assert (StronglySorted row_le_spec (order_by_spec rows)) as Hs.
  { apply StronglySorted_merge_sort; apply _. }
  induction Hs as [|r l _ IH Hr]; constructor; [done|].
  eapply Forall_impl; [done|]. apply row_le_spec_row_le.
Qed.

Lemma row_le_antisym_without_ties (rows : list Row) r1 r2 :
  (∀ r1 r2, r1 ∈ rows → r2 ∈ rows →
     r1.2 = r2.2 → timestamp r1.1 = timestamp r2.1 → r1 = r2) →
  r1 ∈ rows → r2 ∈ rows → row_le r1 r2 → row_le r2 r1 → r1 = r2.
Proof.
  intros Hties H1 H2. unfold row_le.
  intros [[Hne1 Hle1]|[Heq1 Hts1]] [[Hne2 Hle2]|[Heq2 Hts2]]; try congruence.
  - destruct Hne1. by apply (anti_symm String.le).
  - apply Hties; (done || lia).
Qed.

Lemma sorted_rows_unique (rows l1 l2 : list Row) :
  (∀ r1 r2, r1 ∈ rows → r2 ∈ rows →
     r1.2 = r2.2 → timestamp r1.1 = timestamp r2.1 → r1 = r2) →
  l1 ≡ₚ rows → l2 ≡ₚ rows →
  StronglySorted row_le l1 → StronglySorted row_le l2 → l1 = l2.
Proof.
  intros Hties Hl1 Hl2 Hs1 Hs2.
  apply (StronglySorted_unique_strong row_le); [|done..|by rewrite Hl1, Hl2].
  intros r1 r2 Hr1 Hr2. rewrite Hl1 in Hr1. rewrite Hl2 in Hr2.
  by apply (row_le_antisym_without_ties rows).
Qed.

(** ** Repeated MERGE ... SET *)

Section merge_set_twice.

Context `{EqDecision K} {V : Type}.
Implicit Types (k : K) (v : V) (kv u : K * V) (l us : list (K * V)).

Lemma set_props_key k v kv : (set_props k v kv).1 = kv.1.
Proof. unfold set_props. by case_decide. Qed.

Lemma set_all_key us : ∀ kv, (set_all us kv).1 = kv.1.
Proof.
  induction us as [|u us IH]; intros kv; [done|].
  unfold set_all in *. simpl. by rewrite IH, set_props_key.
Qed.

Lemma merge_sets_keys us : ∀ l k, k ∈ (merge_sets us l).*1 ↔ k ∈ us.*1 ∨ k ∈ l.*1.
Proof.
  induction us as [|u us IH]; intros l k; unfold merge_sets in *; simpl.
  { rewrite elem_of_nil. naive_solver. }
  rewrite IH, merge_set_keys, elem_of_merge, elem_of_cons. naive_solver.
Qed.

Lemma merge_sets_present us : ∀ l,
  (∀ k, k ∈ us.*1 → k ∈ l.*1) → merge_sets us l = set_all us <$> l.
Proof.
  induction us as [|u us IH]; intros l Hkeys; unfold merge_sets, set_all in *; simpl.
  { by rewrite list_fmap_id. }
  assert (merge_set u.1 u.2 l = set_props u.1 u.2 <$> l) as ->.
  { unfold merge_set. rewrite decide_True; [done|]. apply Hkeys. by left. }
  rewrite IH.
  - by rewrite <-list_fmap_compose.
  - intros k Hk. rewrite <-list_fmap_compose.
    erewrite list_fmap_ext; [apply Hkeys; by right|].
    intros ???. simpl. by rewrite set_props_key.
Qed.

Lemma merge_sets_fixed us : ∀ l kv, kv ∈ merge_sets us l → set_all us kv = kv.
Proof.
  induction us as [|u us IH] using rev_ind; intros l kv; [done|].
  unfold merge_sets, set_all in *. rewrite !foldl_app. simpl.
  destruct kv as [k v]. intros [[-> ->]|[Hne Hin]]%elem_of_merge_set.
  - unfold set_props at 1. rewrite decide_True; [by destruct u|].
    apply (set_all_key us (u.1, u.2)).
  - rewrite (IH l (k, v) Hin). unfold set_props. by rewrite decide_False.
Qed.

(** Running the same updates a second time changes nothing. *)
Lemma merge_sets_twice us l : merge_sets us (merge_sets us l) = merge_sets us l.
Proof.
  rewrite merge_sets_present.
  - rewrite <-(list_fmap_id (merge_sets us l)) at 2.
    apply list_fmap_ext. intros _ kv Hin%list_elem_of_lookup_2.
    by eapply merge_sets_fixed.
  - intros k Hk. apply merge_sets_keys. by left.
Qed.

(** Updates with distinct keys that the list does not hold are appended. *)
Lemma merge_sets_fresh us : ∀ l,
  NoDup us.*1 → (∀ k, k ∈ us.*1 → k ∉ l.*1) → merge_sets us l = l ++ us.
Proof.
  induction us as [|u us IH]; intros l Hnd Hfresh; unfold merge_sets in *; simpl.
  { by rewrite app_nil_r. }
  apply NoDup_cons in Hnd as [Hu Hnd].
  assert (merge_set u.1 u.2 l = l ++ [u]) as ->.
  { unfold merge_set. rewrite decide_False; [by destruct u|]. apply Hfresh. by left. }
  rewrite IH; [by rewrite <-app_assoc|done|].
  intros k Hk. rewrite fmap_app, elem_of_app. intros [Hin|Hin%list_elem_of_singleton].
  - by apply (Hfresh k); [right|].
  - simpl in Hin. by subst.
Qed.

End merge_set_twice.

Lemma foldl_merge_fresh `{EqDecision A} (xs : list A) : ∀ l,
  NoDup xs → (∀ x, x ∈ xs → x ∉ l) → foldl (λ l x, merge x l) l xs = l ++ xs.
Proof.
  induction xs as [|x xs IH]; intros l Hnd Hfresh; simpl.
  { by rewrite app_nil_r. }
  apply NoDup_cons in Hnd as [Hx Hnd].
  rewrite merge_absent by (apply Hfresh; by left).
  rewrite IH; [by rewrite <-app_assoc|done|].
  intros y Hy. rewrite elem_of_app. intros [Hin|Heq%list_elem_of_singleton].
  - by apply (Hfresh y); [right|].
  - by subst.
Qed.

(** ** The store as the replay of the write transactions *)

Lemma apply_writes_app ops1 ops2 g :
  apply_writes (ops1 ++ ops2) g = apply_writes ops2 (apply_writes ops1 g).
Proof. apply foldl_app. Qed.

Lemma apply_writes_batch query batch g :
  apply_writes (pair query <$> batch) g = foldl (λ g record, tx_run query record g) g batch.
Proof. revert g. induction batch as [|record batch IH]; intros g; [done|]. apply IH. Qed.

Lemma replay_writes tr : ∀ g,
  Forall upsert_op tr → replay tr g = apply_writes (writes tr) g.
Proof.
  induction tr as [|op tr IH]; intros g Htr; [done|].
  apply Forall_cons in Htr as [Hop Htr].
  unfold replay, writes in *. cbn [foldl mbind list_bind].
  rewrite apply_writes_app, <-IH by done.
  destruct op; try done. simpl. by rewrite apply_writes_batch.
Qed.

Lemma writes_app tr1 tr2 : writes (tr1 ++ tr2) = writes tr1 ++ writes tr2.
Proof. apply bind_app. Qed.

Lemma writes_stage_op query tr :
  Forall (stage_op query) tr → Forall (λ o, o.1 = query) (writes tr).
Proof.
  induction 1 as [|op tr Hop _ IH]; [constructor|].
  unfold writes in *. cbn [mbind list_bind]. apply Forall_app. split; [|done].
  destruct op; try constructor. destruct Hop as [-> _].
  apply Forall_fmap, Forall_true. done.
Qed.

(** ** Growth of the store *)

Lemma grows_refl g : grows g g.
Proof. unfold grows. split_and!; done. Qed.

Lemma grows_trans g1 g2 g3 : grows g1 g2 → grows g2 g3 → grows g1 g3.
Proof.
  unfold grows. intros (?&?&?&?&?&?&?&?&?) (?&?&?&?&?&?&?&?&?).
  split_and!; [congruence|by etrans..].
Qed.

Lemma merge_subseteq `{EqDecision A} (x : A) l : l ⊆ merge x l.
Proof. intros y Hy. apply elem_of_merge. by right. Qed.

Lemma tx_run_grows query record g :
  query ≠ event_query → grows g (tx_run query record g).
Proof.
  intros Hq. destruct query, record; try done; try apply grows_refl;
    simpl; destruct (match_event _ g); try apply grows_refl;
    unfold grows; simpl; split_and!; (done || apply merge_subseteq).
Qed.

Lemma apply_writes_grows ops : ∀ g,
  Forall (λ o, o.1 ≠ event_query) ops → grows g (apply_writes ops g).
Proof.
  induction ops as [|o ops IH]; intros g Hops; [apply grows_refl|].
  apply Forall_cons in Hops as [Ho Hops]. unfold apply_writes in *. simpl.
  eapply grows_trans; [by apply tx_run_grows|by apply IH].
Qed.

Lemma sequence_query_grows g : grows g (sequence_query g).
Proof. rewrite sequence_query_next_event. unfold grows. simpl. split_and!; done. Qed.

Lemma settled_grows g g' o : grows g g' → settled g o → settled g' o.
Proof.
  intros (Hev&Hc&Ha&Hr&Ho&Hce&Hot&Hpb&Hi).
  assert (∀ id, match_event id g' = match_event id g) as Hm.
  { intros id. unfold match_event. by rewrite Hev. }
  destruct o as [[] []]; simpl; try done; rewrite Hm; intros Hs Hid;
    destruct (Hs Hid); split; auto.
Qed.

Lemma settled_tx_run o g : settled (tx_run o.1 o.2 g) o.
Proof.
  destruct o as [[] []]; simpl; try done;
    destruct (match_event _ g) eqn:Hm; simpl; try (by rewrite Hm);
    intros _; split; apply elem_of_merge; by left.
Qed.

Lemma tx_run_settled o g :
  o.1 ≠ event_query → settled g o → tx_run o.1 o.2 g = g.
Proof.
  destruct o as [[] []]; simpl; try done;
    destruct (match_event _ g) eqn:Hm; try done;
    intros _ Hs; destruct (Hs eq_refl) as [H1 H2];
    destruct g; unfold with_Case, with_Activity, with_Resource, with_Object;
    simpl in *; f_equal; by apply merge_present.
Qed.

Lemma apply_writes_settles ops : ∀ g settled_before,
  Forall (λ o, o.1 ≠ event_query) ops →
  Forall (settled g) settled_before →
  Forall (settled (apply_writes ops g)) (settled_before ++ ops).
Proof.
  induction ops as [|o ops IH]; intros g before Hops Hbefore.
  { by rewrite app_nil_r. }
  apply Forall_cons in Hops as [Ho Hops].
  replace (before ++ o :: ops) with ((before ++ [o]) ++ ops) by (by rewrite <-app_assoc).
  unfold apply_writes in *. simpl. apply IH; [done|].
  apply Forall_app. split.
  - eapply Forall_impl; [done|]. intros o'. apply settled_grows. by apply tx_run_grows.
  - apply Forall_singleton, settled_tx_run.
Qed.

Lemma apply_writes_settled ops g :
  Forall (λ o, o.1 ≠ event_query) ops → Forall (settled g) ops →
  apply_writes ops g = g.
Proof.
  induction ops as [|o ops IH]; intros Hops Hs; [done|].
  apply Forall_cons in Hops as [Ho Hops]. apply Forall_cons in Hs as [Hso Hs].
  unfold apply_writes in *. simpl. rewrite tx_run_settled by done. by apply IH.
Qed.

(** ** The Event stage as a list of updates *)

Lemma with_Event_nodes_fixed f g :
  f (Event_nodes g) = Event_nodes g → with_Event_nodes f g = g.
Proof. destruct g. unfold with_Event_nodes. simpl. by intros ->. Qed.

Lemma apply_writes_events ops : ∀ g,
  Forall (λ o, o.1 = event_query) ops →
  apply_writes ops g = with_Event_nodes (merge_sets (omap event_update ops)) g.
Proof.
  induction ops as [|[query record] ops IH]; intros g Hops.
  { by rewrite with_Event_nodes_fixed. }
  apply Forall_cons in Hops as [Ho Hops]. simpl in Ho. subst query.
  unfold apply_writes in *. cbn [foldl]. rewrite IH by done.
  destruct record; simpl; try done.
Qed.

(** ** The sequence statement for any order of tied rows *)

Lemma sequence_rows_order_by rows :
  sequence_rows rows = rows_after_order_by (order_by rows).
Proof. done. Qed.

Lemma order_by_ordered rows : ordered rows (order_by rows).
Proof. split; [apply order_by_Permutation|apply order_by_sorted]. Qed.

Lemma order_by_spec_ordered rows : ordered rows (order_by_spec rows).
Proof. split; [apply merge_sort_Permutation|apply order_by_spec_sorted]. Qed.

(** The result computed by [sequence_query] is one the statement may leave. *)
Lemma sequence_query_result g : sequence_result g (sequence_query g).
Proof. exists (order_by (match_rows g)). split; [apply order_by_ordered|done]. Qed.

Lemma ordered_unique rows sorted sorted' :
  no_ties rows → ordered rows sorted → ordered rows sorted' → sorted = sorted'.
Proof. intros Hties [? ?] [? ?]. by apply (sorted_rows_unique rows). Qed.

Lemma sequence_query_with_next_event sorted g :
  sequence_query_with sorted g
    = with_NEXT_EVENT (merge_sets (edge_of <$> rows_after_order_by sorted)) g.
Proof.
  unfold sequence_query_with, merge_sets.
  generalize (rows_after_order_by sorted). intros rows.
  revert g. induction rows as [|r rows IH]; intros g; [by destruct g|].
  simpl. by rewrite IH.
Qed.

Lemma sequence_query_with_grows sorted g : grows g (sequence_query_with sorted g).
Proof. rewrite sequence_query_with_next_event. unfold grows. simpl. split_and!; done. Qed.

Lemma match_rows_sequence_query_with sorted g :
  match_rows (sequence_query_with sorted g) = match_rows g.
Proof. by rewrite sequence_query_with_next_event. Qed.

(** The statement run again with the rows in the same order changes nothing. *)
Lemma sequence_query_with_twice sorted g :
  sequence_query_with sorted (sequence_query_with sorted g) = sequence_query_with sorted g.
Proof.
  rewrite (sequence_query_with_next_event sorted (sequence_query_with sorted g)).
  rewrite (sequence_query_with_next_event sorted g).
  unfold with_NEXT_EVENT. simpl. f_equal. apply merge_sets_twice.
Qed.

(** ** The shape of a run of the upsert stages *)

Section stage_structure.

Variable BATCH_SIZE : Z.

Lemma stages_run_stage_op utcnow events queries tr r :
  stages_run BATCH_SIZE utcnow events queries tr r →
  Forall (λ op, ∃ query, query ∈ queries ∧ stage_op query op) tr.
Proof.
  induction 1 as [|query queries tr e Hup|query queries tr tr' r Hup _ IH].
  - constructor.
  - eapply Forall_impl; [by eapply uploads_stage_op|].
    intros op Hop. exists query. split; [by left|done].
  - apply Forall_app. split.
    + eapply Forall_impl; [by eapply uploads_stage_op|].
      intros op Hop. exists query. split; [by left|done].
    + eapply Forall_impl; [done|].
      intros op (query' & Hin & Hop). exists query'. split; [by right|done].
Qed.

Lemma stages_run_split utcnow events query queries tr r :
  stages_run BATCH_SIZE utcnow events (query :: queries) tr r →
  ∃ tr1 tr2, tr = tr1 ++ tr2 ∧ Forall (stage_op query) tr1 ∧
    Forall (λ op, ∃ query', query' ∈ queries ∧ stage_op query' op) tr2.
Proof.
  inversion 1 as [|?? tr1 e Hup|?? tr1 tr2 ? Hup Hrest]; subst.
  - exists tr, []. rewrite app_nil_r. split_and!; [done| |constructor].
    by eapply uploads_stage_op.
  - exists tr1, tr2. split_and!; [done|by eapply uploads_stage_op|].
    by eapply stages_run_stage_op.
Qed.

Lemma writes_later_stages (queries : list Query) tr :
  event_query ∉ queries →
  Forall (λ op, ∃ query, query ∈ queries ∧ stage_op query op) tr →
  Forall (λ o, o.1 ≠ event_query) (writes tr).
Proof.
  intros Hq. induction 1 as [|op tr (query & Hin & Hop) _ IH]; [constructor|].
  unfold writes in *. cbn [mbind list_bind]. apply Forall_app. split; [|done].
  destruct op; try constructor. destruct Hop as [-> _].
  apply Forall_fmap, Forall_true. simpl. intros _ ->. done.
Qed.

(** The upsert stages do nothing to a store that has grown out of the one
    they produced. *)
Lemma upsert_stages_absorbed utcnow events tr r g h :
  stages_run BATCH_SIZE utcnow events
    [event_query; case_query; activity_query; resource_query; object_query] tr r →
  grows (replay tr g) h → replay tr h = h.
Proof.
  intros Hrun Hgrows.
  pose proof (stages_run_upsert_op _ _ _ _ _ _ Hrun) as Hops.
  rewrite replay_writes in Hgrows |- * by done.
  apply stages_run_split in Hrun as (tr1 & tr2 & -> & H1%writes_stage_op & H2).
  apply writes_later_stages in H2; [|set_solver].
  rewrite writes_app, apply_writes_app in *.
  set (a := apply_writes (writes tr1) g) in *.
  set (b := apply_writes (writes tr2) a) in *.
  assert (grows a h) as Hah.
  { eapply grows_trans; [|done]. by apply apply_writes_grows. }
  assert (apply_writes (writes tr1) h = h) as ->.
  { rewrite apply_writes_events by done. apply with_Event_nodes_fixed.
    destruct Hah as [-> _]. unfold a. rewrite apply_writes_events by done.
    simpl. apply merge_sets_twice. }
  apply apply_writes_settled; [done|].
  eapply Forall_impl; [apply (apply_writes_settles (writes tr2) a []); [done|constructor]|].
  intros o. by apply settled_grows.
Qed.

(** The clock is read for events without timestamp only, and the Event stage
    lets none of them through. *)
Lemma stage_records_clock utcnow utcnow' query i event :
  query ≠ activity_query ∨ is_Some (ocel_timestamp event) →
  stage_records utcnow query i event = stage_records utcnow' query i event.
Proof.
  intros [Hq|[ts Hts]]; destruct query; try done.
  simpl. unfold activity_records. by rewrite Hts.
Qed.

Lemma uploads_clock utcnow utcnow' query i events batch tr r :
  query ≠ activity_query ∨ Forall (λ event, is_Some (ocel_timestamp event)) events →
  uploads BATCH_SIZE utcnow query i events batch tr r →
  uploads BATCH_SIZE utcnow' query i events batch tr r.
Proof.
  intros Hq Hup.
  induction Hup as [i batch|i ev events batch e Hrec
                   |i ev events batch new tr r Hrec Hle _ IH
                   |i ev events batch new tr r Hrec Hlt _ IH].
  - constructor.
  - apply uploads_raise. rewrite <-Hrec. apply stage_records_clock.
    destruct Hq as [?|[? _]%Forall_cons]; auto.
  - eapply uploads_flush; [|done|].
    + rewrite <-Hrec. apply stage_records_clock.
      destruct Hq as [?|[? _]%Forall_cons]; auto.
    + apply IH. destruct Hq as [?|[_ ?]%Forall_cons]; auto.
  - eapply uploads_keep; [|done|].
    + rewrite <-Hrec. apply stage_records_clock.
      destruct Hq as [?|[? _]%Forall_cons]; auto.
    + apply IH. destruct Hq as [?|[_ ?]%Forall_cons]; auto.
Qed.

Lemma uploads_event_timestamps utcnow i events batch tr :
  uploads BATCH_SIZE utcnow event_query i events batch tr (inr ()) →
  Forall (λ event, is_Some (ocel_timestamp event)) events.
Proof.
  intros Hup. remember (inr ()) as r eqn:Hr.
  induction Hup as [i batch|i ev events batch e Hrec
                   |i ev events batch new tr r Hrec Hle _ IH
                   |i ev events batch new tr r Hrec Hlt _ IH]; try done.
  - apply event_records_inr in Hrec as (?&?&?&?&?&?&?). constructor; eauto.
  - apply event_records_inr in Hrec as (?&?&?&?&?&?&?). constructor; eauto.
Qed.

Lemma stages_run_clock_later utcnow utcnow' events queries tr r :
  Forall (λ event, is_Some (ocel_timestamp event)) events →
  stages_run BATCH_SIZE utcnow events queries tr r →
  stages_run BATCH_SIZE utcnow' events queries tr r.
Proof.
  intros Hts.
  induction 1 as [|query queries tr e Hup|query queries tr tr' r Hup _ IH].
  - constructor.
  - apply stages_run_raise. eapply uploads_clock; [by right|done].
  - eapply stages_run_next; [|done]. eapply uploads_clock; [by right|done].
Qed.

Lemma stages_run_clock utcnow utcnow' events queries tr r :
  stages_run BATCH_SIZE utcnow events (event_query :: queries) tr r →
  stages_run BATCH_SIZE utcnow' events (event_query :: queries) tr r.
Proof.
  inversion 1 as [|?? tr1 e Hup|?? tr1 tr2 ? Hup Hrest]; subst.
  - apply stages_run_raise. eapply uploads_clock; [by left|done].
  - eapply stages_run_next.
    + eapply uploads_clock; [by left|done].
    + eapply stages_run_clock_later; [|done]. by eapply uploads_event_timestamps.
Qed.

End stage_structure.

(** ** The records of a stage that completes *)

Lemma stage_records_inl utcnow query i event e :
  stage_records utcnow query i event = inl e → ∃ k, e = KeyError k.
Proof.
  assert (∀ A key (field : option A) e', getitem key field = inl e' → ∃ k, e' = KeyError k)
    as Hget.
  { intros A key [x|] e'; simpl; intros [=<-]; eauto. }
  destruct query; simpl.
  - apply event_records_inl.
  - unfold case_records. destruct (getitem _ (ocel_attributes event)) as [|attrs] eqn:Ha;
      simpl; [intros [=<-]; eauto|].
    destruct (attrs !! "case_id"); [|done].
    destruct (getitem _ (ocel_id event)) eqn:Hid; simpl; [intros [=<-]; eauto|done].
  - unfold activity_records.
    destruct (getitem _ (ocel_id event)) eqn:Hid; simpl; [intros [=<-]; eauto|].
    destruct (getitem _ (ocel_activity event)) eqn:Hact; simpl; [intros [=<-]; eauto|done].
  - unfold resource_records. destruct (getitem _ (ocel_attributes event)) as [|attrs] eqn:Ha;
      simpl; [intros [=<-]; eauto|].
    destruct (attrs !! "resource"); [|done].
    destruct (getitem _ (ocel_id event)) eqn:Hid; simpl; [intros [=<-]; eauto|done].
  - unfold object_records. generalize (default [] (ocel_objects event)). intros objs.
    revert e. induction objs as [|obj objs IH]; intros e; simpl; [done|].
    destruct (getitem _ (ocel_id event)) eqn:Hid; simpl; [intros [=<-]; eauto|].
    destruct (getitem _ (obj_id obj)) eqn:Hoid; simpl; [intros [=<-]; eauto|].
    destruct (getitem _ (obj_type obj)) eqn:Hoty; simpl; [intros [=<-]; eauto|].
    destruct (object_records_of event objs) eqn:Hrest; simpl; [|done].
    intros [=<-]. by apply IH.
Qed.

Lemma uploads_inl BATCH_SIZE utcnow query i events batch tr e :
  uploads BATCH_SIZE utcnow query i events batch tr (inl e) → ∃ k, e = KeyError k.
Proof.
  intros Hup. remember (inl e) as r eqn:Hr.
  induction Hup; simplify_eq; eauto using stage_records_inl.
Qed.

Lemma stages_run_inl BATCH_SIZE utcnow events queries tr e :
  stages_run BATCH_SIZE utcnow events queries tr (inl e) → ∃ k, e = KeyError k.
Proof.
  intros Hrun. remember (inl e) as r eqn:Hr.
  induction Hrun; simplify_eq; eauto using uploads_inl.
Qed.

Lemma writes_flush_ops query batch : writes (flush_ops query batch) = pair query <$> batch.
Proof. destruct batch; [done|]. unfold writes. simpl. by rewrite app_nil_r. Qed.

Lemma uploads_writes BATCH_SIZE utcnow query i events batch tr :
  uploads BATCH_SIZE utcnow query i events batch tr (inr ()) →
  ∃ recs, all_records utcnow query i events = inr recs ∧
    writes tr = pair query <$> (batch ++ recs).
Proof.
  intros Hup. remember (inr ()) as r eqn:Hr.
  induction Hup as [i batch|i ev events batch e Hrec
                   |i ev events batch new tr r Hrec Hle _ IH
                   |i ev events batch new tr r Hrec Hlt _ IH]; try done.
  - exists []. split; [done|]. by rewrite writes_flush_ops, app_nil_r.
  - destruct (IH Hr) as (recs & Hrecs & Hw). exists (new ++ recs). simpl.
    rewrite Hrec, Hrecs. split; [done|].
    by rewrite writes_app, writes_flush_ops, Hw, <-fmap_app, <-app_assoc.
  - destruct (IH Hr) as (recs & Hrecs & Hw). exists (new ++ recs). simpl.
    rewrite Hrec, Hrecs. split; [done|]. by rewrite Hw, <-app_assoc.
Qed.

Lemma all_records_event utcnow events : ∀ i recs,
  all_records utcnow event_query i events = inr recs →
  event_node_of <$> events = Some <$> omap event_update (pair event_query <$> recs).
Proof.
  induction events as [|event events IH]; intros i recs; simpl.
  { by intros [=<-]. }
  destruct (event_records event) as [|new] eqn:Hrec; [done|]. simpl.
  destruct (all_records utcnow event_query (S i) events) as [|rest] eqn:Hrest; [done|].
  simpl. intros [=<-].
  apply event_records_inr in Hrec as (id & ts & act & Hid & Hts & Hact & ->).
  simpl. f_equal; [unfold event_node_of; by rewrite Hid, Hts, Hact|by eapply IH].
Qed.

Lemma all_records_activity utcnow events : ∀ i recs,
  Forall (λ event, is_Some (ocel_timestamp event)) events →
  all_records utcnow activity_query i events = inr recs →
  of_type_of <$> events = Some <$> omap of_type_update (pair activity_query <$> recs).
Proof.
  induction events as [|event events IH]; intros i recs Hts; simpl.
  { by intros [=<-]. }
  apply Forall_cons in Hts as [[ts Hts] Htss].
  unfold activity_records.
  destruct (ocel_id event) as [id|] eqn:Hid; [|done].
  destruct (ocel_activity event) as [act|] eqn:Hact; [|done]. simpl.
  destruct (all_records utcnow activity_query (S i) events) as [|rest] eqn:Hrest; [done|].
  simpl. intros [=<-]. simpl.
  f_equal; [unfold of_type_of; by rewrite Hid, Hts, Hact|by eapply IH].
Qed.

Lemma event_node_of_ids events (nodes : list EventNode) :
  event_node_of <$> events = Some <$> nodes →
  ocel_id <$> events = Some <$> nodes.*1.
Proof.
  revert nodes. induction events as [|event events IH]; intros [|node nodes]; try done.
  simpl. intros [= Hnode Hrest]. f_equal; [|by apply IH].
  unfold event_node_of in Hnode. destruct (ocel_id event); [|done].
  destruct (ocel_timestamp event); [|done]. destruct (ocel_activity event); [|done].
  simpl in Hnode. by injection Hnode as <-.
Qed.

Lemma of_type_of_ids events (edges : list (string * (string * Z))) :
  of_type_of <$> events = Some <$> edges →
  ocel_id <$> events = Some <$> edges.*1.
Proof.
  revert edges. induction events as [|event events IH]; intros [|edge edges]; try done.
  simpl. intros [= Hedge Hrest]. f_equal; [|by apply IH].
  unfold of_type_of in Hedge. destruct (ocel_id event); [|done].
  destruct (ocel_timestamp event); [|done]. destruct (ocel_activity event); [|done].
  simpl in Hedge. by injection Hedge as <-.
Qed.

(** ** Event nodes and OF_TYPE relationships of a fresh store *)

Lemma tx_run_OF_TYPE o g :
  o.1 ≠ activity_query → OF_TYPE (tx_run o.1 o.2 g) = OF_TYPE g.
Proof.
  destruct o as [[] []]; simpl; try done; destruct (match_event _ g); done.
Qed.

Lemma apply_writes_OF_TYPE ops : ∀ g,
  Forall (λ o, o.1 ≠ activity_query) ops → OF_TYPE (apply_writes ops g) = OF_TYPE g.
Proof.
  induction ops as [|o ops IH]; intros g Hops; [done|].
  apply Forall_cons in Hops as [Ho Hops]. unfold apply_writes in *. simpl.
  by rewrite IH, tx_run_OF_TYPE.
Qed.

Lemma apply_writes_Event_nodes ops g :
  Forall (λ o, o.1 ≠ event_query) ops → Event_nodes (apply_writes ops g) = Event_nodes g.
Proof. intros Hops. by destruct (apply_writes_grows ops g Hops) as [? _]. Qed.

Lemma apply_writes_activity ops : ∀ g,
  Forall (λ o, o.1 = activity_query) ops →
  (∀ edge, edge ∈ omap of_type_update ops → edge.1 ∈ (Event_nodes g).*1) →
  OF_TYPE (apply_writes ops g)
    = foldl (λ l edge, merge edge l) (OF_TYPE g) (omap of_type_update ops).
Proof.
  induction ops as [|[query record] ops IH]; intros g Hops Hids; [done|].
  apply Forall_cons in Hops as [Ho Hops]. simpl in Ho. subst query.
  unfold apply_writes in *. cbn [foldl].
  assert (Event_nodes (tx_run activity_query record g) = Event_nodes g) as Hev.
  { by destruct (tx_run_grows activity_query record g) as [? _]. }
  destruct record as [| |id act ts| |]; simpl in Hids |- *;
    try (by apply IH).
  assert (match_event id g = true) as Hm.
  { apply bool_decide_eq_true. apply (Hids (id, (act, ts))). by left. }
  simpl in Hev. rewrite Hm in Hev |- *.
  rewrite IH; [done|done|]. rewrite Hev. intros edge Hedge. apply Hids. by right.
Qed.

Lemma Forall_pair_query query (recs : list Params) :
  Forall (λ o : Query * Params, o.1 = query) (pair query <$> recs).
Proof. apply Forall_fmap, Forall_true. done. Qed.

Lemma upserts_from_empty BATCH_SIZE utcnow events tr :
  stages_run BATCH_SIZE utcnow events
    [event_query; case_query; activity_query; resource_query; object_query] tr (inr ()) →
  NoDup (ocel_id <$> events) →
  event_node_of <$> events = Some <$> Event_nodes (replay tr empty_graph) ∧
  of_type_of <$> events = Some <$> OF_TYPE (replay tr empty_graph).
Proof.
  intros Hrun Hnd.
  pose proof (stages_run_upsert_op _ _ _ _ _ _ Hrun) as Hops.
  rewrite replay_writes by done. clear Hops.
  repeat match goal with
  | H : stages_run _ _ _ (_ :: _) _ (inr _) |- _ => inv H
  | H : stages_run _ _ _ [] _ _ |- _ => inv H
  end.
  repeat match goal with
  | H : uploads _ _ event_query _ _ _ _ _ |- _ =>
      pose proof (uploads_event_timestamps _ _ _ _ _ _ H) as Hts;
      apply uploads_writes in H as (recs1 & Hrecs1 & Hw1)
  | H : uploads _ _ case_query _ _ _ _ _ |- _ =>
      apply uploads_writes in H as (recs2 & _ & Hw2)
  | H : uploads _ _ activity_query _ _ _ _ _ |- _ =>
      apply uploads_writes in H as (recs3 & Hrecs3 & Hw3)
  | H : uploads _ _ resource_query _ _ _ _ _ |- _ =>
      apply uploads_writes in H as (recs4 & _ & Hw4)
  | H : uploads _ _ object_query _ _ _ _ _ |- _ =>
      apply uploads_writes in H as (recs5 & _ & Hw5)
  end.
  rewrite !writes_app, Hw1, Hw2, Hw3, Hw4, Hw5. simpl app. change (writes []) with (@nil (Query * Params)).
  rewrite app_nil_r.
  apply all_records_event in Hrecs1. apply all_records_activity in Hrecs3; [|done].
  set (nodes := omap event_update (pair event_query <$> recs1)) in *.
  set (edges := omap of_type_update (pair activity_query <$> recs3)) in *.
  assert (NoDup nodes.*1) as Hnodes.
  { apply (NoDup_fmap_1 Some). by rewrite <-(event_node_of_ids _ _ Hrecs1). }
  assert (edges.*1 = nodes.*1) as Hids.
  { apply (inj (fmap Some)).
    by rewrite <-(event_node_of_ids _ _ Hrecs1), <-(of_type_of_ids _ _ Hrecs3). }
  assert (NoDup edges) as Hedges.
  { apply (NoDup_fmap_1 fst). by rewrite Hids. }
  assert (∀ q q' (recs : list Params), q ≠ q' →
            Forall (λ o : Query * Params, o.1 ≠ q') (pair q <$> recs)) as Hne.
  { intros q q' recs Hq. eapply Forall_impl; [apply Forall_pair_query|].
    simpl. congruence. }
  assert (Event_nodes (apply_writes (pair event_query <$> recs1) empty_graph) = nodes) as Hev.
  { rewrite apply_writes_events by apply Forall_pair_query. simpl.
    rewrite merge_sets_fresh; [done..|]. intros k _. apply not_elem_of_nil. }
  split.
  - rewrite Hrecs1. f_equal.
    rewrite apply_writes_app, apply_writes_Event_nodes; [done|].
    repeat (apply Forall_app; split); by apply Hne.
  - rewrite Hrecs3. f_equal.
    rewrite (app_assoc (pair event_query <$> recs1)), (apply_writes_app (_ ++ _)).
    set (a := apply_writes (_ ++ _) empty_graph).
    assert (Event_nodes a = nodes) as Ha.
    { unfold a. rewrite apply_writes_app, apply_writes_Event_nodes; [done|by apply Hne]. }
    assert (OF_TYPE a = []) as Hot.
    { unfold a. rewrite apply_writes_OF_TYPE; [done|]. apply Forall_app; split; by apply Hne. }
    rewrite apply_writes_app, apply_writes_OF_TYPE
      by (apply Forall_app; split; by apply Hne).
    rewrite apply_writes_activity.
    + rewrite Hot. fold edges. rewrite foldl_merge_fresh; [done|done|].
      intros x _. apply not_elem_of_nil.
    + apply Forall_pair_query.
    + intros edge Hedge. rewrite Ha, <-Hids. by apply list_elem_of_fmap_2.
Qed.

(** ** The stores a run may leave *)

Lemma run_result_unfold BATCH_SIZE utcnow closed_driver_raises events g g' tr r :
  stages_run BATCH_SIZE utcnow events
    [event_query; case_query; activity_query; resource_query; object_query] tr r →
  run_result BATCH_SIZE utcnow closed_driver_raises events g g' ↔
    match r with
    | inl _ => g' = replay tr g
    | inr _ =>
        if closed_driver_raises then g' = replay tr g
        else sequence_result (replay tr g) g'
    end.
Proof.
  intros Hrun.
  assert (with_driver (upsert_stages BATCH_SIZE utcnow closed_driver_raises events)
            (initial g)
          = (close_driver (extend (initial g) (schema_ops ++ tr)), r)) as Hupserts.
  { unfold with_driver.
    by rewrite (upsert_stages_acts_as _ _ closed_driver_raises _ _ _ Hrun). }
  unfold run_result. cbv zeta. rewrite Hupserts.
  cbn [fst snd close_driver extend initial store].
  by rewrite replay_app, replay_schema_ops.
Qed.

(** The store [run] computes is one of them. *)
Lemma run_result_run BATCH_SIZE utcnow closed_driver_raises events g :
  run_result BATCH_SIZE utcnow closed_driver_raises events g
    (store (run BATCH_SIZE utcnow closed_driver_raises events g).1).
Proof.
  destruct (stages_run_total BATCH_SIZE utcnow events
    [event_query; case_query; activity_query; resource_query; object_query])
    as (tr & r & Hrun).
  apply (run_result_unfold _ _ _ _ _ _ _ _ Hrun).
  rewrite (run_unfold _ _ _ _ _ _ _ Hrun).
  destruct r as [e|[]]; [|destruct closed_driver_raises];
    cbn [fst close_driver extend initial store];
    rewrite ?replay_app, ?replay_schema_ops; try done.
  cbn [replay foldl replay_op]. apply sequence_query_result.
Qed.

Lemma no_ties_Forall rows :
  Forall (λ r1, Forall (λ r2 : Row,
     r1.2 = r2.2 → timestamp r1.1 = timestamp r2.1 → r1 = r2) rows) rows →
  no_ties rows.
Proof.
  rewrite Forall_forall. intros Hall r1 r2 Hr1 Hr2.
  specialize (Hall r1 Hr1). rewrite Forall_forall in Hall. by apply Hall.
Qed.

(** * The claims *)

(** C1 (the code departs from it).  In every execution the driver is closed
    before step 7 asks it for a session: up to [DriverClose] the script only
    performs the operations of steps 1 to 6, and then either stops without
    success (an earlier exception, or a driver that refuses sessions once
    closed), or runs the sequence statement in a session obtained from the
    closed driver. *)
Theorem sequence_session_after_driver_close BATCH_SIZE utcnow closed_driver_raises events g :
  ∃ tr, Forall upsert_op tr ∧
    let w := (run BATCH_SIZE utcnow closed_driver_raises events g).1 in
    let r := (run BATCH_SIZE utcnow closed_driver_raises events g).2 in
    trace w = tr ++ [DriverClose] ∧ r ≠ inr ()
    ∨ closed_driver_raises = false ∧ r = inr () ∧
      trace w = tr ++ [DriverClose; SessionOpen false; RunSequence; SessionClose].
Proof.
  destruct (stages_run_total BATCH_SIZE utcnow events
    [event_query; case_query; activity_query; resource_query; object_query])
    as (tr & r & Hrun).
  exists (schema_ops ++ tr). split.
  { apply Forall_app. split; [apply schema_upsert_op|by eapply stages_run_upsert_op]. }
  rewrite (run_unfold _ _ _ _ _ _ _ Hrun).
  destruct r as [e|[]]; [by left|].
  destruct closed_driver_raises; [by left|right].
  split_and!; [done..|]. simpl. by rewrite <-app_assoc.
Qed.

(** C2 (amended).  Take any store a first run may leave and any store a
    second run on the same log may leave from there, whatever the clock
    shows by then and in whichever admissible order either run finds the
    rows of the sequence statement.  Steps 1 to 6 of the second run leave
    the store exactly as the first run left it: no upsert creates or changes
    a node or a relationship.  The second run as a whole changes at most the
    NEXT_EVENT relationships, so the node count is the same.  And when no
    case of the store holds two events with the same timestamp, the second
    run changes nothing at all: the store, and with it the edge count, is
    the same as after one run. *)
Theorem second_run_changes_nothing_without_ties
    BATCH_SIZE utcnow utcnow' closed_driver_raises events g g1 g2 :
  run_result BATCH_SIZE utcnow closed_driver_raises events g g1 →
  run_result BATCH_SIZE utcnow' closed_driver_raises events g1 g2 →
  store (with_driver (upsert_stages BATCH_SIZE utcnow' closed_driver_raises events)
           (initial g1)).1 = g1 ∧
  g2 = with_NEXT_EVENT (λ _, NEXT_EVENT g2) g1 ∧
  node_count g2 = node_count g1 ∧
  (no_ties (match_rows g1) → g2 = g1 ∧ edge_count g2 = edge_count g1).
Proof.
  intros H1 H2.
  destruct (stages_run_total BATCH_SIZE utcnow events
    [event_query; case_query; activity_query; resource_query; object_query])
    as (tr & r & Hrun).
  pose proof (stages_run_clock _ _ utcnow' _ _ _ _ Hrun) as Hrun'.
  apply (run_result_unfold _ _ _ _ _ _ _ _ Hrun) in H1.
  apply (run_result_unfold _ _ _ _ _ _ _ _ Hrun') in H2.
  assert (grows (replay tr g) g1) as Hgrows.
  { destruct r as [e|[]]; [subst; apply grows_refl|].
    destruct closed_driver_raises; [subst; apply grows_refl|].
    destruct H1 as (sorted & _ & ->). apply sequence_query_with_grows. }
  assert (replay tr g1 = g1) as Habsorb by (by eapply upsert_stages_absorbed).
  rewrite Habsorb in H2.
  split.
  { unfold with_driver.
    rewrite (upsert_stages_acts_as _ _ closed_driver_raises _ _ _ Hrun') by done.
    cbn [fst close_driver extend initial store].
    by rewrite replay_app, replay_schema_ops. }
  assert (g2 = g1 ∨
          ∃ sorted1 sorted2,
            ordered (match_rows (replay tr g)) sorted1 ∧
            g1 = sequence_query_with sorted1 (replay tr g) ∧
            ordered (match_rows g1) sorted2 ∧
            g2 = sequence_query_with sorted2 g1) as [->|Hseq].
  { destruct r as [e|[]]; [by left|].
    destruct closed_driver_raises; [by left|right].
    destruct H1 as (sorted1 & Hs1 & ->), H2 as (sorted2 & Hs2 & ->). eauto 6. }
  { split_and!; [by destruct g1|done|done]. }
  destruct Hseq as (sorted1 & sorted2 & Hs1 & -> & Hs2 & ->).
  split_and!.
  - by rewrite (sequence_query_with_next_event sorted2).
  - by rewrite (sequence_query_with_next_event sorted2).
  - intros Hties. rewrite match_rows_sequence_query_with in Hs2, Hties.
    rewrite (ordered_unique _ _ _ Hties Hs2 Hs1).
    by rewrite sequence_query_with_twice.
Qed.

(** Scenario A, three events of one case at 10, 20 and 35 seconds, run twice. *)
Lemma second_run_changes_nothing_without_ties_witness :
  run_result 2 (λ _, 0%Z) false log_three_events empty_graph
    (store (run 2 (λ _, 0%Z) false log_three_events empty_graph).1) ∧
  run_result 2 (λ _, 5%Z) false log_three_events
    (store (run 2 (λ _, 0%Z) false log_three_events empty_graph).1)
    (store (run 2 (λ _, 5%Z) false log_three_events
              (store (run 2 (λ _, 0%Z) false log_three_events empty_graph).1)).1) ∧
  no_ties (match_rows (store (run 2 (λ _, 0%Z) false log_three_events empty_graph).1)) ∧
  edge_count (store (run 2 (λ _, 5%Z) false log_three_events
                       (store (run 2 (λ _, 0%Z) false log_three_events empty_graph).1)).1)
    = edge_count (store (run 2 (λ _, 0%Z) false log_three_events empty_graph).1).
Proof.
  pose proof (run_result_run 2 (λ _, 0%Z) false log_three_events empty_graph) as H1.
  pose proof (run_result_run 2 (λ _, 5%Z) false log_three_events
                (store (run 2 (λ _, 0%Z) false log_three_events empty_graph).1)) as H2.
  assert (no_ties (match_rows
            (store (run 2 (λ _, 0%Z) false log_three_events empty_graph).1))) as Hties.
  { apply no_ties_Forall. refine (bool_decide_unpack _ _). by vm_compute. }
  split_and!; [exact H1|exact H2|exact Hties|].
  exact (proj2 (proj2 (proj2 (proj2
    (second_run_changes_nothing_without_ties _ _ _ _ _ _ _ _ H1 H2))) Hties)).
Defined.

(** Three events of one case, "a" and "b" at the same instant and "x" after
    them.  The first run finds the tied rows in the order b, a and joins a
    to x.  The second run finds them in the order a, b and joins b to x as
    well: eight relationships where the first run left seven, on the same
    input. *)
Lemma second_run_adds_an_edge_under_ties :
  run_result 2 (λ _, 0%Z) false log_tie_ba empty_graph
    (sequence_query_with rows_tie_ba (uploaded log_tie_ba)) ∧
  run_result 2 (λ _, 0%Z) false log_tie_ba
    (sequence_query_with rows_tie_ba (uploaded log_tie_ba))
    (sequence_query_with rows_tie_ab
       (sequence_query_with rows_tie_ba (uploaded log_tie_ba))) ∧
  NEXT_EVENT (sequence_query_with rows_tie_ba (uploaded log_tie_ba))
    = [(("a", "x"), 1%Z)] ∧
  NEXT_EVENT (sequence_query_with rows_tie_ab
                (sequence_query_with rows_tie_ba (uploaded log_tie_ba)))
    = [(("a", "x"), 1%Z); (("b", "x"), 1%Z)] ∧
  edge_count (sequence_query_with rows_tie_ba (uploaded log_tie_ba)) = 7 ∧
  edge_count (sequence_query_with rows_tie_ab
                (sequence_query_with rows_tie_ba (uploaded log_tie_ba))) = 8.
Proof.
  assert (∀ rows, StronglySorted row_le rows ↔ bool_decide (StronglySorted row_le rows))
    as Hsorted by (intros rows; by rewrite bool_decide_spec).
  split_and!; try (by vm_compute).
  - unfold run_result. cbv zeta.
    assert ((with_driver (upsert_stages 2 (λ _, 0%Z) false log_tie_ba)
               (initial empty_graph)).2 = inr ()) as -> by (by vm_compute).
    exists rows_tie_ba. split; [|done]. split.
    + vm_compute. reflexivity.
    + apply Hsorted. by vm_compute.
  - unfold run_result. cbv zeta.
    assert ((with_driver (upsert_stages 2 (λ _, 0%Z) false log_tie_ba)
               (initial (sequence_query_with rows_tie_ba (uploaded log_tie_ba)))).2
            = inr ()) as -> by (by vm_compute).
    assert (store (with_driver (upsert_stages 2 (λ _, 0%Z) false log_tie_ba)
                     (initial (sequence_query_with rows_tie_ba (uploaded log_tie_ba)))).1
            = sequence_query_with rows_tie_ba (uploaded log_tie_ba)) as ->
      by (by vm_compute).
    exists rows_tie_ab. split; [|by vm_compute]. split.
    + vm_compute. apply perm_swap.
    + apply Hsorted. by vm_compute.
Qed.

(** C3.  In a store whose Event nodes have distinct identifiers, the events
    collected for a case are that case's events in ascending timestamp order;
    the rows that reach MERGE for the case are exactly the adjacent pairs of
    that list whose first timestamp is strictly smaller than the second, and
    after the statement such a pair is joined by a NEXT_EVENT relationship
    whose [time_difference] is the difference of the two timestamps.  A pair
    with equal timestamps yields no row, and no relationship when none was
    there before.  Three events with timestamps t1 < t2 < t3 yield exactly
    the two rows e1 -> e2 and e2 -> e3. *)
Theorem next_event_between_adjacent_events g c events :
  event_id_unique g →
  (c, events) ∈ collect (order_by (match_rows g)) →
  StronglySorted (λ e1 e2, (timestamp e1 ≤ timestamp e2)%Z) events ∧
  events ≡ₚ (filter (λ r, r.2 = c) (match_rows g)).*1 ∧
  (∀ e1 e2, (e1, e2, c) ∈ sequence_rows (match_rows g) →
     ∃ i, events !! i = Some e1 ∧ events !! S i = Some e2) ∧
  (∀ i e1 e2, events !! i = Some e1 → events !! S i = Some e2 →
     ((e1, e2, c) ∈ sequence_rows (match_rows g) ↔ (timestamp e1 < timestamp e2)%Z) ∧
     ((timestamp e1 < timestamp e2)%Z →
        ((node_id e1, node_id e2), (timestamp e2 - timestamp e1)%Z)
          ∈ NEXT_EVENT (sequence_query g)) ∧
     (timestamp e1 = timestamp e2 → NEXT_EVENT g = [] →
        ∀ d, ((node_id e1, node_id e2), d) ∉ NEXT_EVENT (sequence_query g))) ∧
  (∀ a b x, events ≡ₚ [a; b; x] → (timestamp a < timestamp b < timestamp x)%Z →
     case_pairs events = [(a, b); (b, x)] ∧
     inSeconds (timestamp a) (timestamp b) = (timestamp b - timestamp a)%Z ∧
     inSeconds (timestamp b) (timestamp x) = (timestamp x - timestamp b)%Z).
Proof.
  intros Hg [Hc ->]%elem_of_collect.
  assert (c ∈ (match_rows g).*2) as Hc' by (by rewrite <-(order_by_Permutation (match_rows g))).
  set (events := (filter (λ r, r.2 = c) (order_by (match_rows g))).*1).
  assert (StronglySorted (λ e1 e2, (timestamp e1 ≤ timestamp e2)%Z) events) as Hsorted.
  { apply case_events_sorted, order_by_sorted. }
  assert (∀ e, e ∈ events → e ∈ Event_nodes g) as Hstore.
  { intros e He. by apply case_event_in_store in He as (_ & ? & _). }
  assert (∀ i e1 e2, events !! i = Some e1 → events !! S i = Some e2 →
            (timestamp e1 < timestamp e2)%Z → (e1, e2, c) ∈ sequence_rows (match_rows g))
    as Hrow.
  { intros i e1 e2 H1 H2 Hlt. apply elem_of_sequence_rows. split; [done|].
    apply elem_of_case_pairs. split; [|by eauto]. split; [done|].
    intros Hid. apply (event_id_unique_eq g) in Hid; [subst; lia|done|..];
      apply Hstore; by eapply list_elem_of_lookup_2. }
  split_and!; [done|by unfold events; rewrite order_by_Permutation|..].
  - by intros e1 e2 [_ [_ ?]%elem_of_case_pairs]%elem_of_sequence_rows.
  - intros i e1 e2 H1 H2. split_and!.
    + split; [|by eapply Hrow].
      by intros [_ [[? _] _]%elem_of_case_pairs]%elem_of_sequence_rows.
    + intros Hlt.
      apply (NEXT_EVENT_sequence_query_2 g e1 e2 c Hg). by eapply Hrow.
    + intros Heq Hnil d [(a1 & a2 & c' & Hin & Hedge)|[Hin _]]%NEXT_EVENT_sequence_query.
      2:{ rewrite Hnil in Hin. by apply elem_of_nil in Hin. }
      apply sequence_row_in_store in Hin as ([Hlt _] & (_ & Ha1 & _) & (_ & Ha2 & _)).
      unfold edge_of in Hedge. simpl in Hedge. injection Hedge as Hid1 Hid2 _.
      apply (event_id_unique_eq g) in Hid1, Hid2; try done;
        try (apply Hstore; by eapply list_elem_of_lookup_2).
      subst. lia.
  - intros a b x Hperm [Hab Hbx].
    assert (events = [a; b; x]) as ->.
    { apply (StronglySorted_unique_strong (λ e1 e2, (timestamp e1 ≤ timestamp e2)%Z));
        [|done| |done].
      - intros x1 x2 Hx1 Hx2. rewrite Hperm in Hx1.
        rewrite !elem_of_cons, elem_of_nil in Hx1, Hx2.
        destruct Hx1 as [->|[->|[->|[]]]], Hx2 as [->|[->|[->|[]]]]; (done || lia).
      - repeat constructor; lia. }
    split; [|done].
    assert (∀ e, e ∈ [a; b; x] → e ∈ Event_nodes g) as Hin by done.
    unfold case_pairs, unwind. simpl.
    rewrite !filter_cons_True; [done|split; simpl..]; try lia.
    + intros Hid. apply (event_id_unique_eq g) in Hid; [subst; lia|done|..];
        apply Hin; set_solver.
    + intros Hid. apply (event_id_unique_eq g) in Hid; [subst; lia|done|..];
        apply Hin; set_solver.
Qed.

(** Scenario A: three events of one case at 10, 20 and 35 seconds. *)
Lemma next_event_between_adjacent_events_witness :
  event_id_unique (uploaded log_three_events) ∧
  ("c1", [("e1", (10%Z, "A")); ("e2", (20%Z, "A")); ("e3", (35%Z, "A"))])
    ∈ collect (order_by (match_rows (uploaded log_three_events))) ∧
  case_pairs [("e1", (10%Z, "A")); ("e2", (20%Z, "A")); ("e3", (35%Z, "A"))]
    = [(("e1", (10%Z, "A")), ("e2", (20%Z, "A"))); (("e2", (20%Z, "A")), ("e3", (35%Z, "A")))].
Proof.
  assert (event_id_unique (uploaded log_three_events)) as Hg.
  { refine (bool_decide_unpack _ _). by vm_compute. }
  assert (("c1", [("e1", (10%Z, "A")); ("e2", (20%Z, "A")); ("e3", (35%Z, "A"))])
            ∈ collect (order_by (match_rows (uploaded log_three_events)))) as Hin.
  { refine (bool_decide_unpack _ _). by vm_compute. }
  split; [exact Hg|]. split; [exact Hin|].
  destruct (next_event_between_adjacent_events _ _ _ Hg Hin) as (_ & _ & _ & _ & Hthree).
  apply Hthree; [done|unfold timestamp; simpl; lia].
Defined.

(** C4 (amended).  The sequence statement orders the rows by case and, within
    a case, by timestamp ascending, and by no further key.  So in whatever
    admissible order the rows come, the events collected for a case are in
    ascending timestamp order; the order with ties broken by the event
    identifier is one of the admissible orders, and so is the one
    [order_by] takes.  Whenever no case holds two events with the same
    timestamp there is only one admissible order: two runs on the same rows
    find them in the same order, the one a tie-break by identifier gives,
    and the same rows reach MERGE. *)
Theorem order_by_case_and_timestamp_only rows sorted sorted' :
  ordered rows sorted →
  ordered rows sorted' →
  (∀ c, StronglySorted (λ e1 e2, (timestamp e1 ≤ timestamp e2)%Z)
          (filter (λ r, r.2 = c) sorted).*1) ∧
  ordered rows (order_by_spec rows) ∧
  ordered rows (order_by rows) ∧
  (no_ties rows →
     sorted' = sorted ∧
     sorted = order_by_spec rows ∧
     rows_after_order_by sorted' = rows_after_order_by sorted ∧
     rows_after_order_by sorted = sequence_rows_spec rows).
Proof.
  intros Hs Hs'. split_and!.
  - intros c. apply case_events_sorted. by destruct Hs.
  - apply order_by_spec_ordered.
  - apply order_by_ordered.
  - intros Hties.
    assert (sorted' = sorted) as -> by (by eapply ordered_unique).
    assert (sorted = order_by_spec rows) as ->.
    { eapply ordered_unique; [done..|apply order_by_spec_ordered]. }
    done.
Qed.

(** The rows of scenario A as a store may return them, last event first;
    the second arrangement is the one [order_by] computes from them. *)
Lemma order_by_case_and_timestamp_only_witness :
  ordered
    [(("e3", (35%Z, "A")), "c1"); (("e1", (10%Z, "A")), "c1"); (("e2", (20%Z, "A")), "c1")]
    [(("e1", (10%Z, "A")), "c1"); (("e2", (20%Z, "A")), "c1"); (("e3", (35%Z, "A")), "c1")] ∧
  no_ties
    [(("e3", (35%Z, "A")), "c1"); (("e1", (10%Z, "A")), "c1"); (("e2", (20%Z, "A")), "c1")] ∧
  order_by
    [(("e3", (35%Z, "A")), "c1"); (("e1", (10%Z, "A")), "c1"); (("e2", (20%Z, "A")), "c1")]
    = [(("e1", (10%Z, "A")), "c1"); (("e2", (20%Z, "A")), "c1"); (("e3", (35%Z, "A")), "c1")] ∧
  [(("e1", (10%Z, "A")), "c1"); (("e2", (20%Z, "A")), "c1"); (("e3", (35%Z, "A")), "c1")]
    = order_by_spec
        [(("e3", (35%Z, "A")), "c1"); (("e1", (10%Z, "A")), "c1");
         (("e2", (20%Z, "A")), "c1")].
Proof.
  assert (ordered
    [(("e3", (35%Z, "A")), "c1"); (("e1", (10%Z, "A")), "c1"); (("e2", (20%Z, "A")), "c1")]
    [(("e1", (10%Z, "A")), "c1"); (("e2", (20%Z, "A")), "c1"); (("e3", (35%Z, "A")), "c1")])
    as Hs.
  { split.
    - etrans; [|apply perm_swap]. apply perm_skip, perm_swap.
    - refine (bool_decide_unpack _ _). by vm_compute. }
  assert (no_ties
    [(("e3", (35%Z, "A")), "c1"); (("e1", (10%Z, "A")), "c1"); (("e2", (20%Z, "A")), "c1")])
    as Hties.
  { apply no_ties_Forall. refine (bool_decide_unpack _ _). by vm_compute. }
  split_and!; [exact Hs|exact Hties|..].
  - exact (proj1 (proj2 (proj2 (proj2
      (order_by_case_and_timestamp_only _ _ _ Hs (order_by_ordered _)))) Hties)).
  - exact (proj1 (proj2 (proj2 (proj2 (proj2
      (order_by_case_and_timestamp_only _ _ _ Hs (order_by_ordered _)))) Hties))).
Defined.

(** One store, three events of one case, "a" and "b" at the same instant.
    Both arrangements of the tied rows are sorted by case and timestamp, so
    the statement may see either; a tie-break by identifier would allow the
    first only.  With "a" before "b" the relationship towards "x" starts at
    "b", with "b" before "a" it starts at "a": the same input, two sets of
    NEXT_EVENT relationships. *)
Lemma tied_events_come_in_either_order :
  ordered (match_rows (uploaded log_tie_ba)) rows_tie_ab ∧
  ordered (match_rows (uploaded log_tie_ba)) rows_tie_ba ∧
  order_by_spec (match_rows (uploaded log_tie_ba)) = rows_tie_ab ∧
  NEXT_EVENT (sequence_query_with rows_tie_ab (uploaded log_tie_ba))
    = [(("b", "x"), 1%Z)] ∧
  NEXT_EVENT (sequence_query_with rows_tie_ba (uploaded log_tie_ba))
    = [(("a", "x"), 1%Z)].
Proof.
  split_and!; try (by vm_compute).
  - split.
    + vm_compute. apply perm_swap.
    + refine (bool_decide_unpack _ _). by vm_compute.
  - split.
    + vm_compute. reflexivity.
    + refine (bool_decide_unpack _ _). by vm_compute.
Qed.

(** C5.  A NEXT_EVENT relationship found in the store after the sequence
    statement either was there before and was not touched, or was merged by
    the statement; in that case it joins two different Event nodes contained
    in one and the same case, leads from the earlier to the later timestamp,
    and its [time_difference] is their difference, which is not negative. *)
Theorem next_event_edges_point_forward g k d :
  (k, d) ∈ NEXT_EVENT (sequence_query g) →
  (k, d) ∈ NEXT_EVENT g ∧ k ∉ (edge_of <$> sequence_rows (match_rows g)).*1
  ∨ ∃ e1 e2 c,
      k = (node_id e1, node_id e2) ∧ node_id e1 ≠ node_id e2 ∧
      e1 ∈ Event_nodes g ∧ e2 ∈ Event_nodes g ∧ c ∈ Case_nodes g ∧
      (c, node_id e1) ∈ CONTAINS_EVENT g ∧ (c, node_id e2) ∈ CONTAINS_EVENT g ∧
      (timestamp e1 < timestamp e2)%Z ∧
      d = (timestamp e2 - timestamp e1)%Z ∧ (0 ≤ d)%Z.
Proof.
  intros [(e1 & e2 & c & Hin & Hedge)|Hold]%NEXT_EVENT_sequence_query; [right|by left].
  apply sequence_row_in_store in Hin as ([Hlt Hne] & (?&?&?) & (?&?&?)).
  unfold edge_of, inSeconds in Hedge. simpl in Hedge. injection Hedge as -> ->.
  exists e1, e2, c. split_and!; try done. lia.
Qed.

(** The relationship e1 -> e2 of scenario A. *)
Lemma next_event_edges_point_forward_witness :
  (("e1", "e2"), 10%Z) ∈ NEXT_EVENT (sequence_query (uploaded log_three_events)) ∧
  ((("e1", "e2"), 10%Z) ∈ NEXT_EVENT (uploaded log_three_events) ∧
     ("e1", "e2") ∉ (edge_of <$> sequence_rows (match_rows (uploaded log_three_events))).*1
   ∨ ∃ e1 e2 c,
       ("e1", "e2") = (node_id e1, node_id e2) ∧ node_id e1 ≠ node_id e2 ∧
       e1 ∈ Event_nodes (uploaded log_three_events) ∧
       e2 ∈ Event_nodes (uploaded log_three_events) ∧
       c ∈ Case_nodes (uploaded log_three_events) ∧
       (c, node_id e1) ∈ CONTAINS_EVENT (uploaded log_three_events) ∧
       (c, node_id e2) ∈ CONTAINS_EVENT (uploaded log_three_events) ∧
       (timestamp e1 < timestamp e2)%Z ∧
       10%Z = (timestamp e2 - timestamp e1)%Z ∧ (0 ≤ 10)%Z).
Proof.
  assert ((("e1", "e2"), 10%Z) ∈ NEXT_EVENT (sequence_query (uploaded log_three_events)))
    as Hin.
  { refine (bool_decide_unpack _ _). by vm_compute. }
  split; [exact Hin|].
  exact (next_event_edges_point_forward _ _ _ Hin).
Defined.

(** C6 (amended).  With a batch size of at least one, every group written by
    the Event, Case, Activity and Resource stages holds between one and
    [BATCH_SIZE] records.  The Object stage looks at the length of its batch
    once per event, after all objects of the event were appended, so its
    groups hold up to [BATCH_SIZE - 1 + k] records when an event has up to
    [k] objects.  An empty record sequence performs no operation. *)
Theorem written_batch_sizes BATCH_SIZE utcnow closed_driver_raises events g k :
  (1 ≤ BATCH_SIZE)%Z →
  Forall (λ event, length (default [] (ocel_objects event)) ≤ k) events →
  let w := (run BATCH_SIZE utcnow closed_driver_raises events g).1 in
  (∀ query batch, WriteTransaction query batch ∈ trace w →
     batch ≠ [] ∧
     (query ≠ object_query → (Z.of_nat (length batch) ≤ BATCH_SIZE)%Z) ∧
     (query = object_query → (Z.of_nat (length batch) ≤ BATCH_SIZE - 1 + Z.of_nat k)%Z)) ∧
  (∀ query w', execute_batch closed_driver_raises query [] w' = (w', inr ())).
Proof.
  intros HB Hk. split; [|done].
  destruct (stages_run_total BATCH_SIZE utcnow events
    [event_query; case_query; activity_query; resource_query; object_query])
    as (tr & r & Hrun).
  rewrite (run_unfold _ _ _ _ _ _ _ Hrun).
  pose proof (stages_run_batch_bound _ _ _ _ _ _ _ HB Hk Hrun) as Hb.
  rewrite Forall_forall in Hb.
  assert (∀ query batch,
    WriteTransaction query batch ∈ schema_ops ++ tr ++ [DriverClose] →
    WriteTransaction query batch ∈ tr) as Hin.
  { intros query batch. rewrite !elem_of_app. intros [Hin|[Hin|Hin]]; [|done|].
    - revert Hin. unfold schema_ops. simpl. rewrite !elem_of_cons, elem_of_nil. naive_solver.
    - by apply list_elem_of_singleton in Hin. }
  intros query batch Hw.
  assert (WriteTransaction query batch ∈ tr) as Htr.
  { apply Hin. revert Hw.
    destruct r as [e|[]]; [|destruct closed_driver_raises];
      cbn [fst close_driver extend initial trace app]; rewrite <-?app_assoc; [done..|].
    rewrite !app_assoc. rewrite (elem_of_app _ [_; _; _]).
    intros [Hw|Hw]; [by rewrite <-!app_assoc in Hw|].
    revert Hw. rewrite !elem_of_cons, elem_of_nil. naive_solver. }
  specialize (Hb _ Htr). simpl in Hb. destruct Hb as [Hne Hlen].
  split_and!; [done|..].
  - intros Hq. rewrite decide_False in Hlen by done. lia.
  - intros Hq. rewrite decide_True in Hlen by done. lia.
Qed.

(** The bounds above on a log of one event with three objects, batch size 2. *)
Lemma written_batch_sizes_witness :
  (1 ≤ 2)%Z ∧
  Forall (λ event, length (default [] (ocel_objects event)) ≤ 3) [event_with_three_objects] ∧
  (∀ query batch,
     WriteTransaction query batch ∈
       trace (run 2 (λ _, 0%Z) false [event_with_three_objects] empty_graph).1 →
     batch ≠ [] ∧
     (query ≠ object_query → (Z.of_nat (length batch) ≤ 2)%Z) ∧
     (query = object_query → (Z.of_nat (length batch) ≤ 2 - 1 + Z.of_nat 3)%Z)) ∧
  (∀ query w', execute_batch false query [] w' = (w', inr ())).
Proof.
  assert (1 ≤ 2)%Z as HB by lia.
  assert (Forall (λ event, length (default [] (ocel_objects event)) ≤ 3)
            [event_with_three_objects]) as Hk by (repeat constructor).
  split; [exact HB|]. split; [exact Hk|].
  exact (written_batch_sizes 2 (λ _, 0%Z) false [event_with_three_objects] empty_graph 3 HB Hk).
Defined.

(** With a batch size of 2, the three objects of one event are written as
    one group of three records, more than the batch size. *)
Lemma object_batch_exceeds_BATCH_SIZE :
  ¬ (∀ query batch,
       WriteTransaction query batch ∈
         trace (run 2 (λ _, 0%Z) false [event_with_three_objects] empty_graph).1 →
       (Z.of_nat (length batch) ≤ 2)%Z).
Proof.
  intros Hall.
  specialize (Hall object_query
    [ObjectParams "e1" "o1" "order"; ObjectParams "e1" "o2" "item";
     ObjectParams "e1" "o3" "item"]).
  assert (3 ≤ 2)%Z; [|lia].
  apply Hall. refine (bool_decide_unpack _ _). by vm_compute.
Qed.

(** C7 (amended).  For a log whose events carry pairwise distinct
    identifiers and on which the script raises no [KeyError], run on an empty
    store: the Event nodes are, one for one and in order, the events of the
    log with their identifier, timestamp and activity, and so are the OF_TYPE
    relationships; hence there are as many Event nodes, and as many OF_TYPE
    relationships, as events in the input. *)
Theorem one_event_node_and_of_type_per_event BATCH_SIZE utcnow closed_driver_raises events :
  NoDup (ocel_id <$> events) →
  (∀ k, (run BATCH_SIZE utcnow closed_driver_raises events empty_graph).2 ≠ inl (KeyError k)) →
  let g := store (run BATCH_SIZE utcnow closed_driver_raises events empty_graph).1 in
  event_node_of <$> events = Some <$> Event_nodes g ∧
  of_type_of <$> events = Some <$> OF_TYPE g ∧
  length (Event_nodes g) = length events ∧
  length (OF_TYPE g) = length events.
Proof.
  intros Hnd Hok.
  destruct (stages_run_total BATCH_SIZE utcnow events
    [event_query; case_query; activity_query; resource_query; object_query])
    as (tr & r & Hrun).
  revert Hok. cbn zeta. rewrite (run_unfold _ _ _ _ _ _ _ Hrun).
  destruct r as [e|[]].
  { intros Hok. destruct (stages_run_inl _ _ _ _ _ _ Hrun) as [k ->].
    by destruct (Hok k). }
  intros _.
  destruct (upserts_from_empty _ _ _ _ Hrun Hnd) as [Hev Hot].
  cut (∀ g, Event_nodes g = Event_nodes (replay tr empty_graph) →
            OF_TYPE g = OF_TYPE (replay tr empty_graph) →
            event_node_of <$> events = Some <$> Event_nodes g ∧
            of_type_of <$> events = Some <$> OF_TYPE g ∧
            length (Event_nodes g) = length events ∧
            length (OF_TYPE g) = length events).
  { intros Hcut.
    destruct closed_driver_raises; cbn [fst close_driver extend initial store];
      apply Hcut; rewrite ?replay_app, ?replay_schema_ops; try done;
      unfold replay at 1; cbn [foldl replay_op];
      by rewrite sequence_query_next_event. }
  intros g -> ->. split_and!; [done|done|..].
  - apply (f_equal length) in Hev. by rewrite !length_fmap in Hev.
  - apply (f_equal length) in Hot. by rewrite !length_fmap in Hot.
Qed.

(** The three events of scenario A. *)
Lemma one_event_node_and_of_type_per_event_witness :
  NoDup (ocel_id <$> log_three_events) ∧
  length (Event_nodes (store (run 2 (λ _, 0%Z) false log_three_events empty_graph).1)) = 3 ∧
  length (OF_TYPE (store (run 2 (λ _, 0%Z) false log_three_events empty_graph).1)) = 3.
Proof.
  assert (NoDup (ocel_id <$> log_three_events)) as Hnd.
  { refine (bool_decide_unpack _ _). by vm_compute. }
  assert (∀ k, (run 2 (λ _, 0%Z) false log_three_events empty_graph).2 ≠ inl (KeyError k))
    as Hok.
  { intros k. by vm_compute. }
  split; [exact Hnd|].
  exact (proj2 (proj2
    (one_event_node_and_of_type_per_event 2 (λ _, 0%Z) false log_three_events Hnd Hok))).
Defined.

(** Two input events with the identifier "e1" and different timestamps end
    up as one Event node with two OF_TYPE relationships. *)
Lemma repeated_identifier_one_event_node :
  length (Event_nodes (store (run 2 (λ _, 0%Z) false log_repeated_id empty_graph).1))
    ≠ length log_repeated_id
  ∧ length (Event_nodes (store (run 2 (λ _, 0%Z) false log_repeated_id empty_graph).1)) = 1
  ∧ length (OF_TYPE (store (run 2 (λ _, 0%Z) false log_repeated_id empty_graph).1)) = 2.
Proof. by vm_compute. Qed.



(** C9 (the code departs from it).  The Activity stage does fall back to the
    clock for an event without timestamp, but no such event reaches it: the
    Event stage reads [event['ocel:timestamp']] first and raises [KeyError],
    so the script stops having performed Event upserts only, and nothing of
    the Activity stage is written. *)
Theorem missing_timestamp_aborts_in_event_stage
    BATCH_SIZE utcnow closed_driver_raises events g j event :
  events !! j = Some event →
  ocel_timestamp event = None →
  let w := (run BATCH_SIZE utcnow closed_driver_raises events g).1 in
  let r := (run BATCH_SIZE utcnow closed_driver_raises events g).2 in
  (∀ id act, ocel_id event = Some id → ocel_activity event = Some act →
     stage_records utcnow activity_query j event = inr [ActivityParams id act (utcnow j)]) ∧
  (∃ k, r = inl (KeyError k)) ∧
  (∀ query batch, WriteTransaction query batch ∈ trace w → query = event_query) ∧
  Activity_nodes (store w) = Activity_nodes g ∧
  OF_TYPE (store w) = OF_TYPE g.
Proof.
  intros Hj Hts. split.
  { intros id act Hid Hact. simpl. unfold activity_records. by rewrite Hid, Hact, Hts. }
  destruct (stages_run_total BATCH_SIZE utcnow events
    [event_query; case_query; activity_query; resource_query; object_query])
    as (tr & r & Hrun).
  rewrite (run_unfold _ _ _ _ _ _ _ Hrun).
  inv Hrun.
  2:{ match goal with H : uploads _ _ _ _ _ _ _ _ |- _ =>
        by destruct (uploads_event_missing_timestamp _ _ _ _ _ _ _ _ _ H Hj Hts) end. }
  match goal with H : uploads _ _ _ _ _ _ _ _ |- _ => rename H into Hup end.
  pose proof (uploads_event_missing_timestamp _ _ _ _ _ _ _ _ _ Hup Hj Hts) as [k [= ->]].
  apply uploads_stage_op in Hup.
  destruct (replay_event_stage tr (replay schema_ops g) Hup) as [f Hf].
  cbn [fst snd close_driver extend initial store trace].
  rewrite replay_app, Hf, replay_schema_ops.
  split_and!; [by eauto|..|done|done].
  intros query batch Hin. rewrite !elem_of_app in Hin.
  destruct Hin as [[[]%elem_of_nil|[Hin|Hin]]|Hin].
  - revert Hin. unfold schema_ops. simpl. rewrite !elem_of_cons, elem_of_nil. naive_solver.
  - rewrite Forall_forall in Hup. by destruct (Hup _ Hin) as [-> _].
  - apply list_elem_of_singleton in Hin. done.
Qed.

(** A log of one event that has an identifier and an activity but no
    timestamp. *)
Lemma missing_timestamp_witness :
  [event_without_timestamp] !! 0 = Some event_without_timestamp ∧
  ocel_timestamp event_without_timestamp = None ∧
  (∀ id act, ocel_id event_without_timestamp = Some id →
     ocel_activity event_without_timestamp = Some act →
     stage_records (λ _, 7%Z) activity_query 0 event_without_timestamp
       = inr [ActivityParams id act 7]) ∧
  (∃ k, (run 1 (λ _, 7%Z) false [event_without_timestamp] empty_graph).2 = inl (KeyError k)) ∧
  (∀ query batch,
     WriteTransaction query batch ∈
       trace (run 1 (λ _, 7%Z) false [event_without_timestamp] empty_graph).1 →
     query = event_query) ∧
  Activity_nodes (store (run 1 (λ _, 7%Z) false [event_without_timestamp] empty_graph).1)
    = Activity_nodes empty_graph ∧
  OF_TYPE (store (run 1 (λ _, 7%Z) false [event_without_timestamp] empty_graph).1)
    = OF_TYPE empty_graph.
Proof.
  split; [reflexivity|]. split; [reflexivity|].
  exact (missing_timestamp_aborts_in_event_stage 1 (λ _, 7%Z) false
           [event_without_timestamp] empty_graph 0 event_without_timestamp
           eq_refl eq_refl).
Defined.

(** C10 (amended).  In a store with distinct Event identifiers and no
    repeated CONTAINS_EVENT relationship, the rows the sequence statement
    derives from one case give every event at most one successor and at most
    one predecessor.  When moreover every event is contained in one case only
    and no NEXT_EVENT relationship was there before, the NEXT_EVENT
    relationships of the store form chains within every case. *)
Theorem next_event_rows_form_chains g :
  event_id_unique g →
  NoDup (CONTAINS_EVENT g) →
  (∀ c e1 e2 e1' e2',
     (e1, e2, c) ∈ sequence_rows (match_rows g) →
     (e1', e2', c) ∈ sequence_rows (match_rows g) →
     (node_id e1 = node_id e1' → node_id e2 = node_id e2') ∧
     (node_id e2 = node_id e2' → node_id e1 = node_id e1')) ∧
  ((∀ c c' id, (c, id) ∈ CONTAINS_EVENT g → (c', id) ∈ CONTAINS_EVENT g → c = c') →
   NEXT_EVENT g = [] →
   ∀ c, case_chain (sequence_query g) c).
Proof.
  intros Hg Hedges.
  assert (∀ c e1 e2 e1' e2',
     (e1, e2, c) ∈ sequence_rows (match_rows g) →
     (e1', e2', c) ∈ sequence_rows (match_rows g) →
     (node_id e1 = node_id e1' → node_id e2 = node_id e2') ∧
     (node_id e2 = node_id e2' → node_id e1 = node_id e1')) as Hrows.
  { intros c e1 e2 e1' e2' [_ Hin]%elem_of_sequence_rows [_ Hin']%elem_of_sequence_rows.
    destruct (case_pairs_chain _ _ _ _ _ (case_events_NoDup g c Hg Hedges) Hin Hin').
    split; intros ?; f_equal; auto. }
  split; [done|].
  intros Hone Hnil c k k' d d' Hk Hk' _ _ _ _.
  apply NEXT_EVENT_sequence_query in Hk as [(e1 & e2 & c1 & Hin & Hedge)|[Hk _]];
    [|rewrite Hnil in Hk; by apply elem_of_nil in Hk].
  apply NEXT_EVENT_sequence_query in Hk' as [(e1' & e2' & c2 & Hin' & Hedge')|[Hk' _]];
    [|rewrite Hnil in Hk'; by apply elem_of_nil in Hk'].
  unfold edge_of in Hedge, Hedge'. simpl in *.
  injection Hedge as -> _. injection Hedge' as -> _. simpl.
  pose proof (sequence_row_in_store _ _ _ _ Hin) as (_ & (? & _) & (? & _)).
  pose proof (sequence_row_in_store _ _ _ _ Hin') as (_ & (? & _) & (? & _)).
  split; intros Hid.
  - assert (c1 = c2) as -> by (apply (Hone _ _ (node_id e1)); [done|by rewrite Hid]).
    by apply (Hrows c2 e1 e2 e1' e2').
  - assert (c1 = c2) as -> by (apply (Hone _ _ (node_id e2)); [done|by rewrite Hid]).
    by apply (Hrows c2 e1 e2 e1' e2').
Qed.

(** The store of scenario A, where every event has one case. *)
Lemma next_event_rows_form_chains_witness :
  event_id_unique (uploaded log_three_events) ∧
  NoDup (CONTAINS_EVENT (uploaded log_three_events)) ∧
  case_chain (sequence_query (uploaded log_three_events)) "c1".
Proof.
  assert (event_id_unique (uploaded log_three_events)) as Hg.
  { refine (bool_decide_unpack _ _). by vm_compute. }
  assert (NoDup (CONTAINS_EVENT (uploaded log_three_events))) as Hedges.
  { refine (bool_decide_unpack _ _). by vm_compute. }
  split; [exact Hg|]. split; [exact Hedges|].
  apply (proj2 (next_event_rows_form_chains _ Hg Hedges)); [|reflexivity].
  intros c c' id Hc Hc'.
  apply (bool_decide_pack _) in Hc, Hc'. vm_compute in Hc, Hc'.
  revert Hc Hc'. vm_compute.
  repeat (case_match; try done).
Defined.

(** Two input events named "a" put the Event node "a" into the cases c1 and
    c2; it gets the successor "b" from c1 and the successor "x" from c2, and
    both are events of c1. *)
Lemma event_in_two_cases_branches :
  ¬ case_chain (sequence_query (uploaded log_shared_events)) "c1".
Proof.
  intros Hchain.
  destruct (Hchain ("a", "b") ("a", "x") 1%Z 2%Z) as [Hout _];
    try (refine (bool_decide_unpack _ _); by vm_compute).
  by specialize (Hout eq_refl).
Qed.

(** * Further properties *)

(** ** Every store a run can produce *)

Lemma run_store_cases BATCH_SIZE utcnow closed_driver_raises events g :
  ∃ tr, Forall upsert_op tr ∧
    (store (run BATCH_SIZE utcnow closed_driver_raises events g).1 = replay tr g ∨
     closed_driver_raises = false ∧
     store (run BATCH_SIZE utcnow closed_driver_raises events g).1
       = sequence_query (replay tr g)).
Proof.
  destruct (stages_run_total BATCH_SIZE utcnow events
    [event_query; case_query; activity_query; resource_query; object_query])
    as (tr & r & Hrun).
  exists tr. split; [by eapply stages_run_upsert_op|].
  rewrite (run_unfold _ _ _ _ _ _ _ Hrun).
  destruct r as [e|[]]; [|destruct closed_driver_raises];
    cbn [fst close_driver extend initial store];
    rewrite replay_app, replay_schema_ops; auto.
Qed.

Lemma apply_writes_invariant (P : Graph → Prop) ops : ∀ g,
  (∀ query record g, P g → P (tx_run query record g)) →
  P g → P (apply_writes ops g).
Proof.
  intros g Hstep. revert g. induction ops as [|o ops IH]; intros g Hg; [done|].
  unfold apply_writes in *. simpl. by apply IH, Hstep.
Qed.

Lemma run_invariant (P : Graph → Prop) BATCH_SIZE utcnow closed_driver_raises events g :
  (∀ query record g, P g → P (tx_run query record g)) →
  (∀ g, P g → P (sequence_query g)) →
  P g → P (store (run BATCH_SIZE utcnow closed_driver_raises events g).1).
Proof.
  intros Hstep Hseq Hg.
  destruct (run_store_cases BATCH_SIZE utcnow closed_driver_raises events g)
    as (tr & Htr & [-> | [_ ->]]); rewrite replay_writes by done.
  - by apply apply_writes_invariant.
  - by apply Hseq, apply_writes_invariant.
Qed.

(** ** Uniqueness *)

Lemma NoDup_merge_sets_keys `{EqDecision K} {V} (us l : list (K * V)) :
  NoDup l.*1 → NoDup (merge_sets us l).*1.
Proof.
  revert l. induction us as [|u us IH]; intros l Hl; [done|].
  unfold merge_sets in *. simpl. apply IH. rewrite merge_set_keys. by apply NoDup_merge.
Qed.

Lemma tx_run_unique_keys query record g :
  unique_keys g → unique_keys (tx_run query record g).
Proof.
  unfold unique_keys. intros (?&?&?&?&?&?&?&?&?&?).
  destruct query, record; simpl; try done;
    try (destruct (match_event _ g); simpl; split_and!; try done; by apply NoDup_merge).
  split_and!; try done. rewrite merge_set_keys. by apply NoDup_merge.
Qed.

Lemma sequence_query_unique_keys g : unique_keys g → unique_keys (sequence_query g).
Proof.
  unfold unique_keys. intros (?&?&?&?&?&?&?&?&?&?).
  rewrite sequence_query_next_event. simpl. split_and!; try done.
  by apply (NoDup_merge_sets_keys (edge_of <$> sequence_rows (match_rows g))).
Qed.

(** X1.  A store without two nodes of the same key and without a relationship
    twice is such a store again after a run, whatever the log and however
    the run ends. *)
Theorem run_keeps_keys_unique BATCH_SIZE utcnow closed_driver_raises events g :
  unique_keys g →
  unique_keys (store (run BATCH_SIZE utcnow closed_driver_raises events g).1).
Proof.
  apply (run_invariant unique_keys).
  - intros. by apply tx_run_unique_keys.
  - apply sequence_query_unique_keys.
Qed.

(** The empty store, and the log of scenario A loaded into it. *)
Lemma run_keeps_keys_unique_witness :
  unique_keys empty_graph ∧
  unique_keys (store (run 2 (λ _, 0%Z) false log_three_events empty_graph).1).
Proof.
  assert (unique_keys empty_graph) as Hempty.
  { unfold unique_keys. simpl. split_and!; constructor. }
  split; [exact Hempty|].
  exact (run_keeps_keys_unique 2 (λ _, 0%Z) false log_three_events empty_graph Hempty).
Defined.

(** ** Relationships and their ends *)

Lemma tx_run_no_dangling query record g :
  no_dangling g → no_dangling (tx_run query record g).
Proof.
  unfold no_dangling. intros (Hce & Hot & Hpb & Hin & Hne).
  destruct query, record as [id ts act|id c|id act ts|id r|id oid oty]; simpl; try done.
  - assert (∀ id', id' ∈ (Event_nodes g).*1 →
              id' ∈ (merge_set id (ts, act) (Event_nodes g)).*1) as Hkeys.
    { intros id' Hid'. rewrite merge_set_keys. apply elem_of_merge. by right. }
    split_and!; intros ???; try intros ?; naive_solver.
  - destruct (match_event id g) eqn:Hm; [|done]. apply bool_decide_eq_true in Hm.
    simpl. split_and!; try done.
    intros c' id' [[= -> ->]|Hold]%elem_of_merge; rewrite elem_of_merge; naive_solver.
  - destruct (match_event id g) eqn:Hm; [|done]. apply bool_decide_eq_true in Hm.
    simpl. split_and!; try done.
    intros id' a [[= -> ->]|Hold]%elem_of_merge; rewrite elem_of_merge; naive_solver.
  - destruct (match_event id g) eqn:Hm; [|done]. apply bool_decide_eq_true in Hm.
    simpl. split_and!; try done.
    intros id' r' [[= -> ->]|Hold]%elem_of_merge; rewrite elem_of_merge; naive_solver.
  - destruct (match_event id g) eqn:Hm; [|done]. apply bool_decide_eq_true in Hm.
    simpl. split_and!; try done.
    intros id' o [[= -> ->]|Hold]%elem_of_merge; rewrite elem_of_merge; naive_solver.
Qed.

Lemma sequence_query_no_dangling g : no_dangling g → no_dangling (sequence_query g).
Proof.
  intros (Hce & Hot & Hpb & Hin & Hne).
  unfold no_dangling. split_and!;
    try (rewrite sequence_query_next_event; simpl; done).
  intros id1 id2 d [(e1 & e2 & c & Hrow & Hedge)|[Hold _]]%NEXT_EVENT_sequence_query.
  - apply sequence_row_in_store in Hrow as (_ & (_ & H1 & _) & (_ & H2 & _)).
    unfold edge_of in Hedge. simpl in Hedge. injection Hedge as -> -> _.
    rewrite sequence_query_next_event. simpl.
    split; by apply list_elem_of_fmap_2.
  - rewrite sequence_query_next_event. simpl. by eapply Hne.
Qed.

(** X2.  A store in which both ends of every relationship are nodes of the
    store is such a store again after a run, whatever the log and however
    the run ends. *)
Theorem run_leaves_no_dangling_relationship BATCH_SIZE utcnow closed_driver_raises events g :
  no_dangling g →
  no_dangling (store (run BATCH_SIZE utcnow closed_driver_raises events g).1).
Proof.
  apply (run_invariant no_dangling).
  - intros. by apply tx_run_no_dangling.
  - apply sequence_query_no_dangling.
Qed.

(** The empty store, and the log of scenario A loaded into it. *)
Lemma run_leaves_no_dangling_relationship_witness :
  no_dangling empty_graph ∧
  no_dangling (store (run 2 (λ _, 0%Z) false log_three_events empty_graph).1).
Proof.
  assert (no_dangling empty_graph) as Hempty.
  { unfold no_dangling. simpl. split_and!; intros; by apply elem_of_nil in H. }
  split; [exact Hempty|].
  exact (run_leaves_no_dangling_relationship 2 (λ _, 0%Z) false log_three_events
           empty_graph Hempty).
Defined.

(** ** Nothing is deleted *)

Lemma kept_refl g : kept g g.
Proof. unfold kept. split_and!; done. Qed.

Lemma kept_trans g1 g2 g3 : kept g1 g2 → kept g2 g3 → kept g1 g3.
Proof.
  unfold kept. intros (?&?&?&?&?&?&?&?&?&?) (?&?&?&?&?&?&?&?&?&?).
  split_and!; by etrans.
Qed.

Lemma tx_run_kept query record g : kept g (tx_run query record g).
Proof.
  destruct query, record; try apply kept_refl; simpl;
    try (destruct (match_event _ g); try apply kept_refl;
         unfold kept; simpl; split_and!; (done || apply merge_subseteq)).
  unfold kept. simpl. split_and!; try done.
  rewrite merge_set_keys. apply merge_subseteq.
Qed.

Lemma merge_sets_keys_subseteq `{EqDecision K} {V} (us l : list (K * V)) :
  l.*1 ⊆ (merge_sets us l).*1.
Proof. intros k Hk. apply merge_sets_keys. by right. Qed.

Lemma sequence_query_kept g : kept g (sequence_query g).
Proof.
  rewrite sequence_query_next_event. unfold kept. simpl. split_and!; try done.
  apply (merge_sets_keys_subseteq (edge_of <$> sequence_rows (match_rows g))).
Qed.

(** X3.  Whatever the log and whatever its outcome, a run deletes no node and no
    relationship: every node key and every relationship of the store it
    started from is still there when it ends. *)
Theorem run_deletes_nothing BATCH_SIZE utcnow closed_driver_raises events g :
  kept g (store (run BATCH_SIZE utcnow closed_driver_raises events g).1).
Proof.
  apply (run_invariant (kept g)).
  - intros query record g' Hg'. eapply kept_trans; [done|apply tx_run_kept].
  - intros g' Hg'. eapply kept_trans; [done|apply sequence_query_kept].
  - apply kept_refl.
Qed.

(** ** Sessions *)

Lemma bracketed_app tr1 tr2 : bracketed tr1 → bracketed tr2 → bracketed (tr1 ++ tr2).
Proof. induction 1; simpl; auto using bracketed_session, bracketed_driver. Qed.

Lemma bracketed_flush_ops query batch : bracketed (flush_ops query batch).
Proof. destruct batch; simpl; repeat constructor. Qed.

Lemma uploads_bracketed BATCH_SIZE utcnow query i events batch tr r :
  uploads BATCH_SIZE utcnow query i events batch tr r → bracketed tr.
Proof.
  induction 1; auto using bracketed_flush_ops, bracketed_app, bracketed_nil.
Qed.

Lemma stages_run_bracketed BATCH_SIZE utcnow events queries tr r :
  stages_run BATCH_SIZE utcnow events queries tr r → bracketed tr.
Proof.
  induction 1; eauto using uploads_bracketed, bracketed_app, bracketed_nil.
Qed.

Lemma schema_ops_bracketed : bracketed schema_ops.
Proof. unfold schema_ops. simpl. repeat constructor. Qed.

(** X4.  In every execution, whether it completes or raises, each session that is
    opened holds exactly one statement or one write transaction and is closed
    before anything else happens: sessions are never nested and never left
    open. *)
Theorem run_releases_every_session BATCH_SIZE utcnow closed_driver_raises events g :
  bracketed (trace (run BATCH_SIZE utcnow closed_driver_raises events g).1).
Proof.
  destruct (stages_run_total BATCH_SIZE utcnow events
    [event_query; case_query; activity_query; resource_query; object_query])
    as (tr & r & Hrun).
  rewrite (run_unfold _ _ _ _ _ _ _ Hrun).
  assert (bracketed ((schema_ops ++ tr) ++ [DriverClose])) as Hupsert.
  { apply bracketed_app; [apply bracketed_app|repeat constructor].
    - apply schema_ops_bracketed.
    - by eapply stages_run_bracketed. }
  destruct r as [e|[]]; [|destruct closed_driver_raises];
    cbn [fst close_driver extend initial trace app]; try done.
  apply bracketed_app; [done|]. repeat constructor.
Qed.

(** ** The stages and NEXT_EVENT *)

Lemma tx_run_NEXT_EVENT query record g :
  NEXT_EVENT (tx_run query record g) = NEXT_EVENT g.
Proof. destruct query, record; simpl; try done; by destruct (match_event _ g). Qed.

Lemma upserts_NEXT_EVENT BATCH_SIZE utcnow events tr r g :
  stages_run BATCH_SIZE utcnow events
    [event_query; case_query; activity_query; resource_query; object_query] tr r →
  NEXT_EVENT (replay (schema_ops ++ tr) g) = NEXT_EVENT g.
Proof.
  intros Hrun.
  rewrite replay_app, replay_schema_ops, replay_writes
    by (by eapply stages_run_upsert_op).
  apply (apply_writes_invariant (λ g', NEXT_EVENT g' = NEXT_EVENT g)); [|done].
  intros query record g' <-. apply tx_run_NEXT_EVENT.
Qed.

(** X5.  Steps 1 to 6 never touch a NEXT_EVENT relationship, whatever the log and
    whether they raise or not: when the driver is closed, the NEXT_EVENT
    relationships of the store are those it had before. *)
Theorem upserts_leave_NEXT_EVENT BATCH_SIZE utcnow closed_driver_raises events g :
  NEXT_EVENT
    (store (with_driver (upsert_stages BATCH_SIZE utcnow closed_driver_raises events)
              (initial g)).1) = NEXT_EVENT g.
Proof.
  destruct (stages_run_total BATCH_SIZE utcnow events
    [event_query; case_query; activity_query; resource_query; object_query])
    as (tr & r & Hrun).
  unfold with_driver.
  rewrite (upsert_stages_acts_as _ _ closed_driver_raises _ _ _ Hrun) by done.
  apply (upserts_NEXT_EVENT _ _ _ _ _ _ Hrun).
Qed.

(** X6.  A run that does not end normally, because an event lacks a key or
    because the driver refuses the session of step 7, leaves the NEXT_EVENT
    relationships of the store exactly as they were. *)
Theorem failed_run_leaves_NEXT_EVENT BATCH_SIZE utcnow closed_driver_raises events g :
  (run BATCH_SIZE utcnow closed_driver_raises events g).2 ≠ inr () →
  NEXT_EVENT (store (run BATCH_SIZE utcnow closed_driver_raises events g).1)
    = NEXT_EVENT g.
Proof.
  destruct (stages_run_total BATCH_SIZE utcnow events
    [event_query; case_query; activity_query; resource_query; object_query])
    as (tr & r & Hrun).
  pose proof (upserts_NEXT_EVENT _ _ _ _ _ g Hrun) as Hreplay.
  rewrite (run_unfold _ _ _ _ _ _ _ Hrun).
  destruct r as [e|[]]; [done|]. by destruct closed_driver_raises.
Qed.

(** Scenario A on a store that holds a NEXT_EVENT relationship, with a
    driver that refuses sessions once it is closed. *)
Lemma failed_run_leaves_NEXT_EVENT_witness :
  (run 2 (λ _, 0%Z) true log_three_events
     (with_NEXT_EVENT (λ _, [(("e1", "e3"), 25%Z)]) empty_graph)).2 ≠ inr () ∧
  NEXT_EVENT
    (store (run 2 (λ _, 0%Z) true log_three_events
              (with_NEXT_EVENT (λ _, [(("e1", "e3"), 25%Z)]) empty_graph)).1)
    = [(("e1", "e3"), 25%Z)].
Proof.
  assert ((run 2 (λ _, 0%Z) true log_three_events
             (with_NEXT_EVENT (λ _, [(("e1", "e3"), 25%Z)]) empty_graph)).2 ≠ inr ())
    as Hfail by (by vm_compute).
  split; [exact Hfail|].
  exact (failed_run_leaves_NEXT_EVENT 2 (λ _, 0%Z) true log_three_events _ Hfail).
Defined.

(** ** Which logs are accepted *)

Lemma uploads_all_records BATCH_SIZE utcnow query i events batch tr r :
  uploads BATCH_SIZE utcnow query i events batch tr r →
  r = all_records utcnow query i events ≫= λ _, inr ().
Proof.
  induction 1 as [i batch|i ev events batch e Hrec
                 |i ev events batch new tr r Hrec Hle _ IH
                 |i ev events batch new tr r Hrec Hlt _ IH]; simpl.
  - done.
  - by rewrite Hrec.
  - rewrite Hrec, IH. simpl. by destruct (all_records utcnow query (S i) events).
  - rewrite Hrec, IH. simpl. by destruct (all_records utcnow query (S i) events).
Qed.

Lemma object_records_of_inr event objs :
  (∃ new, object_records_of event objs = inr new) ↔
  objs = [] ∨ is_Some (ocel_id event) ∧ Forall complete_object objs.
Proof.
  induction objs as [|obj objs IH]; simpl.
  { split; eauto. }
  split.
  - intros [new Hnew]. right.
    destruct (ocel_id event) as [id|] eqn:Hid; [|done]. simpl in Hnew.
    destruct (obj_id obj) as [oid|] eqn:Hoid; [|done]. simpl in Hnew.
    destruct (obj_type obj) as [oty|] eqn:Hoty; [|done]. simpl in Hnew.
    destruct (object_records_of event objs) as [|rest] eqn:Hrest; [done|].
    split; [done|]. constructor.
    + unfold complete_object. rewrite Hoid, Hoty. eauto.
    + destruct (proj1 IH) as [->|[_ ?]]; eauto.
  - intros [[=]|[[id Hid] [[[oid Hoid] [oty Hoty]] Hobjs]%Forall_cons]].
    rewrite Hid, Hoid, Hoty. simpl.
    destruct (proj2 IH) as [rest ->]; [|simpl; eauto].
    right. rewrite Hid. eauto.
Qed.

Lemma complete_event_records utcnow event :
  complete_event event ↔
  ∀ query, ∃ new, stage_records utcnow query 0 event = inr new.
Proof.
  unfold complete_event. split.
  - intros ([id Hid] & [ts Hts] & [act Hact] & [attrs Hattrs] & Hobjs) query.
    destruct query; simpl;
      unfold event_records, case_records, activity_records, resource_records,
        object_records;
      rewrite ?Hid, ?Hts, ?Hact, ?Hattrs; simpl; eauto.
    + destruct (attrs !! "case_id"); simpl; eauto.
    + destruct (attrs !! "resource"); simpl; eauto.
    + apply object_records_of_inr. right. rewrite Hid. eauto.
  - intros Hall.
    destruct (Hall event_query) as [? (id & ts & act & Hid & Hts & Hact & _)%event_records_inr].
    destruct (Hall case_query) as [new Hcase]. simpl in Hcase. unfold case_records in Hcase.
    destruct (ocel_attributes event) as [attrs|] eqn:Hattrs; [|done].
    rewrite Hid, Hts, Hact. split_and!; eauto.
    destruct (proj1 (object_records_of_inr event (default [] (ocel_objects event)))
                (Hall object_query)) as [->|[_ ?]]; [constructor|done].
Qed.

Lemma stage_records_inr_index utcnow query i j event :
  (∃ new, stage_records utcnow query i event = inr new) →
  ∃ new, stage_records utcnow query j event = inr new.
Proof.
  destruct query; simpl; try done.
  unfold activity_records.
  destruct (ocel_id event); [|by intros [? ?]].
  destruct (ocel_activity event); [|by intros [? ?]].
  simpl. eauto.
Qed.

Lemma all_records_inr utcnow query events : ∀ i,
  (∃ recs, all_records utcnow query i events = inr recs) ↔
  Forall (λ event, ∃ new, stage_records utcnow query 0 event = inr new) events.
Proof.
  induction events as [|event events IH]; intros i; simpl.
  { split; [constructor|eauto]. }
  rewrite Forall_cons, <-(IH (S i)). split.
  - intros [recs Hrecs].
    destruct (stage_records utcnow query i event) as [|new] eqn:Hnew; [done|].
    simpl in Hrecs.
    destruct (all_records utcnow query (S i) events) as [|rest]; [done|].
    split; [|eauto]. apply (stage_records_inr_index utcnow query i 0). eauto.
  - intros [Hev [rest ->]].
    destruct (stage_records_inr_index utcnow query 0 i event Hev) as [new ->].
    simpl. eauto.
Qed.

Lemma all_records_complete utcnow events :
  Forall complete_event events ↔
  ∀ query, ∃ recs, all_records utcnow query 0 events = inr recs.
Proof.
  split.
  - intros Hall query. apply all_records_inr.
    eapply Forall_impl; [done|]. intros event Hev. simpl in Hev.
    by apply (complete_event_records utcnow).
  - intros Hall. apply Forall_forall. intros event Hin.
    apply (complete_event_records utcnow). intros query.
    specialize (Hall query). apply all_records_inr in Hall.
    rewrite Forall_forall in Hall. by apply Hall.
Qed.

Lemma stages_run_inr BATCH_SIZE utcnow events (queries : list Query) tr r :
  stages_run BATCH_SIZE utcnow events queries tr r →
  r = inr () ↔
  ∀ query, query ∈ queries → ∃ recs, all_records utcnow query 0 events = inr recs.
Proof.
  induction 1 as [|query queries tr e Hup|query queries tr tr' r Hup _ IH].
  - split; [|done]. by intros _ query ?%elem_of_nil.
  - apply uploads_all_records in Hup. split; [done|]. intros Hall.
    destruct (Hall query) as [recs Hrecs]; [by left|]. by rewrite Hrecs in Hup.
  - apply uploads_all_records in Hup. rewrite IH. split.
    + intros Hall query' [->|Hin]%elem_of_cons; [|by apply Hall].
      destruct (all_records utcnow query 0 events); [done|eauto].
    + intros Hall query' Hin. apply Hall. by right.
Qed.

(** X7.  A run ends without [KeyError] exactly when every event of the log has an
    identifier, a timestamp, an activity and an attribute map, and every
    object listed for an event has an id and a type; a log with any other
    event stops the script. *)
Theorem run_accepts_complete_logs BATCH_SIZE utcnow closed_driver_raises events g :
  (∀ k, (run BATCH_SIZE utcnow closed_driver_raises events g).2 ≠ inl (KeyError k)) ↔
  Forall complete_event events.
Proof.
  destruct (stages_run_total BATCH_SIZE utcnow events
    [event_query; case_query; activity_query; resource_query; object_query])
    as (tr & r & Hrun).
  rewrite (run_unfold _ _ _ _ _ _ _ Hrun).
  pose proof (stages_run_inr _ _ _ _ _ _ Hrun) as Hinr.
  rewrite (all_records_complete utcnow). split.
  - intros Hok query. apply Hinr; [|destruct query; set_solver].
    destruct r as [e|[]]; [|done].
    destruct (stages_run_inl _ _ _ _ _ _ Hrun) as [k ->]. by destruct (Hok k).
  - intros Hall k. assert (r = inr ()) as -> by (apply Hinr; auto).
    by destruct closed_driver_raises.
Qed.

(** ** The batch size and the result *)




(** ** What is written when a stage raises *)

Lemma uploads_raise_prefix BATCH_SIZE utcnow query i events batch tr e :
  uploads BATCH_SIZE utcnow query i events batch tr (inl e) →
  ∃ pre event post recs lost,
    events = pre ++ event :: post ∧
    all_records utcnow query i pre = inr recs ∧
    stage_records utcnow query (i + length pre) event = inl e ∧
    pair query <$> (batch ++ recs) = writes tr ++ (pair query <$> lost).
Proof.
  intros Hup. remember (inl e) as r eqn:Hr.
  induction Hup as [i batch|i ev events batch e' Hrec
                   |i ev events batch new tr r Hrec Hle _ IH
                   |i ev events batch new tr r Hrec Hlt _ IH]; try done.
  - injection Hr as ->. exists [], ev, events, [], batch.
    simpl. rewrite Nat.add_0_r, app_nil_r. done.
  - destruct (IH Hr) as (pre & event & post & recs & lost & -> & Hrecs & Hev & Hw).
    exists (ev :: pre), event, post, (new ++ recs), lost. simpl.
    rewrite Hrec, Hrecs, <-Nat.add_succ_comm. split_and!; try done.
    rewrite writes_app, writes_flush_ops, <-app_assoc, <-Hw. simpl.
    by rewrite <-fmap_app, <-app_assoc.
  - destruct (IH Hr) as (pre & event & post & recs & lost & -> & Hrecs & Hev & Hw).
    exists (ev :: pre), event, post, (new ++ recs), lost. simpl.
    rewrite Hrec, Hrecs, <-Nat.add_succ_comm. split_and!; try done.
    by rewrite <-Hw, <-app_assoc.
Qed.

Lemma writes_of_stage query tr :
  Forall (stage_op query) tr → writes tr = pair query <$> (writes tr).*2.
Proof.
  intros Hq%writes_stage_op. induction Hq as [|[q p] ops Ho _ IH]; [done|].
  simpl in Ho. subst. rewrite !fmap_cons. simpl. by f_equal.
Qed.

(** X9.  A stage that raises stops at the first event that lacks a key: the
    events before it gave their records, and what is in the store is the
    effect of an initial part of those records, in log order; the rest of
    them was still waiting in the batch and is lost, and nothing of the
    failing event or of a later event is written. *)
Theorem stage_raise_writes_a_prefix BATCH_SIZE utcnow closed_driver_raises query events g e :
  (stage BATCH_SIZE utcnow closed_driver_raises query events (initial g)).2 = inl e →
  ∃ pre event post recs written lost,
    events = pre ++ event :: post ∧
    all_records utcnow query 0 pre = inr recs ∧
    stage_records utcnow query (length pre) event = inl e ∧
    recs = written ++ lost ∧
    store (stage BATCH_SIZE utcnow closed_driver_raises query events (initial g)).1
      = foldl (λ g record, tx_run query record g) g written.
Proof.
  destruct (uploads_total BATCH_SIZE utcnow query events 0 []) as (tr & r & Hup).
  unfold stage. rewrite (uploads_acts_as _ _ closed_driver_raises _ _ _ _ _ _ Hup) by done.
  cbn [fst snd extend initial store]. intros ->.
  pose proof (uploads_stage_op _ _ _ _ _ _ _ _ Hup) as Hops.
  destruct (uploads_raise_prefix _ _ _ _ _ _ _ _ Hup)
    as (pre & event & post & recs & lost & -> & Hrecs & Hev & Hw).
  rewrite (writes_of_stage _ _ Hops), <-fmap_app in Hw. simpl in Hw.
  apply (inj (fmap (pair query))) in Hw.
  exists pre, event, post, recs, (writes tr).*2, lost.
  split_and!; try done.
  rewrite (uploads_acts_as _ _ closed_driver_raises _ _ _ _ _ _ Hup) by done.
  cbn [fst extend initial store].
  rewrite replay_writes by (eapply Forall_impl; [done|]; apply stage_op_upsert_op).
  rewrite (writes_of_stage _ _ Hops) at 1. apply apply_writes_batch.
Qed.

(** An event without timestamp after the three events of scenario A. *)
Lemma stage_raise_writes_a_prefix_witness :
  (stage 2 (λ _, 0%Z) false event_query
     (log_three_events ++ [event_without_timestamp]) (initial empty_graph)).2
    = inl (KeyError "ocel:timestamp") ∧
  ∃ pre event post recs written lost,
    log_three_events ++ [event_without_timestamp] = pre ++ event :: post ∧
    all_records (λ _, 0%Z) event_query 0 pre = inr recs ∧
    stage_records (λ _, 0%Z) event_query (length pre) event
      = inl (KeyError "ocel:timestamp") ∧
    recs = written ++ lost ∧
    store (stage 2 (λ _, 0%Z) false event_query
             (log_three_events ++ [event_without_timestamp]) (initial empty_graph)).1
      = foldl (λ g record, tx_run event_query record g) empty_graph written.
Proof.
  assert ((stage 2 (λ _, 0%Z) false event_query
             (log_three_events ++ [event_without_timestamp]) (initial empty_graph)).2
            = inl (KeyError "ocel:timestamp")) as Hraise by reflexivity.
  split; [exact Hraise|].
  exact (stage_raise_writes_a_prefix 2 (λ _, 0%Z) false event_query
           (log_three_events ++ [event_without_timestamp]) empty_graph _ Hraise).
Defined.

(** ** The chain of a case without ties *)

Lemma length_bind_singletons {A B} (f : A → list B) (l : list A) :
  (∀ x, x ∈ l → length (f x) = 1) → length (l ≫= f) = length l.
Proof.
  induction l as [|x l IH]; intros Hf; [done|].
  rewrite bind_cons, length_app, Hf, IH; [done| |by left].
  intros y Hy. apply Hf. by right.
Qed.

Lemma length_unwind events : length (unwind events) = length events - 1.
Proof.
  unfold unwind. rewrite length_bind_singletons; [by rewrite length_seq|].
  intros i [_ Hi]%elem_of_seq.
  destruct (lookup_lt_is_Some_2 events i) as [e1 ->]; [lia|].
  destruct (lookup_lt_is_Some_2 events (S i)) as [e2 ->]; [lia|]. done.
Qed.

Lemma filter_all {A} (P : A → Prop) `{∀ x, Decision (P x)} (l : list A) :
  Forall P l → filter P l = l.
Proof.
  induction 1 as [|x l Hx _ IH]; [done|]. by rewrite filter_cons_True, IH.
Qed.

(** X10.  In a store with distinct Event identifiers, a case none of whose events
    share a timestamp gets a row for every adjacent pair of its sorted
    events: one row less than it has events, so the chain visits all of them
    without a gap. *)
Theorem distinct_timestamps_give_a_complete_chain g c events :
  event_id_unique g →
  (c, events) ∈ collect (order_by (match_rows g)) →
  NoDup (timestamp <$> events) →
  case_pairs events = unwind events ∧
  length (case_pairs events) = length events - 1 ∧
  ∀ i e1 e2, events !! i = Some e1 → events !! S i = Some e2 →
    (timestamp e1 < timestamp e2)%Z ∧ (e1, e2, c) ∈ sequence_rows (match_rows g).
Proof.
  intros Hg [Hc ->]%elem_of_collect Hnd.
  set (events := (filter (λ r, r.2 = c) (order_by (match_rows g))).*1) in *.
  assert (StronglySorted (λ e1 e2, (timestamp e1 ≤ timestamp e2)%Z) events) as Hsorted.
  { apply case_events_sorted, order_by_sorted. }
  assert (∀ i e1 e2, events !! i = Some e1 → events !! S i = Some e2 →
            (timestamp e1 < timestamp e2)%Z ∧ node_id e1 ≠ node_id e2) as Hadj.
  { intros i e1 e2 H1 H2.
    assert (timestamp e1 ≤ timestamp e2)%Z as Hle.
    { rewrite <-(take_drop (S i) events) in Hsorted.
      apply (StronglySorted_app_1_elem_of _ _ _ _ _ Hsorted).
      - apply elem_of_take. exists i. split; [done|lia].
      - apply list_elem_of_lookup. exists 0. by rewrite lookup_drop, Nat.add_0_r. }
    assert (timestamp e1 ≠ timestamp e2) as Hne.
    { intros Heq.
      assert (i = S i); [|lia].
      apply (NoDup_lookup _ _ _ (timestamp e1) Hnd); rewrite list_lookup_fmap.
      - by rewrite H1.
      - by rewrite H2, Heq. }
    split; [lia|]. intros Hid. apply Hne. f_equal.
    apply (event_id_unique_eq g); try done;
      eapply case_event_in_store, list_elem_of_lookup_2; done. }
  assert (case_pairs events = unwind events) as Hall.
  { unfold case_pairs. apply filter_all, Forall_forall.
    intros [e1 e2] (i & H1 & H2)%elem_of_unwind. by eapply Hadj. }
  split_and!; [done|by rewrite Hall, length_unwind|].
  intros i e1 e2 H1 H2. split; [by eapply Hadj|].
  apply elem_of_sequence_rows. split; [by rewrite <-(order_by_Permutation (match_rows g))|].
  fold events. rewrite Hall. apply elem_of_unwind. eauto.
Qed.

(** Scenario A. *)
Lemma distinct_timestamps_give_a_complete_chain_witness :
  event_id_unique (uploaded log_three_events) ∧
  length (case_pairs [("e1", (10%Z, "A")); ("e2", (20%Z, "A")); ("e3", (35%Z, "A"))]) = 2.
Proof.
  assert (event_id_unique (uploaded log_three_events)) as Hg.
  { refine (bool_decide_unpack _ _). by vm_compute. }
  assert (("c1", [("e1", (10%Z, "A")); ("e2", (20%Z, "A")); ("e3", (35%Z, "A"))])
            ∈ collect (order_by (match_rows (uploaded log_three_events)))) as Hin.
  { refine (bool_decide_unpack _ _). by vm_compute. }
  assert (NoDup (timestamp <$>
            [("e1", (10%Z, "A")); ("e2", (20%Z, "A")); ("e3", (35%Z, "A"))])) as Hnd.
  { refine (bool_decide_unpack _ _). by vm_compute. }
  split; [exact Hg|].
  exact (proj1 (proj2 (distinct_timestamps_give_a_complete_chain _ _ _ Hg Hin Hnd))).
Defined.

(** ** The groups a stage writes *)

Lemma batches_app tr1 tr2 : batches (tr1 ++ tr2) = batches tr1 ++ batches tr2.
Proof. apply bind_app. Qed.

Lemma batches_flush_ops query batch :
  batches (flush_ops query batch) = match batch with [] => [] | _ => [batch] end.
Proof. by destruct batch. Qed.

Lemma writes_batches tr : (writes tr).*2 = concat (batches tr).
Proof.
  induction tr as [|op tr IH]; [done|].
  unfold writes, batches in *. cbn [mbind list_bind].
  rewrite fmap_app, concat_app, IH. f_equal.
  destruct op; try done. simpl. rewrite app_nil_r, <-list_fmap_compose.
  apply list_fmap_id.
Qed.

Lemma uploads_full_batches BATCH_SIZE utcnow query i events batch tr r :
  (1 ≤ BATCH_SIZE)%Z → query ≠ object_query →
  uploads BATCH_SIZE utcnow query i events batch tr r →
  (Z.of_nat (length batch) < BATCH_SIZE)%Z →
  ∃ full last, batches tr = full ++ last ∧
    Forall (λ b, Z.of_nat (length b) = BATCH_SIZE) full ∧
    (last = [] ∨
     ∃ b, last = [b] ∧ (0 < Z.of_nat (length b) < BATCH_SIZE)%Z ∧ r = inr ()).
Proof.
  intros HB Hq Hup.
  induction Hup as [i batch|i ev events batch e Hrec
                   |i ev events batch new tr r Hrec Hle _ IH
                   |i ev events batch new tr r Hrec Hlt _ IH]; intros Hlen.
  - exists []. rewrite batches_flush_ops. destruct batch as [|p batch].
    + exists []. split_and!; auto.
    + exists [p :: batch]. split_and!; [done|constructor|]. right.
      exists (p :: batch). split_and!; try done; simpl; lia.
  - exists [], []. split_and!; auto.
  - destruct IH as (full & last & Hb & Hfull & Hlast); [simpl; lia|].
    assert (length new ≤ 1) as Hnew.
    { pose proof (stage_records_length utcnow query i ev new _ (le_n _) Hrec) as Hl.
      by rewrite decide_False in Hl. }
    exists ((batch ++ new) :: full), last.
    rewrite batches_app, batches_flush_ops, Hb.
    rewrite length_app in Hle.
    destruct (batch ++ new) as [|p rest] eqn:Hbn.
    { apply (f_equal length) in Hbn. rewrite length_app in Hbn. simpl in Hbn. lia. }
    split_and!; [done| |done]. constructor; [|done].
    rewrite <-Hbn, length_app. lia.
  - apply IH. lia.
Qed.

(** X11.  In a stage that adds at most one record per event (every stage but the
    Object stage), with a batch size of at least one, the write transactions
    carry exactly [BATCH_SIZE] records each, but for the last one, which
    carries the remainder and is only written when no event raised; when no
    event raises, the groups are the records of the log cut in log order. *)
Theorem stage_writes_full_batches BATCH_SIZE utcnow closed_driver_raises query events g :
  (1 ≤ BATCH_SIZE)%Z → query ≠ object_query →
  ∃ full last,
    batches (trace (stage BATCH_SIZE utcnow closed_driver_raises query events (initial g)).1)
      = full ++ last ∧
    Forall (λ b, Z.of_nat (length b) = BATCH_SIZE) full ∧
    (last = [] ∨
     ∃ b, last = [b] ∧ (0 < Z.of_nat (length b) < BATCH_SIZE)%Z ∧
       (stage BATCH_SIZE utcnow closed_driver_raises query events (initial g)).2 = inr ()) ∧
    ∀ recs, all_records utcnow query 0 events = inr recs → concat (full ++ last) = recs.
Proof.
  intros HB Hq.
  destruct (uploads_total BATCH_SIZE utcnow query events 0 []) as (tr & r & Hup).
  unfold stage. rewrite (uploads_acts_as _ _ closed_driver_raises _ _ _ _ _ _ Hup) by done.
  cbn [fst snd extend initial trace app].
  destruct (uploads_full_batches _ _ _ _ _ _ _ _ HB Hq Hup) as (full & last & Hb & Hfull & Hlast);
    [simpl; lia|].
  exists full, last. split_and!; try done.
  intros recs Hrecs.
  pose proof (uploads_all_records _ _ _ _ _ _ _ _ Hup) as Hr.
  rewrite Hrecs in Hr. simpl in Hr. subst r.
  destruct (uploads_writes _ _ _ _ _ _ _ Hup) as (recs' & Hrecs' & Hw).
  rewrite Hrecs in Hrecs'. injection Hrecs' as <-.
  rewrite <-Hb, <-writes_batches, Hw. simpl.
  rewrite <-list_fmap_compose. apply list_fmap_id.
Qed.

(** Scenario A: three events with a batch size of 2 give a group of two Event
    records and a group of one. *)
Lemma stage_writes_full_batches_witness :
  ∃ full last,
    batches (trace (stage 2 (λ _, 0%Z) false event_query log_three_events
                      (initial empty_graph)).1) = full ++ last ∧
    Forall (λ b, Z.of_nat (length b) = 2%Z) full ∧
    (last = [] ∨
     ∃ b, last = [b] ∧ (0 < Z.of_nat (length b) < 2)%Z ∧
       (stage 2 (λ _, 0%Z) false event_query log_three_events (initial empty_graph)).2
         = inr ()) ∧
    ∀ recs, all_records (λ _, 0%Z) event_query 0 log_three_events = inr recs →
      concat (full ++ last) = recs.
Proof.
  apply (stage_writes_full_batches 2 (λ _, 0%Z) false event_query log_three_events empty_graph);
    [lia|done].
Defined.

(** ** The clock *)


(** ** A batch size of zero or less *)

Lemma uploads_per_event BATCH_SIZE utcnow query i events batch tr r :
  (BATCH_SIZE ≤ 0)%Z →
  uploads BATCH_SIZE utcnow query i events batch tr r →
  batch = [] →
  Forall (λ b, ∃ j event, events !! j = Some event ∧
            stage_records utcnow query (i + j) event = inr b) (batches tr).
Proof.
  intros HB.
  induction 1 as [i batch|i ev events batch e Hrec
                 |i ev events batch new tr r Hrec Hle _ IH
                 |i ev events batch new tr r Hrec Hlt _ IH]; intros ->.
  - constructor.
  - constructor.
  - rewrite batches_app, batches_flush_ops. apply Forall_app. split.
    + destruct new as [|p new]; constructor; [|constructor].
      exists 0, ev. by rewrite Nat.add_0_r.
    + eapply Forall_impl; [by apply IH|]. intros b (j & event & Hj & Hb).
      exists (S j), event. by rewrite <-Nat.add_succ_comm.
  - destruct Hlt. lia.
Qed.

(** X13.  With a batch size of zero or less the length test holds after every
    event: each write transaction carries the records of one event, and an
    event without records gives no transaction. *)
Theorem nonpositive_batch_size_writes_event_by_event
    BATCH_SIZE utcnow closed_driver_raises query events g :
  (BATCH_SIZE ≤ 0)%Z →
  Forall (λ b, b ≠ [] ∧ ∃ j event, events !! j = Some event ∧
            stage_records utcnow query j event = inr b)
    (batches (trace (stage BATCH_SIZE utcnow closed_driver_raises query events
                       (initial g)).1)).
Proof.
  intros HB.
  destruct (uploads_total BATCH_SIZE utcnow query events 0 []) as (tr & r & Hup).
  unfold stage. rewrite (uploads_acts_as _ _ closed_driver_raises _ _ _ _ _ _ Hup) by done.
  cbn [fst extend initial trace app].
  apply Forall_and. split.
  - pose proof (uploads_stage_op _ _ _ _ _ _ _ _ Hup) as Hops.
    clear Hup. induction Hops as [|op tr Hop _ IH]; [constructor|].
    unfold batches in *. cbn [mbind list_bind]. apply Forall_app. split; [|done].
    destruct op; try constructor; [|constructor]. by destruct Hop.
  - by apply (uploads_per_event _ _ _ _ _ _ _ _ HB Hup).
Qed.

(** The three events of scenario A with a batch size of 0. *)
Lemma nonpositive_batch_size_witness :
  (0 ≤ 0)%Z ∧
  Forall (λ b, b ≠ [] ∧ ∃ j event, log_three_events !! j = Some event ∧
            stage_records (λ _, 0%Z) event_query j event = inr b)
    (batches (trace (stage 0 (λ _, 0%Z) false event_query log_three_events
                       (initial empty_graph)).1)).
Proof.
  split; [lia|].
  apply (nonpositive_batch_size_writes_event_by_event 0 (λ _, 0%Z) false event_query
           log_three_events empty_graph).
  lia.
Defined.

(** ** The properties of an Event node *)

Lemma elem_of_merge_sets `{EqDecision K} {V} (us : list (K * V)) : ∀ l k v,
  (k, v) ∈ merge_sets us l ↔
    (∃ pre post, us = pre ++ (k, v) :: post ∧ k ∉ post.*1) ∨
    ((k, v) ∈ l ∧ k ∉ us.*1).
Proof.
  induction us as [|u us IH] using rev_ind; intros l k v.
  { unfold merge_sets. simpl. split.
    - intros Hin. right. split; [done|]. apply not_elem_of_nil.
    - intros [(pre & post & Heq & _)|[Hin _]]; [by destruct pre|done]. }
  unfold merge_sets in *. rewrite foldl_app. simpl.
  rewrite elem_of_merge_set, IH. split.
  - intros [[-> ->]|[Hne [(pre & post & -> & Hpost)|[Hin Hk]]]].
    + left. exists us, []. split; [by destruct u|]. apply not_elem_of_nil.
    + left. exists pre, (post ++ [u]). split; [by rewrite <-app_assoc|].
      rewrite fmap_app, not_elem_of_app. split; [done|].
      simpl. by rewrite list_elem_of_singleton.
    + right. split; [done|]. rewrite fmap_app, not_elem_of_app. split; [done|].
      simpl. by rewrite list_elem_of_singleton.
  - intros [(pre & post & Heq & Hpost)|[Hin Hk]].
    + destruct post as [|p post _] using rev_ind.
      * apply app_inj_tail in Heq as [-> ->]. by left.
      * rewrite app_comm_cons, app_assoc in Heq. apply app_inj_tail in Heq as [-> ->].
        rewrite fmap_app, not_elem_of_app in Hpost. destruct Hpost as [Hpost Hne].
        simpl in Hne. rewrite list_elem_of_singleton in Hne.
        right. split; [done|]. left. eauto.
    + rewrite fmap_app, not_elem_of_app in Hk. destruct Hk as [Hk Hne].
      simpl in Hne. rewrite list_elem_of_singleton in Hne. right. split; [done|]. by right.
Qed.

Lemma writes_stages_run (queries : list Query) tr :
  Forall (λ op, ∃ query, query ∈ queries ∧ stage_op query op) tr →
  Forall (λ o, o.1 ∈ queries) (writes tr).
Proof.
  induction 1 as [|op tr (query & Hin & Hop) _ IH]; [constructor|].
  unfold writes in *. cbn [mbind list_bind]. apply Forall_app. split; [|done].
  destruct op; try constructor. destruct Hop as [-> _].
  apply Forall_fmap, Forall_true. done.
Qed.

Lemma event_stage_records utcnow events i :
  Forall (λ event, is_Some (event_node_of event)) events →
  ∃ recs, all_records utcnow event_query i events = inr recs.
Proof.
  intros Hall. apply all_records_inr. eapply Forall_impl; [done|].
  intros event [node Hnode]. simpl. unfold event_node_of, event_records in *.
  destruct (ocel_id event); [|done]. destruct (ocel_timestamp event); [|done].
  destruct (ocel_activity event); [|done]. simpl. eauto.
Qed.

Lemma run_Event_nodes BATCH_SIZE utcnow closed_driver_raises events g recs :
  all_records utcnow event_query 0 events = inr recs →
  Event_nodes (store (run BATCH_SIZE utcnow closed_driver_raises events g).1)
    = merge_sets (omap event_update (pair event_query <$> recs)) (Event_nodes g).
Proof.
  intros Hrecs.
  destruct (stages_run_total BATCH_SIZE utcnow events
    [event_query; case_query; activity_query; resource_query; object_query])
    as (tr & r & Hrun).
  rewrite (run_unfold _ _ _ _ _ _ _ Hrun).
  assert (Event_nodes (replay tr g)
            = merge_sets (omap event_update (pair event_query <$> recs)) (Event_nodes g))
    as Hev.
  { inversion Hrun as [|?? tr1 e Hup|?? tr1 tr2 ? Hup Hrest]; subst.
    { apply uploads_all_records in Hup. by rewrite Hrecs in Hup. }
    pose proof (uploads_stage_op _ _ _ _ _ _ _ _ Hup) as Hops1.
    apply uploads_writes in Hup as (recs' & Hrecs' & Hw).
    rewrite Hrecs in Hrecs'. injection Hrecs' as <-. simpl in Hw.
    rewrite replay_app.
    rewrite (replay_writes tr2) by (by eapply stages_run_upsert_op).
    rewrite apply_writes_Event_nodes.
    - rewrite replay_writes by (eapply Forall_impl; [done|]; apply stage_op_upsert_op).
      rewrite Hw, apply_writes_events by apply Forall_pair_query. done.
    - eapply Forall_impl; [eapply writes_stages_run, stages_run_stage_op; done|].
      intros o Ho. simpl in Ho. intros Heq. rewrite Heq in Ho. set_solver. }
  destruct r as [e|[]]; [|destruct closed_driver_raises];
    cbn [fst close_driver extend initial store];
    rewrite ?replay_app, ?replay_schema_ops; try done.
  cbn [replay foldl replay_op].
  destruct (sequence_query_grows (replay tr g)) as [-> _]. done.
Qed.

Lemma fmap_Some_split {A B} (f : A → option B) (l : list A) pre y post :
  f <$> l = Some <$> (pre ++ y :: post) →
  ∃ pre' x post', l = pre' ++ x :: post' ∧ f x = Some y ∧
    f <$> pre' = Some <$> pre ∧ f <$> post' = Some <$> post.
Proof.
  rewrite fmap_app, fmap_cons.
  intros (pre' & rest & Hpre & Hrest & ->)%fmap_app_inv. symmetry in Hrest.
  apply fmap_cons_inv in Hrest as (x & post' & Hx & Hpost & ->).
  exists pre', x, post'. done.
Qed.

(** X14.  When every event of the log has an identifier, a timestamp and an
    activity, an Event node of the store after the run carries the timestamp
    and activity of the last event of the log that has its identifier, and
    there is such a node for every identifier of the log; the Event nodes
    whose identifier the log does not mention are those of the store before
    the run, with the properties they had. *)
Theorem last_event_sets_the_properties
    BATCH_SIZE utcnow closed_driver_raises events g id props :
  Forall (λ event, is_Some (event_node_of event)) events →
  (id, props) ∈ Event_nodes (store (run BATCH_SIZE utcnow closed_driver_raises events g).1) ↔
    (∃ pre event post, events = pre ++ event :: post ∧
       event_node_of event = Some (id, props) ∧
       Forall (λ later, ocel_id later ≠ Some id) post) ∨
    ((id, props) ∈ Event_nodes g ∧ Some id ∉ ocel_id <$> events).
Proof.
  intros Hall.
  destruct (event_stage_records utcnow events 0 Hall) as [recs Hrecs].
  rewrite (run_Event_nodes _ _ _ _ _ _ Hrecs).
  apply all_records_event in Hrecs.
  set (nodes := omap event_update (pair event_query <$> recs)) in *.
  pose proof (event_node_of_ids _ _ Hrecs) as Hids.
  assert (∀ (l : list Event) (ns : list EventNode),
            event_node_of <$> l = Some <$> ns →
            id ∉ ns.*1 ↔ Forall (λ later, ocel_id later ≠ Some id) l) as Hnot.
  { intros l ns Hl. apply event_node_of_ids in Hl.
    rewrite Forall_forall. split.
    - intros Hid later Hin Heq. apply Hid.
      assert (Some id ∈ Some <$> ns.*1) as Hs.
      { rewrite <-Hl, <-Heq. by apply list_elem_of_fmap_2. }
      apply list_elem_of_fmap in Hs as (id' & [= <-] & Hs). done.
    - intros Hl' Hid.
      assert (Some id ∈ ocel_id <$> l) as Hs.
      { rewrite Hl. by apply list_elem_of_fmap_2. }
      apply list_elem_of_fmap in Hs as (later & Heq & Hin). by apply (Hl' later). }
  rewrite elem_of_merge_sets. split.
  - intros [(pre & post & Heq & Hpost)|[Hin Hid]].
    + left. rewrite Heq in Hrecs.
      apply fmap_Some_split in Hrecs as (pre' & event & post' & -> & Hev & _ & Hpost').
      exists pre', event, post'. split_and!; [done..|]. by apply (Hnot post' post).
    + right. split; [done|]. rewrite Hids. intros Hs.
      apply list_elem_of_fmap in Hs as (id' & [= <-] & Hs). done.
  - intros [(pre & event & post & -> & Hev & Hpost)|[Hin Hid]].
    + left. symmetry in Hrecs. rewrite fmap_app, fmap_cons in Hrecs.
      apply fmap_app_inv in Hrecs as (pre' & rest & Hpre & Hrest & ->).
      symmetry in Hrest.
      apply fmap_cons_inv in Hrest as (node & post' & Hnode & Hpost' & ->).
      rewrite Hev in Hnode. injection Hnode as <-.
      exists pre', post'. split; [done|]. by apply (Hnot post post').
    + right. split; [done|]. intros Hs. apply Hid. rewrite Hids.
      by apply list_elem_of_fmap_2.
Qed.

(** Two events with the identifier "e1", timestamps 10 and 20: the node
    carries the timestamp 20. *)
Lemma last_event_sets_the_properties_witness :
  Forall (λ event, is_Some (event_node_of event)) log_repeated_id ∧
  ("e1", (20%Z, "A")) ∈
    Event_nodes (store (run 2 (λ _, 0%Z) false log_repeated_id empty_graph).1).
Proof.
  assert (Forall (λ event, is_Some (event_node_of event)) log_repeated_id) as Hall.
  { repeat constructor; by eexists. }
  split; [exact Hall|].
  apply (last_event_sets_the_properties 2 (λ _, 0%Z) false log_repeated_id empty_graph
           "e1" (20%Z, "A") Hall).
  left. exists [sample_event "e1" 10 "c1"], (sample_event "e1" 20 "c1"), [].
  split_and!; [done|done|constructor].
Defined.

(** ** The nodes and relationships of the log *)

Lemma tx_run_has_item o g x :
  o.1 ≠ event_query → match_event (params_id o.2) g = true →
  has_item (tx_run o.1 o.2 g) x ↔ has_item g x ∨ x ∈ items_of o.
Proof.
  destruct o as [[] []]; simpl; try done; intros _ Hm; rewrite ?Hm;
    destruct x; simpl; rewrite ?elem_of_merge, ?elem_of_cons, ?elem_of_nil;
    naive_solver.
Qed.

Lemma apply_writes_has_item ops x : ∀ g,
  Forall (λ o, o.1 ≠ event_query) ops →
  (∀ o, o ∈ ops → params_id o.2 ∈ (Event_nodes g).*1) →
  has_item (apply_writes ops g) x ↔ has_item g x ∨ ∃ o, o ∈ ops ∧ x ∈ items_of o.
Proof.
  induction ops as [|o ops IH]; intros g Hops Hids.
  { simpl. split; [auto|]. intros [?|(o & []%elem_of_nil & _)]. done. }
  apply Forall_cons in Hops as [Ho Hops].
  unfold apply_writes in *. cbn [foldl]. rewrite IH; [|done|].
  - rewrite tx_run_has_item; [|done|].
    + setoid_rewrite elem_of_cons. naive_solver.
    + apply bool_decide_eq_true, Hids. by left.
  - destruct (tx_run_grows o.1 o.2 g Ho) as [-> _]. intros o' Ho'. apply Hids. by right.
Qed.

Lemma elem_of_all_records utcnow query events record : ∀ i recs,
  all_records utcnow query i events = inr recs →
  record ∈ recs ↔
    ∃ j event new, events !! j = Some event ∧
      stage_records utcnow query (i + j) event = inr new ∧ record ∈ new.
Proof.
  induction events as [|event events IH]; intros i recs; simpl.
  { intros [=<-]. split; [by intros ?%elem_of_nil|]. by intros (j & ? & ? & ? & _). }
  destruct (stage_records utcnow query i event) as [|new] eqn:Hnew; [done|]. simpl.
  destruct (all_records utcnow query (S i) events) as [|rest] eqn:Hrest; [done|].
  simpl. intros [=<-]. rewrite elem_of_app, (IH (S i) rest Hrest). split.
  - intros [Hin|(j & ev & new' & Hj & Hrec & Hin)].
    + exists 0, event, new. by rewrite Nat.add_0_r.
    + exists (S j), ev, new'. by rewrite <-Nat.add_succ_comm.
  - intros ([|j] & ev & new' & Hj & Hrec & Hin); simpl in Hj.
    + injection Hj as <-. rewrite Nat.add_0_r, Hnew in Hrec. injection Hrec as <-.
      by left.
    + right. exists j, ev, new'. by rewrite Nat.add_succ_comm.
Qed.

Lemma elem_of_object_records_of event record objs : ∀ new,
  object_records_of event objs = inr new →
  record ∈ new ↔
    ∃ id obj oid oty, ocel_id event = Some id ∧ obj ∈ objs ∧
      obj_id obj = Some oid ∧ obj_type obj = Some oty ∧
      record = ObjectParams id oid oty.
Proof.
  induction objs as [|obj objs IH]; intros new; simpl.
  { intros [=<-]. split; [by intros ?%elem_of_nil|].
    by intros (? & ? & ? & ? & _ & ?%elem_of_nil & _). }
  destruct (ocel_id event) as [id|] eqn:Hid; [|done]. simpl.
  destruct (obj_id obj) as [oid|] eqn:Hoid; [|done]. simpl.
  destruct (obj_type obj) as [oty|] eqn:Hoty; [|done]. simpl.
  destruct (object_records_of event objs) as [|rest] eqn:Hrest; [done|]. simpl.
  intros [=<-]. rewrite elem_of_cons, (IH rest eq_refl). split.
  - intros [->|(id' & obj' & oid' & oty' & Hid' & Hin & Ho1 & Ho2 & ->)].
    + exists id, obj, oid, oty. split_and!; try done. by left.
    + exists id', obj', oid', oty'. split_and!; try done. by right.
  - intros (id' & obj' & oid' & oty' & [= <-] & [->|Hin]%elem_of_cons & Ho1 & Ho2 & ->).
    + left. congruence.
    + right. exists id, obj', oid', oty'. done.
Qed.

Lemma stage_records_id utcnow query i event new record :
  stage_records utcnow query i event = inr new → record ∈ new →
  ocel_id event = Some (params_id record).
Proof.
  destruct query; simpl.
  - intros (id & ts & act & Hid & _ & _ & ->)%event_records_inr.
    by intros ->%list_elem_of_singleton.
  - unfold case_records. destruct (ocel_attributes event) as [attrs|]; [|done]. simpl.
    destruct (attrs !! "case_id"); [|by intros [=<-] ?%elem_of_nil].
    destruct (ocel_id event); [|done]. simpl.
    by intros [=<-] ->%list_elem_of_singleton.
  - unfold activity_records. destruct (ocel_id event); [|done]. simpl.
    destruct (ocel_activity event); [|done]. simpl.
    by intros [=<-] ->%list_elem_of_singleton.
  - unfold resource_records. destruct (ocel_attributes event) as [attrs|]; [|done]. simpl.
    destruct (attrs !! "resource"); [|by intros [=<-] ?%elem_of_nil].
    destruct (ocel_id event); [|done]. simpl.
    by intros [=<-] ->%list_elem_of_singleton.
  - unfold object_records. intros Hnew Hin.
    apply (elem_of_object_records_of _ _ _ _ Hnew) in Hin
      as (id & _ & oid & oty & Hid & _ & _ & _ & ->). done.
Qed.

(** The records the four later stages build for an event with all its keys
    are the nodes and relationships the event names. *)
Lemma stage_items utcnow i event x :
  complete_event event →
  (∃ query new record, query ≠ event_query ∧
     stage_records utcnow query i event = inr new ∧ record ∈ new ∧
     x ∈ items_of (query, record)) ↔ log_item event x.
Proof.
  intros ([id Hid] & [ts Hts] & [act Hact] & [attrs Hattrs] & Hobjs). split.
  - intros (query & new & record & Hq & Hnew & Hin & Hx).
    destruct query; [done|..]; simpl in Hnew.
    + unfold case_records in Hnew. rewrite Hattrs, Hid in Hnew. simpl in Hnew.
      destruct (attrs !! "case_id") as [c|] eqn:Hc; simpl in Hnew;
        injection Hnew as <-; [|by apply elem_of_nil in Hin].
      apply list_elem_of_singleton in Hin as ->. simpl in Hx.
      rewrite !elem_of_cons, elem_of_nil in Hx.
      destruct Hx as [->|[->|[]]]; simpl; eauto.
    + unfold activity_records in Hnew. rewrite Hid, Hact, Hts in Hnew. simpl in Hnew.
      injection Hnew as <-. apply list_elem_of_singleton in Hin as ->. simpl in Hx.
      rewrite !elem_of_cons, elem_of_nil in Hx.
      destruct Hx as [->|[->|[]]]; simpl; eauto.
    + unfold resource_records in Hnew. rewrite Hattrs, Hid in Hnew. simpl in Hnew.
      destruct (attrs !! "resource") as [r|] eqn:Hr; simpl in Hnew;
        injection Hnew as <-; [|by apply elem_of_nil in Hin].
      apply list_elem_of_singleton in Hin as ->. simpl in Hx.
      rewrite !elem_of_cons, elem_of_nil in Hx.
      destruct Hx as [->|[->|[]]]; simpl; eauto.
    + unfold object_records in Hnew.
      apply (elem_of_object_records_of _ _ _ _ Hnew) in Hin
        as (id' & obj & oid & oty & Hid' & Hobj & Hoid & Hoty & ->).
      simpl in Hx. rewrite !elem_of_cons, elem_of_nil in Hx.
      destruct Hx as [->|[->|[]]]; simpl; eauto.
  - assert (∀ c, attrs !! "case_id" = Some c →
              case_records event = inr [CaseParams id c]) as Hcase.
    { intros c Hc. unfold case_records. rewrite Hattrs, Hid. simpl. by rewrite Hc. }
    assert (∀ r, attrs !! "resource" = Some r →
              resource_records event = inr [ResourceParams id r]) as Hres.
    { intros r Hr. unfold resource_records. rewrite Hattrs, Hid. simpl. by rewrite Hr. }
    assert (activity_records (utcnow i) event = inr [ActivityParams id act ts]) as Hactr.
    { unfold activity_records. by rewrite Hid, Hact, Hts. }
    assert (∀ obj oid oty, obj ∈ default [] (ocel_objects event) →
              obj_id obj = Some oid → obj_type obj = Some oty →
              ∃ new, object_records event = inr new ∧ ObjectParams id oid oty ∈ new)
      as Hobjr.
    { intros obj oid oty Hin Hoid Hoty.
      destruct (proj2 (object_records_of_inr event (default [] (ocel_objects event))))
        as [new Hnew]; [right; rewrite Hid; eauto|].
      exists new. split; [done|].
      apply (elem_of_object_records_of _ _ _ _ Hnew). exists id, obj, oid, oty. done. }
    destruct x as [c|c id'|[act' ts']|id' [act' ts']|r|id' r|[oid oty]|id' [oid oty]];
      simpl.
    + intros (attrs' & Ha & Hc). simplify_eq.
      exists case_query, [CaseParams id c], (CaseParams id c).
      split_and!; [done|by apply Hcase|by left|by left].
    + intros (Hid' & attrs' & Ha & Hc). simplify_eq.
      exists case_query, [CaseParams id c], (CaseParams id c).
      split_and!; [done|by apply Hcase|by left|right; by left].
    + intros [? ?]. simplify_eq.
      exists activity_query, [ActivityParams id act ts], (ActivityParams id act ts).
      split_and!; [done|done|by left|by left].
    + intros (? & ? & ?). simplify_eq.
      exists activity_query, [ActivityParams id act ts], (ActivityParams id act ts).
      split_and!; [done|done|by left|right; by left].
    + intros (attrs' & Ha & Hr). simplify_eq.
      exists resource_query, [ResourceParams id r], (ResourceParams id r).
      split_and!; [done|by apply Hres|by left|by left].
    + intros (Hid' & attrs' & Ha & Hr). simplify_eq.
      exists resource_query, [ResourceParams id r], (ResourceParams id r).
      split_and!; [done|by apply Hres|by left|right; by left].
    + intros (obj & Hin & Hoid & Hoty).
      destruct (Hobjr obj oid oty Hin Hoid Hoty) as (new & Hnew & Hrec).
      exists object_query, new, (ObjectParams id oid oty).
      split_and!; [done|done|done|by left].
    + intros (Hid' & obj & Hin & Hoid & Hoty). simplify_eq.
      destruct (Hobjr obj oid oty Hin Hoid Hoty) as (new & Hnew & Hrec).
      exists object_query, new, (ObjectParams id oid oty).
      split_and!; [done|done|done|right; by left].
Qed.

Lemma stages_run_writes BATCH_SIZE utcnow events queries tr o :
  stages_run BATCH_SIZE utcnow events queries tr (inr ()) →
  o ∈ writes tr ↔
    o.1 ∈ queries ∧ ∃ recs, all_records utcnow o.1 0 events = inr recs ∧ o.2 ∈ recs.
Proof.
  intros Hrun. remember (inr ()) as r eqn:Hr.
  induction Hrun as [|query queries tr e Hup|query queries tr tr' r Hup _ IH]; try done.
  { simpl. rewrite elem_of_nil. split; [done|]. by intros [?%elem_of_nil _]. }
  subst r. specialize (IH eq_refl).
  apply uploads_writes in Hup as (recs & Hrecs & Hw). simpl in Hw.
  rewrite writes_app, elem_of_app, IH, Hw, list_elem_of_fmap, elem_of_cons. split.
  - intros [(record & -> & Hin)|[Hq Hrest]]; [|by auto].
    simpl. split; [by left|]. eauto.
  - intros [[Hq|Hq] (recs' & Hrecs' & Hin)]; [|right; eauto].
    left. destruct o as [q record]. simpl in *. subst q.
    rewrite Hrecs in Hrecs'. injection Hrecs' as <-. eauto.
Qed.

Lemma run_items BATCH_SIZE utcnow closed_driver_raises events g x :
  Forall complete_event events →
  has_item (store (run BATCH_SIZE utcnow closed_driver_raises events g).1) x ↔
    has_item g x ∨ ∃ event, event ∈ events ∧ log_item event x.
Proof.
  intros Hall.
  pose proof (proj1 (all_records_complete utcnow events) Hall) as Hrecs.
  destruct (stages_run_total BATCH_SIZE utcnow events
    [event_query; case_query; activity_query; resource_query; object_query])
    as (tr & r & Hrun).
  assert (r = inr ()) as ->.
  { apply (stages_run_inr _ _ _ _ _ _ Hrun). intros query _. apply Hrecs. }
  assert (has_item (replay tr g) x ↔
            has_item g x ∨ ∃ event, event ∈ events ∧ log_item event x) as Hitems.
  { inversion Hrun as [| |?? tr1 tr2 ? Hup Hrest]; subst.
    pose proof (uploads_stage_op _ _ _ _ _ _ _ _ Hup) as Hops1.
    apply uploads_writes in Hup as (recs & Hrecs1 & Hw). simpl in Hw.
    rewrite replay_app.
    rewrite (replay_writes tr2) by (by eapply stages_run_upsert_op).
    rewrite (replay_writes tr1) by (eapply Forall_impl; [done|]; apply stage_op_upsert_op).
    rewrite Hw, (apply_writes_events (pair event_query <$> recs))
      by apply Forall_pair_query.
    apply all_records_event in Hrecs1.
    set (nodes := omap event_update (pair event_query <$> recs)) in *.
    pose proof (event_node_of_ids _ _ Hrecs1) as Hids.
    rewrite apply_writes_has_item.
    - assert (has_item (with_Event_nodes (merge_sets nodes) g) x ↔ has_item g x) as ->.
      { by destruct x. }
      apply or_iff_compat_l. split.
      + intros (o & [Ho (recs' & Hrecs' & Hin)]%(stages_run_writes _ _ _ _ _ _ Hrest) & Hx).
        apply (elem_of_all_records _ _ _ _ _ _ Hrecs') in Hin
          as (j & event & new & Hj & Hnew & Hin).
        exists event. split; [by eapply list_elem_of_lookup_2|].
        apply (stage_items utcnow (0 + j)).
        { rewrite Forall_forall in Hall. by eapply Hall, list_elem_of_lookup_2. }
        exists o.1, new, o.2. split_and!; try done; [|by destruct o].
        intros Heq. rewrite Heq in Ho. set_solver.
      + intros (event & [j Hj]%list_elem_of_lookup_1 & Hx).
        apply (stage_items utcnow (0 + j)) in Hx
          as (query & new & record & Hq & Hnew & Hin & Hx).
        2:{ rewrite Forall_forall in Hall. by eapply Hall, list_elem_of_lookup_2. }
        exists (query, record). split; [|done].
        apply (stages_run_writes _ _ _ _ _ _ Hrest). simpl. split.
        { destruct query; [done|set_solver..]. }
        destruct (Hrecs query) as [recs' Hrecs']. exists recs'. split; [done|].
        apply (elem_of_all_records _ _ _ _ _ _ Hrecs'). by exists j, event, new.
    - eapply Forall_impl; [eapply writes_stages_run, stages_run_stage_op; done|].
      intros o Ho. simpl in Ho. intros Heq. rewrite Heq in Ho. set_solver.
    - intros o [Ho (recs' & Hrecs' & Hin)]%(stages_run_writes _ _ _ _ _ _ Hrest).
      apply (elem_of_all_records _ _ _ _ _ _ Hrecs') in Hin
        as (j & event & new & Hj & Hnew & Hin).
      pose proof (stage_records_id _ _ _ _ _ _ Hnew Hin) as Hid.
      simpl. apply merge_sets_keys. left.
      assert (Some (params_id o.2) ∈ Some <$> nodes.*1) as Hs.
      { rewrite <-Hids, <-Hid. by eapply list_elem_of_fmap_2, list_elem_of_lookup_2. }
      apply list_elem_of_fmap in Hs as (id' & [= <-] & Hs). done. }
  rewrite (run_unfold _ _ _ _ _ _ _ Hrun).
  destruct closed_driver_raises; cbn [fst close_driver extend initial store];
    rewrite ?replay_app, ?replay_schema_ops; [done|].
  cbn [replay foldl replay_op]. rewrite sequence_query_next_event.
  fold (replay tr g). rewrite <-Hitems. by destruct x.
Qed.

(** X15.  For a log all of whose events have every key the stages read, the
    relationships of the store after the run, NEXT_EVENT apart, are those of
    the store before it and those the log names: a CONTAINS_EVENT for every
    event with a [case_id] attribute, an OF_TYPE for every event, a
    PERFORMED_BY for every event with a [resource] attribute and an INVOLVES
    for every object listed for an event; nothing else is added. *)
Theorem run_stores_the_relationships_of_the_log
    BATCH_SIZE utcnow closed_driver_raises events g :
  Forall complete_event events →
  (∀ c id,
     (c, id) ∈ CONTAINS_EVENT (store (run BATCH_SIZE utcnow closed_driver_raises events g).1) ↔
       (c, id) ∈ CONTAINS_EVENT g ∨
       ∃ event attrs, event ∈ events ∧ ocel_id event = Some id ∧
         ocel_attributes event = Some attrs ∧ attrs !! "case_id" = Some c) ∧
  (∀ id act ts,
     (id, (act, ts)) ∈ OF_TYPE (store (run BATCH_SIZE utcnow closed_driver_raises events g).1) ↔
       (id, (act, ts)) ∈ OF_TYPE g ∨
       ∃ event, event ∈ events ∧ ocel_id event = Some id ∧
         ocel_activity event = Some act ∧ ocel_timestamp event = Some ts) ∧
  (∀ id r,
     (id, r) ∈ PERFORMED_BY (store (run BATCH_SIZE utcnow closed_driver_raises events g).1) ↔
       (id, r) ∈ PERFORMED_BY g ∨
       ∃ event attrs, event ∈ events ∧ ocel_id event = Some id ∧
         ocel_attributes event = Some attrs ∧ attrs !! "resource" = Some r) ∧
  (∀ id oid oty,
     (id, (oid, oty)) ∈ INVOLVES (store (run BATCH_SIZE utcnow closed_driver_raises events g).1) ↔
       (id, (oid, oty)) ∈ INVOLVES g ∨
       ∃ event obj, event ∈ events ∧ ocel_id event = Some id ∧
         obj ∈ default [] (ocel_objects event) ∧
         obj_id obj = Some oid ∧ obj_type obj = Some oty).
Proof.
  intros Hall. split_and!.
  - intros c id.
    pose proof (run_items BATCH_SIZE utcnow closed_driver_raises events g
                  (ContainsEvent c id) Hall) as H.
    cbn [has_item log_item] in H. rewrite H. apply or_iff_compat_l. naive_solver.
  - intros id act ts.
    pose proof (run_items BATCH_SIZE utcnow closed_driver_raises events g
                  (OfType id (act, ts)) Hall) as H.
    cbn [has_item log_item fst snd] in H. rewrite H. apply or_iff_compat_l. naive_solver.
  - intros id r.
    pose proof (run_items BATCH_SIZE utcnow closed_driver_raises events g
                  (PerformedBy id r) Hall) as H.
    cbn [has_item log_item] in H. rewrite H. apply or_iff_compat_l. naive_solver.
  - intros id oid oty.
    pose proof (run_items BATCH_SIZE utcnow closed_driver_raises events g
                  (Involves id (oid, oty)) Hall) as H.
    cbn [has_item log_item fst snd] in H. rewrite H. apply or_iff_compat_l. naive_solver.
Qed.

(** Scenario A: the second event is in case "c1". *)
Lemma run_stores_the_relationships_of_the_log_witness :
  Forall complete_event log_three_events ∧
  ("c1", "e2") ∈
    CONTAINS_EVENT (store (run 2 (λ _, 0%Z) false log_three_events empty_graph).1).
Proof.
  assert (Forall complete_event log_three_events) as Hall.
  { repeat constructor; by eexists. }
  split; [exact Hall|].
  apply (proj1 (run_stores_the_relationships_of_the_log 2 (λ _, 0%Z) false
                  log_three_events empty_graph Hall) "c1" "e2").
  right. exists (sample_event "e2" 20 "c1"), {[ "case_id" := "c1" ]}.
  split_and!; [|done..]. right. by left.
Defined.

(** X16.  For a log all of whose events have every key the stages read, the Case,
    Activity, Resource and Object nodes of the store after the run are those
    of the store before it and those the log names:
    a Case node for every [case_id], an Activity node for every pair of
    activity and timestamp, a Resource node for every [resource] and an
    Object node for every id and type listed. *)
Theorem run_stores_the_nodes_of_the_log
    BATCH_SIZE utcnow closed_driver_raises events g :
  Forall complete_event events →
  (∀ c,
     c ∈ Case_nodes (store (run BATCH_SIZE utcnow closed_driver_raises events g).1) ↔
       c ∈ Case_nodes g ∨
       ∃ event attrs, event ∈ events ∧
         ocel_attributes event = Some attrs ∧ attrs !! "case_id" = Some c) ∧
  (∀ act ts,
     (act, ts) ∈ Activity_nodes (store (run BATCH_SIZE utcnow closed_driver_raises events g).1) ↔
       (act, ts) ∈ Activity_nodes g ∨
       ∃ event, event ∈ events ∧
         ocel_activity event = Some act ∧ ocel_timestamp event = Some ts) ∧
  (∀ r,
     r ∈ Resource_nodes (store (run BATCH_SIZE utcnow closed_driver_raises events g).1) ↔
       r ∈ Resource_nodes g ∨
       ∃ event attrs, event ∈ events ∧
         ocel_attributes event = Some attrs ∧ attrs !! "resource" = Some r) ∧
  (∀ oid oty,
     (oid, oty) ∈ Object_nodes (store (run BATCH_SIZE utcnow closed_driver_raises events g).1) ↔
       (oid, oty) ∈ Object_nodes g ∨
       ∃ event obj, event ∈ events ∧ obj ∈ default [] (ocel_objects event) ∧
         obj_id obj = Some oid ∧ obj_type obj = Some oty).
Proof.
  intros Hall. split_and!.
  - intros c.
    pose proof (run_items BATCH_SIZE utcnow closed_driver_raises events g
                  (CaseNode c) Hall) as H.
    cbn [has_item log_item] in H. rewrite H. apply or_iff_compat_l. naive_solver.
  - intros act ts.
    pose proof (run_items BATCH_SIZE utcnow closed_driver_raises events g
                  (ActivityNode (act, ts)) Hall) as H.
    cbn [has_item log_item fst snd] in H. rewrite H. apply or_iff_compat_l. naive_solver.
  - intros r.
    pose proof (run_items BATCH_SIZE utcnow closed_driver_raises events g
                  (ResourceNode r) Hall) as H.
    cbn [has_item log_item] in H. rewrite H. apply or_iff_compat_l. naive_solver.
  - intros oid oty.
    pose proof (run_items BATCH_SIZE utcnow closed_driver_raises events g
                  (ObjectNode (oid, oty)) Hall) as H.
    cbn [has_item log_item fst snd] in H. rewrite H. apply or_iff_compat_l. naive_solver.
Qed.

(** An event with three objects: the Object node of its second object. *)
Lemma run_stores_the_nodes_of_the_log_witness :
  Forall complete_event [event_with_three_objects] ∧
  ("o2", "item") ∈
    Object_nodes (store (run 2 (λ _, 0%Z) false [event_with_three_objects] empty_graph).1).
Proof.
  assert (Forall complete_event [event_with_three_objects]) as Hall.
  { repeat constructor; by eexists. }
  split; [exact Hall|].
  apply (proj2 (proj2 (proj2 (run_stores_the_nodes_of_the_log 2 (λ _, 0%Z) false
                  [event_with_three_objects] empty_graph Hall))) "o2" "item").
  right. exists event_with_three_objects, {| obj_id := Some "o2"; obj_type := Some "item" |}.
  split_and!; [by left| |done..]. right. by left.
Defined.
